(** * cc-diffconfig: canonicalisation and diff of two configuration files

    A shallow embedding of [main.py] and of the parts of the Python standard
    library it calls ([json.dumps], [str.splitlines], [difflib.unified_diff]),
    followed by the properties of the pipeline.

    Conventions of the embedding.
    - A Python [str] is a [string]; a character is its code point, so the
      embedding covers the code points below 256.
    - A Python [dict] is the list of its items in insertion order.
    - A call that may raise returns a [result]; calls with effects on the
      file system, the standard output or the log run in the monad [M].
    - The parsers ([json.load], [yaml.safe_load]), the schema validator
      ([jsonschema.validate]) and [float.__repr__] are parameters. *)

From Stdlib Require Import Ascii Floats.SpecFloat.
From stdpp Require Import gmap strings list pretty sorting.

Local Open Scope string_scope.
Local Open Scope list_scope.
Local Open Scope nat_scope.

(** ** Exceptions and results *)

(** The exception classes that occur in the program. [TypeError] carries no
    message: the program never catches or prints one. [OSError] stands for
    the subclasses of [OSError] other than [FileNotFoundError], and
    [SystemExit] is what [sys.exit] raises. *)
Inductive exn : Type :=
  | TypeError
  | ValueError (msg : string)
  | FileNotFoundError (msg : string)
  | OSError (msg : string)
  | JSONDecodeError (msg : string)
  | YAMLError (msg : string)
  | ValidationError (msg : string)
  | OtherException (msg : string)
  | SystemExit (code : Z).

(** [str(e)]: the message of an exception, as an f-string prints it. *)
Definition exn_str (e : exn) : string :=
  match e with
  | TypeError => ""
  | ValueError m | FileNotFoundError m | OSError m | JSONDecodeError m
  | YAMLError m | ValidationError m | OtherException m => m
  | SystemExit c => pretty c
  end.

(** [isinstance(e, Exception)]: [SystemExit] derives from [BaseException]
    only. *)
Definition is_Exception (e : exn) : bool :=
  match e with
  | SystemExit _ => false
  | _ => true
  end.

(** [isinstance(e, ValueError)]: [json.JSONDecodeError] is a subclass. *)
Definition is_ValueError (e : exn) : bool :=
  match e with
  | ValueError _ | JSONDecodeError _ => true
  | _ => false
  end.

Inductive result (A : Type) : Type :=
  | Ret (a : A)
  | Raise (e : exn).
Arguments Ret {A} a.
Arguments Raise {A} e.

#[global] Instance result_ret : MRet result := @Ret.

#[global] Instance result_bind : MBind result := fun A B k r =>
  match r with
  | Ret a => k a
  | Raise e => Raise e
  end.

(** All results of a list, or the first exception. *)
Fixpoint rsequence {A} (l : list (result A)) : result (list A) :=
  match l with
  | [] => Ret []
  | r :: l' => x ← r; xs ← rsequence l'; Ret (x :: xs)
  end.

(** ** Python strings *)

Definition chr (n : N) : string := String (ascii_of_N n) "".

(** ['\n'] *)
Definition NL : string := chr 10.

(** [s * n] *)
Fixpoint str_mul (s : string) (n : nat) : string :=
  match n with
  | O => ""
  | S n' => s +:+ str_mul s n'
  end.

(** [sep.join(l)] *)
Fixpoint str_join (sep : string) (l : list string) : string :=
  match l with
  | [] => ""
  | [x] => x
  | x :: l' => x +:+ sep +:+ str_join sep l'
  end.

(** [s1 < s2] on [str]: lexicographic on code points, a proper prefix first. *)
Definition str_lt (s1 s2 : string) : bool := String.ltb s1 s2.

(** The line boundaries of [str.splitlines] among the code points below 256:
    LF, VT, FF, CR, FS, GS, RS and NEL. *)
Definition is_linebreak (c : ascii) : bool :=
  let n := N_of_ascii c in
  bool_decide (n ∈ [10; 11; 12; 13; 28; 29; 30; 133]%N).

(** [str.splitlines()] with the line under construction in [cur]: CR LF is
    one boundary, and no empty line is produced after the last boundary. *)
Fixpoint splitlines_from (cur : string) (s : string) : list string :=
  match s with
  | "" => if decide (cur = "") then [] else [cur]
  | String c s' =>
      if decide (c = "013"%char) then
        match s' with
        | String "010"%char s'' => cur :: splitlines_from "" s''
        | _ => cur :: splitlines_from "" s'
        end
      else if is_linebreak c then cur :: splitlines_from "" s'
      else splitlines_from (cur +:+ String c "") s'
  end.

Definition splitlines (s : string) : list string := splitlines_from "" s.

(** ** Python values *)

(** [datetime.date], which [yaml.safe_load] builds from a timestamp scalar. *)
Record pydate := Date { year : Z; month : Z; day : Z }.

#[global] Instance pydate_eq_dec : EqDecision pydate.
Proof. solve_decision. Defined.

(** The hashable values that occur as dictionary keys. Float keys are not
    covered. *)
Inductive pykey : Type :=
  | KStr (s : string)
  | KInt (n : Z)
  | KBool (b : bool)
  | KNone
  | KDate (d : pydate).

#[global] Instance pykey_eq_dec : EqDecision pykey.
Proof. solve_decision. Defined.

(** The values the loaders return. The induction principle is stated by hand
    below, with the hypotheses on the elements of a list and of a dictionary. *)
Unset Elimination Schemes.
Inductive pyval : Type :=
  | PyNone
  | PyBool (b : bool)
  | PyInt (n : Z)
  | PyFloat (x : spec_float)
  | PyStr (s : string)
  | PyList (l : list pyval)
  | PyDict (items : list (pykey * pyval))
  | PyDate (d : pydate).
Set Elimination Schemes.

Section pyval_induction.
Variable P : pyval -> Prop.
Hypothesis HNone : P PyNone.
Hypothesis HBool : forall b, P (PyBool b).
Hypothesis HInt : forall n, P (PyInt n).
Hypothesis HFloat : forall x, P (PyFloat x).
Hypothesis HStr : forall s, P (PyStr s).
Hypothesis HList : forall l, Forall P l -> P (PyList l).
Hypothesis HDict : forall items, Forall (fun kv => P kv.2) items -> P (PyDict items).
Hypothesis HDate : forall d, P (PyDate d).

Fixpoint pyval_ind (o : pyval) : P o :=
  match o with
  | PyNone => HNone
  | PyBool b => HBool b
  | PyInt n => HInt n
  | PyFloat x => HFloat x
  | PyStr s => HStr s
  | PyList l =>
      HList l ((fix go (l : list pyval) : Forall P l :=
                  match l with
                  | [] => Forall_nil_2 P
                  | o' :: l' => Forall_cons_2 P o' l' (pyval_ind o') (go l')
                  end) l)
  | PyDict items =>
      HDict items
        ((fix go (items : list (pykey * pyval)) : Forall (fun kv => P kv.2) items :=
            match items with
            | [] => Forall_nil_2 _
            | kv :: items' =>
                Forall_cons_2 (fun kv => P kv.2) kv items' (pyval_ind kv.2) (go items')
            end) items)
  | PyDate d => HDate d
  end.
End pyval_induction.

(** ** [json.dumps(o, indent=4, sort_keys=True)] *)

(** *** Strings: [py_encode_basestring_ascii] *)

Definition BACKSLASH : string := chr 92.
Definition QUOTE : string := chr 34.

Definition hex_digit (d : N) : string :=
  if (d <? 10)%N then chr (48 + d) else chr (87 + d).

(** ['{0:04x}'.format(n)], for the arguments below [0x10000] it is given. *)
Definition hex4 (n : N) : string :=
  hex_digit ((n `div` 4096) `mod` 16) +:+ hex_digit ((n `div` 256) `mod` 16)
  +:+ hex_digit ((n `div` 16) `mod` 16) +:+ hex_digit (n `mod` 16).

(** [ESCAPE_DCT]: the short escapes, and a [u00XX] escape for the other
    characters below [0x20]. *)
Definition ESCAPE_DCT (c : ascii) : option string :=
  let n := N_of_ascii c in
  if decide (n = 92)%N then Some (BACKSLASH +:+ BACKSLASH)
  else if decide (n = 34)%N then Some (BACKSLASH +:+ QUOTE)
  else if decide (n = 8)%N then Some (BACKSLASH +:+ "b")
  else if decide (n = 12)%N then Some (BACKSLASH +:+ "f")
  else if decide (n = 10)%N then Some (BACKSLASH +:+ "n")
  else if decide (n = 13)%N then Some (BACKSLASH +:+ "r")
  else if decide (n = 9)%N then Some (BACKSLASH +:+ "t")
  else if (n <? 32)%N then Some (BACKSLASH +:+ "u" +:+ hex4 n)
  else None.

(** [ESCAPE_ASCII]: a backslash, a double quote, or anything outside the
    range from the space to the tilde. *)
Definition ESCAPE_ASCII (c : ascii) : bool :=
  let n := N_of_ascii c in
  bool_decide (n = 92 ∨ n = 34 ∨ n < 32 ∨ 126 < n)%N.

(** The function [replace] of [py_encode_basestring_ascii]. *)
Definition replace (c : ascii) : string :=
  match ESCAPE_DCT c with
  | Some e => e
  | None =>
      let n := N_of_ascii c in
      if (n <? 65536)%N then BACKSLASH +:+ "u" +:+ hex4 n
      else
        let n := (n - 65536)%N in
        let s1 := N.lor 55296 (N.land (N.shiftr n 10) 1023) in
        let s2 := N.lor 56320 (N.land n 1023) in
        BACKSLASH +:+ "u" +:+ hex4 s1 +:+ BACKSLASH +:+ "u" +:+ hex4 s2
  end.

(** [ESCAPE_ASCII.sub(replace, s)] *)
Fixpoint escape_ascii (s : string) : string :=
  match s with
  | "" => ""
  | String c s' =>
      (if ESCAPE_ASCII c then replace c else String c "") +:+ escape_ascii s'
  end.

Definition py_encode_basestring_ascii (s : string) : string :=
  QUOTE +:+ escape_ascii s +:+ QUOTE.

(** *** Sorting the items: [sorted(dct.items())] *)

Definition date_lt (d1 d2 : pydate) : bool :=
  let c := (year d1 ?= year d2)%Z in
  match c with
  | Lt => true
  | Gt => false
  | Eq => match (month d1 ?= month d2)%Z with
          | Lt => true
          | Gt => false
          | Eq => (day d1 <? day d2)%Z
          end
  end.

(** [k1 < k2] between two keys, [None] where Python raises [TypeError]:
    strings compare with strings, integers and booleans with each other
    ([bool] is a subclass of [int]), dates with dates, [None] with nothing. *)
Definition key_lt (k1 k2 : pykey) : option bool :=
  match k1, k2 with
  | KStr s1, KStr s2 => Some (str_lt s1 s2)
  | KInt n1, KInt n2 => Some (n1 <? n2)%Z
  | KInt n1, KBool b2 => Some (n1 <? Z.b2z b2)%Z
  | KBool b1, KInt n2 => Some (Z.b2z b1 <? n2)%Z
  | KBool b1, KBool b2 => Some (Z.b2z b1 <? Z.b2z b2)%Z
  | KDate d1, KDate d2 => Some (date_lt d1 d2)
  | _, _ => None
  end.

Definition key_ltb (k1 k2 : pykey) : bool := default false (key_lt k1 k2).

(** Every two keys at different places of the list can be compared. *)
Fixpoint comparable_keys (ks : list pykey) : bool :=
  match ks with
  | [] => true
  | k :: ks' => forallb (fun k' => bool_decide (is_Some (key_lt k k'))) ks'
                && comparable_keys ks'
  end.

Section sorted_items.
Context {A : Type}.

(** Insertion after the items that are smaller: the sort is stable. *)
Fixpoint insert_item (x : pykey * A) (l : list (pykey * A)) : list (pykey * A) :=
  match l with
  | [] => [x]
  | y :: l' => if key_ltb y.1 x.1 then y :: insert_item x l' else x :: y :: l'
  end.

Definition sort_items (l : list (pykey * A)) : list (pykey * A) :=
  foldr insert_item [] l.

(** [sorted(dct.items())]. The keys of a dictionary are pairwise different,
    so the comparison of two items is the comparison of their keys, and the
    result is the one list in ascending order of the keys. [list.sort]
    compares every element with an earlier one, and being comparable is
    transitive on keys, so it raises [TypeError] exactly when two of the
    keys cannot be compared. *)
Definition sorted_items (l : list (pykey * A)) : result (list (pykey * A)) :=
  if comparable_keys l.*1 then Ret (sort_items l) else Raise TypeError.
End sorted_items.

(** *** The encoder: [_make_iterencode] *)

Section encoder.
(** [float.__repr__] on the finite floats. *)
Variable float_repr : spec_float -> string.

Definition floatstr (o : spec_float) : string :=
  match o with
  | S754_nan => "NaN"
  | S754_infinity false => "Infinity"
  | S754_infinity true => "-Infinity"
  | _ => float_repr o
  end.

(** [int.__repr__] *)
Definition intstr (n : Z) : string := pretty n.

(** [' ' * 4], for [indent=4]. *)
Definition _indent : string := str_mul " " 4.
Definition _item_separator : string := ",".
Definition _key_separator : string := ": ".

Definition newline_indent (_current_indent_level : nat) : string :=
  NL +:+ str_mul _indent _current_indent_level.

(** The conversion of a key to a string in [_iterencode_dict]; [skipkeys]
    is false, so any other key raises [TypeError]. *)
Definition encode_key (key : pykey) : result string :=
  match key with
  | KStr s => Ret s
  | KBool true => Ret "true"
  | KBool false => Ret "false"
  | KNone => Ret "null"
  | KInt n => Ret (intstr n)
  | KDate _ => Raise TypeError
  end.

(** One item of a dictionary, from its key and the chunks of its value. *)
Definition encode_item (item : pykey * result string) : result string :=
  key ← encode_key item.1;
  chunks ← item.2;
  Ret (py_encode_basestring_ascii key +:+ _key_separator +:+ chunks).

(** [_iterencode_list] on a list that is not empty, from the chunks of its
    values. *)
Definition _iterencode_list (values : list (result string))
    (_current_indent_level : nat) : result string :=
  let level := S _current_indent_level in
  let separator := _item_separator +:+ newline_indent level in
  chunks ← rsequence values;
  Ret ("[" +:+ newline_indent level +:+ str_join separator chunks
       +:+ newline_indent _current_indent_level +:+ "]").

(** [_iterencode_dict] on a dictionary that is not empty, from its keys and
    the chunks of its values. *)
Definition _iterencode_dict (dct : list (pykey * result string))
    (_current_indent_level : nat) : result string :=
  let level := S _current_indent_level in
  let item_separator := _item_separator +:+ newline_indent level in
  items ← sorted_items dct;
  chunks ← rsequence (map encode_item items);
  Ret ("{" +:+ newline_indent level +:+ str_join item_separator chunks
       +:+ newline_indent _current_indent_level +:+ "}").

(** [_iterencode], with the chunks it yields joined. Every exception of the
    encoder is a [TypeError], so the order in which the items fail does not
    show in the result; the values of a list or of a dictionary are encoded
    before [_iterencode_list] and [_iterencode_dict] put them together (and
    before the items are sorted), which makes the recursion structural. A
    value that is none of the JSON types goes to [JSONEncoder.default], which
    raises. *)
Fixpoint _iterencode (o : pyval) (_current_indent_level : nat) : result string :=
  match o with
  | PyStr s => Ret (py_encode_basestring_ascii s)
  | PyNone => Ret "null"
  | PyBool true => Ret "true"
  | PyBool false => Ret "false"
  | PyInt n => Ret (intstr n)
  | PyFloat x => Ret (floatstr x)
  | PyList lst =>
      match lst with
      | [] => Ret "[]"
      | _ =>
          _iterencode_list
            (map (fun value => _iterencode value (S _current_indent_level)) lst)
            _current_indent_level
      end
  | PyDict dct =>
      match dct with
      | [] => Ret "{}"
      | _ =>
          _iterencode_dict
            (map (fun kv => (kv.1, _iterencode kv.2 (S _current_indent_level))) dct)
            _current_indent_level
      end
  | PyDate _ => Raise TypeError
  end.

(** [json.dumps(o, indent=4, sort_keys=True)] *)
Definition json_dumps (o : pyval) : result string := _iterencode o 0.
End encoder.

(** ** [difflib.SequenceMatcher(None, a, b)] *)

(** A matching block [(i, j, k)]: [a[i:i+k] == b[j:j+k]]. *)
Definition Match : Type := nat * nat * nat.

Inductive tag : Type := replace_ | delete_ | insert_ | equal_.

#[global] Instance tag_eq_dec : EqDecision tag.
Proof. solve_decision. Defined.

(** An opcode [(tag, i1, i2, j1, j2)]. *)
Record opcode := Opcode { op_tag : tag; op_i1 : nat; op_i2 : nat; op_j1 : nat; op_j2 : nat }.

Section SequenceMatcher.
Variables a b : list string.

(** [a[i] == b[j]] *)
Definition same_elt (i j : nat) : bool :=
  match a !! i, b !! j with
  | Some x, Some y => bool_decide (x = y)
  | _, _ => false
  end.

(** *** [__chain_b] *)

(** The first loop: for each element of [b], the indices where it occurs,
    in increasing order. *)
Definition b2j_build : gmap string (list nat) :=
  foldl (fun b2j ie => <[ie.2 := default [] (b2j !! ie.2) ++ [ie.1]]> b2j)
        ∅ (imap pair b).

(** [isjunk] is [None]: no element is junk. With [autojunk] and at least
    200 elements, the elements that occur more than [n // 100 + 1] times are
    popular and leave [b2j]. *)
Definition bjunk : gset string := ∅.

Definition b2j : gmap string (list nat) :=
  let n := length b in
  if decide (200 ≤ n) then
    let ntest := n `div` 100 + 1 in
    filter (fun entry => ¬ (ntest < length entry.2)) b2j_build
  else b2j_build.

Definition isbjunk (j : nat) : bool :=
  match b !! j with
  | Some x => bool_decide (x ∈ bjunk)
  | None => false
  end.

(** *** [find_longest_match] *)

(** [j2len.get(j-1, 0)] *)
Definition j2lenget (j2len : gmap nat nat) (j : nat) : nat :=
  match j with
  | O => 0
  | S j' => default 0 (j2len !! j')
  end.

(** The inner loop, over the indices [js] of [a[i]] in [b]: [continue]
    below [blo], [break] from [bhi] on. *)
Fixpoint scan_row (i blo bhi : nat) (j2len : gmap nat nat) (js : list nat)
    (newj2len : gmap nat nat) (best : Match) : gmap nat nat * Match :=
  match js with
  | [] => (newj2len, best)
  | j :: js' =>
      if decide (j < blo) then scan_row i blo bhi j2len js' newj2len best
      else if decide (bhi ≤ j) then (newj2len, best)
      else
        let k := j2lenget j2len j + 1 in
        let newj2len := <[j := k]> newj2len in
        if decide (best.2 < k)
        then scan_row i blo bhi j2len js' newj2len (i + 1 - k, j + 1 - k, k)
        else scan_row i blo bhi j2len js' newj2len best
  end.

(** [b2j.get(a[i], nothing)] *)
Definition indices_of (i : nat) : list nat :=
  match a !! i with
  | Some x => default [] (b2j !! x)
  | None => []
  end.

(** The outer loop, over [range(alo, ahi)]. *)
Definition scan_rows (alo ahi blo bhi : nat) : gmap nat nat * Match :=
  foldl (fun st i => scan_row i blo bhi st.1 (indices_of i) ∅ st.2)
        (∅, (alo, blo, 0)) (seq alo (ahi - alo)).

(** The loops that extend the block downwards: over elements that are not
    junk for [junk = false], over junk for [junk = true]. Each round
    lowers [besti]. *)
Fixpoint extend_down (junk : bool) (alo blo besti bestj bestsize : nat) : Match :=
  match besti, bestj with
  | S i', S j' =>
      if bool_decide (alo < besti) && bool_decide (blo < bestj)
         && bool_decide (isbjunk j' = junk) && same_elt i' j'
      then extend_down junk alo blo i' j' (S bestsize)
      else (besti, bestj, bestsize)
  | _, _ => (besti, bestj, bestsize)
  end.

(** The loops that extend the block upwards; [rounds] bounds the number of
    rounds, and [ahi - (besti + bestsize)] rounds are never exceeded. *)
Fixpoint extend_up (junk : bool) (rounds : nat) (ahi bhi besti bestj bestsize : nat) : Match :=
  match rounds with
  | O => (besti, bestj, bestsize)
  | S rounds' =>
      if bool_decide (besti + bestsize < ahi) && bool_decide (bestj + bestsize < bhi)
         && bool_decide (isbjunk (bestj + bestsize) = junk)
         && same_elt (besti + bestsize) (bestj + bestsize)
      then extend_up junk rounds' ahi bhi besti bestj (S bestsize)
      else (besti, bestj, bestsize)
  end.

Definition extend (junk : bool) (alo ahi blo bhi : nat) (best : Match) : Match :=
  let '(besti, bestj, bestsize) := extend_down junk alo blo best.1.1 best.1.2 best.2 in
  extend_up junk (ahi - (besti + bestsize)) ahi bhi besti bestj bestsize.

Definition find_longest_match (alo ahi blo bhi : nat) : Match :=
  let best := (scan_rows alo ahi blo bhi).2 in
  let best := extend false alo ahi blo bhi best in
  extend true alo ahi blo bhi best.

(** *** [get_matching_blocks] *)

(** The loop over the queue of ranges [(alo, ahi, blo, bhi)] that remain to
    be looked at; [queue.pop()] takes the head of the list. [None] when the
    loop has not ended after [fuel] rounds. *)
Fixpoint matching_loop (fuel : nat) (queue : list (nat * nat * nat * nat))
    (matching_blocks : list Match) : option (list Match) :=
  match queue with
  | [] => Some matching_blocks
  | (alo, ahi, blo, bhi) :: queue =>
      match fuel with
      | O => None
      | S fuel' =>
          let '(i, j, k) := find_longest_match alo ahi blo bhi in
          if decide (k = 0) then matching_loop fuel' queue matching_blocks
          else
            let queue :=
              if decide (alo < i ∧ blo < j) then (alo, i, blo, j) :: queue else queue in
            let queue :=
              if decide (i + k < ahi ∧ j + k < bhi) then (i + k, ahi, j + k, bhi) :: queue
              else queue in
            matching_loop fuel' queue (matching_blocks ++ [(i, j, k)])
      end
  end.

(** The order of tuples: lexicographic. *)
Definition Match_le (x y : Match) : Prop :=
  x.1.1 < y.1.1 ∨ (x.1.1 = y.1.1 ∧ (x.1.2 < y.1.2 ∨ (x.1.2 = y.1.2 ∧ x.2 ≤ y.2))).

#[global] Instance Match_le_dec : RelDecision Match_le.
Proof. intros x y. unfold Match_le. apply _. Defined.

(** The loop that collapses adjacent blocks, with the block [(i1, j1, k1)]
    to compare against. *)
Fixpoint collapse (i1 j1 k1 : nat) (matching_blocks : list Match) : list Match :=
  match matching_blocks with
  | [] => if decide (k1 = 0) then [] else [(i1, j1, k1)]
  | (i2, j2, k2) :: rest =>
      if decide (i1 + k1 = i2 ∧ j1 + k1 = j2) then collapse i1 j1 (k1 + k2) rest
      else (if decide (k1 = 0) then [] else [(i1, j1, k1)]) ++ collapse i2 j2 k2 rest
  end.

(** Every round of [matching_loop] takes a range from the queue and puts
    back ranges that are shorter in total, so the loop ends within
    [2 * len(a) + 1] rounds ([matching_loop_fuel] below): the default is
    never returned. *)
Definition get_matching_blocks : list Match :=
  let la := length a in
  let lb := length b in
  let matching_blocks :=
    default [] (matching_loop (2 * la + 1) [(0, la, 0, lb)] []) in
  let matching_blocks := merge_sort Match_le matching_blocks in
  collapse 0 0 0 matching_blocks ++ [(la, lb, 0)].

(** *** [get_opcodes] *)

Fixpoint opcodes_from (i j : nat) (blocks : list Match) : list opcode :=
  match blocks with
  | [] => []
  | (ai, bj, size) :: blocks' =>
      let change :=
        if decide (i < ai ∧ j < bj) then [Opcode replace_ i ai j bj]
        else if decide (i < ai) then [Opcode delete_ i ai j bj]
        else if decide (j < bj) then [Opcode insert_ i ai j bj]
        else [] in
      let i := ai + size in
      let j := bj + size in
      change ++ (if decide (size = 0) then [] else [Opcode equal_ ai i bj j])
      ++ opcodes_from i j blocks'
  end.

Definition get_opcodes : list opcode := opcodes_from 0 0 get_matching_blocks.

(** *** [get_grouped_opcodes] *)

(** [codes[0] = tag, max(i1, i2-n), i2, max(j1, j2-n), j2] *)
Definition trim_start (n : nat) (c : opcode) : opcode :=
  Opcode (op_tag c) (op_i1 c `max` (op_i2 c - n)) (op_i2 c)
         (op_j1 c `max` (op_j2 c - n)) (op_j2 c).

(** [codes[-1] = tag, i1, min(i2, i1+n), j1, min(j2, j1+n)] *)
Definition trim_end (n : nat) (c : opcode) : opcode :=
  Opcode (op_tag c) (op_i1 c) (op_i2 c `min` (op_i1 c + n))
         (op_j1 c) (op_j2 c `min` (op_j1 c + n)).

Definition fixup_first (n : nat) (codes : list opcode) : list opcode :=
  match codes with
  | c :: codes' => if decide (op_tag c = equal_) then trim_start n c :: codes' else codes
  | [] => []
  end.

Fixpoint fixup_last (n : nat) (codes : list opcode) : list opcode :=
  match codes with
  | [] => []
  | [c] => if decide (op_tag c = equal_) then [trim_end n c] else [c]
  | c :: codes' => c :: fixup_last n codes'
  end.

(** The loop over the codes, with the group under construction. *)
Fixpoint group_loop (n : nat) (codes : list opcode) (group : list opcode)
    : list (list opcode) :=
  match codes with
  | [] =>
      match group with
      | [] => []
      | [c] => if decide (op_tag c = equal_) then [] else [group]
      | _ => [group]
      end
  | c :: codes' =>
      if decide (op_tag c = equal_ ∧ n + n < op_i2 c - op_i1 c) then
        (group ++ [trim_end n c]) :: group_loop n codes' [trim_start n c]
      else group_loop n codes' (group ++ [c])
  end.

Definition get_grouped_opcodes (n : nat) : list (list opcode) :=
  let codes := get_opcodes in
  let codes := match codes with [] => [Opcode equal_ 0 1 0 1] | _ => codes end in
  let codes := fixup_first n codes in
  let codes := fixup_last n codes in
  group_loop n codes [].
End SequenceMatcher.

(** ** [difflib.unified_diff] *)

Definition _format_range_unified (start stop : nat) : string :=
  let beginning := start + 1 in
  let length := stop - start in
  if decide (length = 1) then pretty beginning
  else
    let beginning := if decide (length = 0) then beginning - 1 else beginning in
    pretty beginning +:+ "," +:+ pretty length.

(** [a[i1:i2]] *)
Definition slice {A} (l : list A) (i1 i2 : nat) : list A := take (i2 - i1) (drop i1 l).

Section unified_diff.
Variables a b : list string.
Variables fromfile tofile : string.

(** ['\n'], the default of the argument [lineterm]. *)
Definition lineterm : string := NL.

Definition opcode_lines (c : opcode) : list string :=
  match op_tag c with
  | equal_ => map (fun line => " " +:+ line) (slice a (op_i1 c) (op_i2 c))
  | replace_ =>
      map (fun line => "-" +:+ line) (slice a (op_i1 c) (op_i2 c))
      ++ map (fun line => "+" +:+ line) (slice b (op_j1 c) (op_j2 c))
  | delete_ => map (fun line => "-" +:+ line) (slice a (op_i1 c) (op_i2 c))
  | insert_ => map (fun line => "+" +:+ line) (slice b (op_j1 c) (op_j2 c))
  end.

(** The lines of one group: the line of the ranges, then the lines of its
    opcodes. *)
Definition group_lines (group : list opcode) : list string :=
  let first := default (Opcode equal_ 0 0 0 0) (head group) in
  let last := default (Opcode equal_ 0 0 0 0) (last group) in
  let file1_range := _format_range_unified (op_i1 first) (op_i2 last) in
  let file2_range := _format_range_unified (op_j1 first) (op_j2 last) in
  ("@@ -" +:+ file1_range +:+ " +" +:+ file2_range +:+ " @@" +:+ lineterm)
  :: concat (map opcode_lines group).

(** [list(unified_diff(a, b, fromfile=fromfile, tofile=tofile))]: the two
    lines of the header before the first group, none when there is no
    group. *)
Definition unified_diff : list string :=
  match get_grouped_opcodes a b 3 with
  | [] => []
  | groups =>
      ("--- " +:+ fromfile +:+ lineterm) :: ("+++ " +:+ tofile +:+ lineterm)
      :: concat (map group_lines groups)
  end.
End unified_diff.

(** ** The process and its environment *)

Inductive level : Type := INFO | ERROR.

(** A file on the disk: one that [open(path, "r")] refuses with an [OSError]
    (no permission, a directory), or one with its text. *)
Inductive file : Type :=
  | Unreadable (error : string)
  | Readable (content : string).

(** What goes wrong when a path is written: [open(path, "w")] raises, or the
    write after [written] successful ones does. *)
Inductive write_fault : Type :=
  | OpenFails (error : string)
  | WriteFails (written : nat) (error : string).

(** The state of the world around one run: the files, the faults that writing
    to a path meets, the text on the standard output and the records of the
    log (the time stamp of the log format is left out). *)
Record world := World {
  files : gmap string file;
  faults : gmap string write_fault;
  stdout : string;
  log : list (level * string)
}.

Definition set_files (f : gmap string file) (w : world) : world :=
  World f (faults w) (stdout w) (log w).
Definition add_stdout (s : string) (w : world) : world :=
  World (files w) (faults w) (stdout w +:+ s) (log w).
Definition add_log (r : level * string) (w : world) : world :=
  World (files w) (faults w) (stdout w) (log w ++ [r]).

(** Computations that change the world and return or raise. *)
Definition M (A : Type) : Type := world -> world * result A.

#[global] Instance M_ret : MRet M := fun A x w => (w, Ret x).

#[global] Instance M_bind : MBind M := fun A B k m w =>
  match m w with
  | (w', Ret x) => k x w'
  | (w', Raise e) => (w', Raise e)
  end.

Definition raise {A} (e : exn) : M A := fun w => (w, Raise e).

Definition lift {A} (r : result A) : M A := fun w => (w, r).

(** [try: body except ...: handler]: [handler e] is the clause that catches
    [e], if there is one. *)
Definition try_except {A} (body : M A) (handler : exn -> option (M A)) : M A :=
  fun w =>
    match body w with
    | (w', Raise e) =>
        match handler e with
        | Some h => h w'
        | None => (w', Raise e)
        end
    | r => r
    end.

Definition logging (l : level) (msg : string) : M unit :=
  fun w => (add_log (l, msg) w, Ret tt).

(** [print(line)] *)
Definition print (line : string) : M unit :=
  fun w => (add_stdout (line +:+ NL) w, Ret tt).

(** [sys.exit(code)] *)
Definition sys_exit {A} (code : Z) : M A := raise (SystemExit code).

(** [os.path.exists(path)] *)
Definition os_path_exists (path : string) : M bool :=
  fun w => (w, Ret (bool_decide (is_Some (files w !! path)))).

(** [with open(path, "r") as f], and the text that reading [f] gives. *)
Definition open_r (path : string) : M string :=
  fun w =>
    match files w !! path with
    | None => (w, Raise (FileNotFoundError ("[Errno 2] No such file or directory: " +:+ path)))
    | Some (Unreadable error) => (w, Raise (OSError error))
    | Some (Readable content) => (w, Ret content)
    end.

(** [with open(path, "w") as f: for c in chunks: f.write(c)]: the file is
    created or truncated when it opens, and holds what was written before a
    fault. *)
Definition open_w_write (path : string) (chunks : list string) : M unit :=
  fun w =>
    match faults w !! path with
    | None => (set_files (<[path := Readable (String.concat "" chunks)]> (files w)) w, Ret tt)
    | Some (OpenFails error) => (w, Raise (OSError error))
    | Some (WriteFails written error) =>
        if decide (written < length chunks) then
          (set_files (<[path := Readable (String.concat "" (take written chunks))]> (files w)) w,
           Raise (OSError error))
        else
          (set_files (<[path := Readable (String.concat "" chunks)]> (files w)) w, Ret tt)
    end.

(** Truth of an optional string argument: [None] and [""] are false. *)
Definition truthy (s : option string) : bool :=
  match s with
  | None | Some "" => false
  | Some _ => true
  end.

(** The exit code of the process: 0 when [main] returns, the code given to
    [sys.exit], and 1 after the traceback of any other exception. *)
Definition exit_code (r : result unit) : Z :=
  match r with
  | Ret _ => 0
  | Raise (SystemExit code) => code
  | Raise _ => 1
  end.

(** ** [main.py] *)

(** The arguments that [setup_argparse] declares; [--type] is one of
    ["json"], ["yaml"] (the default) and ["ini"]. *)
Record Args := {
  file1 : string;
  file2 : string;
  type : string;
  output : option string;
  schema : option string
}.

Section main.
(** [float.__repr__], [json.load] and [yaml.safe_load] on the text of a
    file, and [jsonschema.validate(instance, schema)]. *)
Variable float_repr : spec_float -> string.
Variable json_load : string -> result pyval.
Variable yaml_safe_load : string -> result pyval.
Variable validate : pyval -> pyval -> result unit.

Definition load_config (file_path config_type : string) : M pyval :=
  try_except
    (f ← open_r file_path;
     if decide (config_type = "json") then
       try_except (lift (json_load f))
         (fun e => match e with
                   | JSONDecodeError _ =>
                       Some (raise (ValueError ("Invalid JSON file: " +:+ exn_str e)))
                   | _ => None
                   end)
     else if decide (config_type = "yaml") then
       try_except (lift (yaml_safe_load f))
         (fun e => match e with
                   | YAMLError _ =>
                       Some (raise (ValueError ("Invalid YAML file: " +:+ exn_str e)))
                   | _ => None
                   end)
     else if decide (config_type = "ini") then
       raise (ValueError "INI format is not yet supported.")
     else
       logging ERROR ("Unsupported configuration type: " +:+ config_type);;
       mret PyNone)
    (fun e => match e with
              | FileNotFoundError _ =>
                  Some (raise (FileNotFoundError ("File not found: " +:+ file_path)))
              | _ =>
                  if is_Exception e then
                    Some (logging ERROR ("Error loading config file: " +:+ exn_str e);;
                          mret PyNone)
                  else None
              end).

Definition validate_config (config_data : pyval) (schema_path : option string) : M bool :=
  if negb (truthy schema_path) then mret true
  else
    let schema_path := default "" schema_path in
    try_except
      (f ← open_r schema_path;
       schema ← lift (json_load f);
       lift (validate config_data schema);;
       logging INFO "Configuration file is valid against the schema.";;
       mret true)
      (fun e => match e with
                | FileNotFoundError _ =>
                    Some (logging ERROR ("Schema file not found: " +:+ schema_path);;
                          mret false)
                | ValidationError _ =>
                    Some (logging ERROR ("Configuration validation failed: " +:+ exn_str e);;
                          mret false)
                | JSONDecodeError _ =>
                    Some (logging ERROR ("Invalid JSON schema file: " +:+ exn_str e);;
                          mret false)
                | _ =>
                    if is_Exception e then
                      Some (logging ERROR ("Error validating configuration: " +:+ exn_str e);;
                            mret false)
                    else None
                end).

Definition diff_configs (config1 config2 : pyval) : result (list string) :=
  config1_str ← json_dumps float_repr config1;
  config2_str ← json_dumps float_repr config2;
  Ret (unified_diff (splitlines config1_str) (splitlines config2_str) "file1" "file2").

Definition write_diff (diff : list string) (output_file : string) : M unit :=
  try_except
    (open_w_write output_file (map (fun line => line +:+ NL) diff);;
     logging INFO ("Diff written to: " +:+ output_file))
    (fun e =>
       if is_Exception e then
         Some (logging ERROR ("Error writing diff to file: " +:+ exn_str e))
       else None).

(** [for line in diff: print(line)] *)
Fixpoint print_lines (diff : list string) : M unit :=
  match diff with
  | [] => mret tt
  | line :: diff' => print line;; print_lines diff'
  end.

Definition main (args : Args) : M unit :=
  found1 ← os_path_exists (file1 args);
  (if negb found1 then
     logging ERROR ("File not found: " +:+ file1 args);; sys_exit 1
   else mret tt);;
  found2 ← os_path_exists (file2 args);
  (if negb found2 then
     logging ERROR ("File not found: " +:+ file2 args);; sys_exit 1
   else mret tt);;
  configs ←
    try_except
      (config1 ← load_config (file1 args) (type args);
       config2 ← load_config (file2 args) (type args);
       mret (config1, config2))
      (fun e =>
         if is_ValueError e then Some (logging ERROR (exn_str e);; sys_exit 1)
         else match e with
              | FileNotFoundError _ => Some (logging ERROR (exn_str e);; sys_exit 1)
              | _ => None
              end);
  let '(config1, config2) := configs in
  (match config1, config2 with
   | PyNone, _ | _, PyNone => sys_exit 1
   | _, _ => mret tt
   end);;
  (if truthy (schema args) then
     valid1 ← validate_config config1 (schema args);
     if negb valid1 then sys_exit 1
     else
       valid2 ← validate_config config2 (schema args);
       if negb valid2 then sys_exit 1 else mret tt
   else mret tt);;
  diff ← lift (diff_configs config1 config2);
  (match diff with
   | [] => logging INFO "Configurations are identical."
   | _ =>
       if truthy (output args) then write_diff diff (default "" (output args))
       else print_lines diff
   end);;
  logging INFO "Configuration comparison completed.".

(** One run of the program: the world it leaves and its exit code. *)
Definition run (args : Args) (w : world) : world * Z :=
  let '(w', r) := main args w in (w', exit_code r).
End main.

(** ** [argparse.ArgumentParser] *)

(** The values of [nargs] that occur: [None], one argument, and the [0] of
    the help action. *)
Inductive nargs_value : Type := nargs_None | nargs_0.

Inductive action_class : Type := _StoreAction | _HelpAction.

(** The default of an action: a string, [None], or [SUPPRESS]. *)
Inductive default_value : Type :=
  | default_SUPPRESS
  | default_None
  | default_str (s : string).

(** An action; the destination [None] is [SUPPRESS]. *)
Record Action := {
  action_cls : action_class;
  option_strings : list string;
  dest : option string;
  nargs : nargs_value;
  action_default : default_value;
  choices : option (list string);
  required : bool;
  help : string
}.

#[global] Instance nargs_value_eq_dec : EqDecision nargs_value.
Proof. solve_decision. Defined.
#[global] Instance action_class_eq_dec : EqDecision action_class.
Proof. solve_decision. Defined.
#[global] Instance default_value_eq_dec : EqDecision default_value.
Proof. solve_decision. Defined.
#[global] Instance Action_eq_dec : EqDecision Action.
Proof. solve_decision. Defined.

Record ArgumentParser := {
  description : string;
  _actions : list Action
}.

(** [s.startswith(prefix)] *)
Definition startswith (s prefix : string) : bool := String.prefix prefix s.

(** [c in s] for a character [c] *)
Fixpoint contains (c : ascii) (s : string) : bool :=
  match s with
  | "" => false
  | String c' s' => bool_decide (c' = c) || contains c s'
  end.

(** [s.split(c, 1)] for a string [s] with [c] in it *)
Fixpoint split_once (c : ascii) (s : string) : string * string :=
  match s with
  | "" => ("", "")
  | String c' s' =>
      if decide (c' = c) then ("", s')
      else let '(before, after) := split_once c s' in (String c' before, after)
  end.

(** [s.lstrip('-')] and [s.replace('-', '_')] *)
Fixpoint lstrip_dashes (s : string) : string :=
  match s with
  | String "-"%char s' => lstrip_dashes s'
  | _ => s
  end.

Fixpoint replace_dashes (s : string) : string :=
  match s with
  | "" => ""
  | String c s' => String (if decide (c = "-"%char) then "_"%char else c) (replace_dashes s')
  end.

(** [ArgumentParser(description=description)]: with [add_help], the parser
    starts with the help action. *)
Definition new_ArgumentParser (description : string) : ArgumentParser :=
  {| description := description;
     _actions :=
       [ {| action_cls := _HelpAction; option_strings := ["-h"; "--help"]; dest := None;
            nargs := nargs_0; action_default := default_SUPPRESS; choices := None;
            required := false; help := "show this help message and exit" |} ] |}.

(** [parser.add_argument(name, ..., choices=choices, default=default,
    help=help)], with the action [store]. One name that does not start with
    [-] is a positional argument, which is required; otherwise the names are
    option strings, and the destination is the first long one, or the first
    one, without its dashes. *)
Definition add_argument (names : list string) (choices : option (list string))
    (default_ : option string) (help : string) (parser : ArgumentParser) : ArgumentParser :=
  let default_ :=
    match default_ with
    | Some s => default_str s
    | None => default_None
    end in
  let positional :=
    match names with
    | [] => true
    | [name] => negb (startswith name "-")
    | _ => false
    end in
  let action :=
    if positional then
      {| action_cls := _StoreAction; option_strings := []; dest := head names;
         nargs := nargs_None; action_default := default_; choices := choices;
         required := true; help := help |}
    else
      let long_option_strings :=
        filter (fun option_string => startswith option_string "--") names in
      let dest_option_string :=
        match long_option_strings with
        | option_string :: _ => option_string
        | [] => default "" (head names)
        end in
      {| action_cls := _StoreAction; option_strings := names;
         dest := Some (replace_dashes (lstrip_dashes dest_option_string));
         nargs := nargs_None; action_default := default_; choices := choices;
         required := false; help := help |} in
  {| description := description parser; _actions := _actions parser ++ [action] |}.

(** *** The values, the errors and the exits *)

(** The value of an attribute of the namespace: [None], a string, or a list
    of strings. *)
Inductive argval : Type :=
  | ANone
  | AStr (s : string)
  | AList (l : list string).

Abbreviation Namespace := (gmap string argval).

(** The messages of [ArgumentError], and the messages that [parser.error]
    is called with; their text is left to [format_error] below. *)
Inductive argument_message : Type :=
  | expected_one_argument
  | ignored_explicit_argument (explicit_arg : string)
  | invalid_choice (value : string) (choices : list string).

Inductive error_message : Type :=
  | ambiguous_option (option : string) (matches : list string)
  | unexpected_option_string (option_string : string)
  | argument_error (argument_name : string) (msg : argument_message)
  | required_arguments (names : list string)
  | unrecognized_arguments (argv : list string).

(** The two ways in which the parser ends the process: the help action
    prints the help and exits with 0, [parser.error] prints the usage and the
    message and exits with 2. *)
Inductive parser_exit : Type :=
  | help_exit
  | error_exit (message : error_message).

Inductive outcome (A : Type) : Type :=
  | Done (a : A)
  | Exit (e : parser_exit).
Arguments Done {A} a.
Arguments Exit {A} e.

#[global] Instance outcome_ret : MRet outcome := @Done.

#[global] Instance outcome_bind : MBind outcome := fun A B k o =>
  match o with
  | Done a => k a
  | Exit e => Exit e
  end.

(** An option tuple [(action, option_string, explicit_arg)]. *)
Definition option_tuple : Type := option Action * string * option string.

(** The characters of [arg_strings_pattern]. *)
Inductive pattern_char : Type := pA | pO | pDash.

(** The state of [_parse_known_args]. *)
Record parse_state := {
  namespace : Namespace;
  positionals : list Action;
  extras : list string;
  seen_actions : list Action
}.

(** [l.remove(x)], when [x] is in [l] *)
Fixpoint remove_first (x : string) (l : list string) : list string :=
  match l with
  | [] => []
  | y :: l' => if decide (y = x) then l' else y :: remove_first x l'
  end.

(** [_negative_number_matcher]: [^-\d+$|^-\d*\.\d+$], where [$] also matches
    before a newline that ends the string. *)
Definition is_digit (c : ascii) : bool :=
  let n := N_of_ascii c in bool_decide (48 ≤ n)%N && bool_decide (n ≤ 57)%N.

Fixpoint all_digits (s : string) : bool :=
  match s with
  | "" => false
  | String c "" => is_digit c
  | String c s' => is_digit c && all_digits s'
  end.

Fixpoint digits_dot_digits (s : string) : bool :=
  match s with
  | "" => false
  | String c s' =>
      if decide (c = "."%char) then all_digits s' else is_digit c && digits_dot_digits s'
  end.

Fixpoint without_last_newline (s : string) : option string :=
  match s with
  | "" => None
  | String c "" => if decide (c = "010"%char) then Some "" else None
  | String c s' => String c <$> without_last_newline s'
  end.

Definition negative_number (s : string) : bool :=
  match s with
  | String "-"%char rest => all_digits rest || digits_dot_digits rest
  | _ => false
  end.

Definition _negative_number_matcher (s : string) : bool :=
  negative_number s
  || match without_last_newline s with
     | Some s' => negative_number s'
     | None => false
     end.

Section ArgumentParser.
Variable self : ArgumentParser.

(** The dictionary [_option_string_actions], in the order of insertion. *)
Definition _option_string_actions : list (string * Action) :=
  concat (map (fun action =>
                 map (fun option_string => (option_string, action)) (option_strings action))
              (_actions self)).

Fixpoint lookup_option_in (l : list (string * Action)) (option_string : string)
    : option Action :=
  match l with
  | [] => None
  | (option_string', action) :: l' =>
      if decide (option_string' = option_string) then Some action
      else lookup_option_in l' option_string
  end.

Definition lookup_option : string -> option Action := lookup_option_in _option_string_actions.

Definition _has_negative_number_optionals : bool :=
  existsb (fun entry => _negative_number_matcher entry.1) _option_string_actions.

Definition _get_positional_actions : list Action :=
  filter (fun action => option_strings action = []) (_actions self).

Definition _get_action_name (argument : Action) : string :=
  match option_strings argument with
  | [] => default "" (dest argument)
  | names => str_join "/" names
  end.

(** [_get_option_tuples]: the options that the string abbreviates, and for
    a string with one dash those that it starts with. *)
Definition _get_option_tuples (option_string : string) : outcome (list option_tuple) :=
  match option_string with
  | String c0 (String c1 rest) =>
      if decide (c0 = "-"%char ∧ c1 = "-"%char) then
        let '(option_prefix, explicit_arg) :=
          if contains "="%char option_string then
            let '(option_prefix, explicit_arg) := split_once "="%char option_string in
            (option_prefix, Some explicit_arg)
          else (option_string, None) in
        Done (omap (fun entry : string * Action =>
                      if startswith entry.1 option_prefix
                      then Some (Some entry.2, entry.1, explicit_arg) else None)
                   _option_string_actions)
      else if decide (c0 = "-"%char) then
        let short_option_prefix := String c0 (String c1 "") in
        let short_explicit_arg := rest in
        Done (omap (fun entry : string * Action =>
                      if decide (entry.1 = short_option_prefix)
                      then Some (Some entry.2, entry.1, Some short_explicit_arg)
                      else if startswith entry.1 option_string
                      then Some (Some entry.2, entry.1, None) else None)
                   _option_string_actions)
      else Exit (error_exit (unexpected_option_string option_string))
  | _ => Exit (error_exit (unexpected_option_string option_string))
  end.

(** [_parse_optional]: [None] for a positional argument, the tuple of an
    option, with no action when no option of the parser fits. *)
Definition _parse_optional (arg_string : string) : outcome (option option_tuple) :=
  if decide (arg_string = "") then Done None
  else if negb (startswith arg_string "-") then Done None
  else
    match lookup_option arg_string with
    | Some action => Done (Some (Some action, arg_string, None))
    | None =>
        if decide (String.length arg_string = 1) then Done None
        else
          let before_equals :=
            if contains "="%char arg_string then
              let '(option_string, explicit_arg) := split_once "="%char arg_string in
              match lookup_option option_string with
              | Some action => Some (Some action, option_string, Some explicit_arg)
              | None => None
              end
            else None in
          match before_equals with
          | Some tuple => Done (Some tuple)
          | None =>
              option_tuples ← _get_option_tuples arg_string;
              match option_tuples with
              | _ :: _ :: _ =>
                  Exit (error_exit (ambiguous_option arg_string
                                      (map (fun tuple : option_tuple => tuple.1.2)
                                           option_tuples)))
              | [option_tuple] => Done (Some option_tuple)
              | [] =>
                  if _negative_number_matcher arg_string
                     && negb _has_negative_number_optionals then Done None
                  else if contains " "%char arg_string then Done None
                  else Done (Some (None, arg_string, None))
              end
          end
    end.

(** The first loop of [_parse_known_args]: the pattern of the argument
    strings and the tuples of the options, by index. After [--], every string
    is an argument. *)
Fixpoint classify (i : nat) (arg_strings : list string)
    : outcome (list pattern_char * gmap nat option_tuple) :=
  match arg_strings with
  | [] => Done ([], ∅)
  | arg_string :: rest =>
      if decide (arg_string = "--") then Done (pDash :: replicate (length rest) pA, ∅)
      else
        option_tuple ← _parse_optional arg_string;
        classified ← classify (S i) rest;
        match option_tuple with
        | None => Done (pA :: classified.1, classified.2)
        | Some tuple => Done (pO :: classified.1, <[i := tuple]> classified.2)
        end
  end.

(** The length of the match of [_get_nargs_pattern(action)] at the start of
    the pattern, [None] without a match. For an option the pattern is one
    [A], or nothing for [nargs=0]; for a positional argument it is one [A]
    with any number of dashes before and after it, or dashes only. *)
Fixpoint leading_dashes (pattern : list pattern_char) : nat :=
  match pattern with
  | pDash :: pattern' => S (leading_dashes pattern')
  | _ => 0
  end.

Definition match_nargs (action : Action) (pattern : list pattern_char) : option nat :=
  match option_strings action, nargs action with
  | _ :: _, nargs_None =>
      match pattern with
      | pA :: _ => Some 1
      | _ => None
      end
  | _ :: _, nargs_0 => Some 0
  | [], nargs_None =>
      let before := leading_dashes pattern in
      match drop before pattern with
      | pA :: pattern' => Some (before + 1 + leading_dashes pattern')
      | _ => None
      end
  | [], nargs_0 => Some (leading_dashes pattern)
  end.

Definition _match_argument (action : Action) (arg_strings_pattern : list pattern_char)
    : outcome nat :=
  match match_nargs action arg_strings_pattern with
  | Some n => Done n
  | None => Exit (error_exit (argument_error (_get_action_name action) expected_one_argument))
  end.

(** The match of the patterns of the actions, one after the other: the
    groups are greedy, and no group can give back what the next one needs. *)
Fixpoint match_groups (actions : list Action) (pattern : list pattern_char)
    : option (list nat) :=
  match actions with
  | [] => Some []
  | action :: actions' =>
      n ← match_nargs action pattern;
      ns ← match_groups actions' (drop n pattern);
      Some (n :: ns)
  end.

(** [_match_arguments_partial]: the longest start of [actions] that
    matches; [i] counts down from [len(actions)]. *)
Fixpoint match_partial (i : nat) (actions : list Action) (pattern : list pattern_char)
    : list nat :=
  match i with
  | O => []
  | S i' =>
      match match_groups (take i actions) pattern with
      | Some result => result
      | None => match_partial i' actions pattern
      end
  end.

Definition _match_arguments_partial (actions : list Action)
    (arg_strings_pattern : list pattern_char) : list nat :=
  match_partial (length actions) actions arg_strings_pattern.

Definition _check_value (action : Action) (value : string) : outcome unit :=
  match choices action with
  | Some among =>
      if bool_decide (value ∈ among) then Done tt
      else Exit (error_exit (argument_error (_get_action_name action)
                               (invalid_choice value among)))
  | None => Done tt
  end.

Fixpoint check_values (action : Action) (values : list string) : outcome unit :=
  match values with
  | [] => Done tt
  | value :: values' => _check_value action value;; check_values action values'
  end.

(** [_get_values]: the first [--] is taken out; one string for [nargs=None]
    is the value, anything else is kept as a list. *)
Definition _get_values (action : Action) (arg_strings : list string) : outcome argval :=
  let arg_strings := remove_first "--" arg_strings in
  match nargs action, arg_strings with
  | nargs_None, [arg_string] => _check_value action arg_string;; Done (AStr arg_string)
  | _, _ => check_values action arg_strings;; Done (AList arg_strings)
  end.

Definition take_action (action : Action) (argument_strings : list string) (st : parse_state)
    : outcome parse_state :=
  let seen := seen_actions st ++ [action] in
  argument_values ← _get_values action argument_strings;
  match action_cls action with
  | _StoreAction =>
      Done {| namespace :=
                match dest action with
                | Some attribute => <[attribute := argument_values]> (namespace st)
                | None => namespace st
                end;
              positionals := positionals st; extras := extras st; seen_actions := seen |}
  | _HelpAction => Exit help_exit
  end.

Fixpoint take_actions (action_tuples : list (Action * list string)) (st : parse_state)
    : outcome parse_state :=
  match action_tuples with
  | [] => Done st
  | (action, args) :: action_tuples' =>
      st ← take_action action args st; take_actions action_tuples' st
  end.

Section _parse_known_args.
Variable arg_strings : list string.
Variable arg_strings_pattern : list pattern_char.
Variable option_string_indices : gmap nat option_tuple.

(** The round of the loop of [consume_optional] for an action without an
    explicit argument: its arguments are the strings that follow. *)
Definition consume_following (start_index : nat) (action : Action)
    (action_tuples : list (Action * list string))
    : outcome (list (Action * list string) * nat) :=
  let start := start_index + 1 in
  let selected_patterns := drop start arg_strings_pattern in
  arg_count ← _match_argument action selected_patterns;
  let stop := start + arg_count in
  let args := take arg_count (drop start arg_strings) in
  Done (action_tuples ++ [(action, args)], stop).

(** The rounds with an explicit argument: an action that takes none, behind
    a single dash, is followed in the same string by another short option;
    the explicit argument gets shorter with every round. *)
Fixpoint consume_explicit (start_index : nat) (explicit_arg : string) (action : Action)
    (option_string : string) (action_tuples : list (Action * list string))
    : outcome (list (Action * list string) * nat) :=
  arg_count ← _match_argument action [pA];
  match explicit_arg with
  | String c new_explicit_arg =>
      if bool_decide (arg_count = 0) && negb (startswith option_string "--") then
        let action_tuples := action_tuples ++ [(action, [])] in
        let option_string := String "-"%char (String c "") in
        match lookup_option option_string with
        | Some action =>
            match new_explicit_arg with
            | "" => consume_following start_index action action_tuples
            | _ => consume_explicit start_index new_explicit_arg action option_string
                     action_tuples
            end
        | None =>
            Exit (error_exit (argument_error (_get_action_name action)
                                (ignored_explicit_argument explicit_arg)))
        end
      else if decide (arg_count = 1) then
        Done (action_tuples ++ [(action, [explicit_arg])], start_index + 1)
      else
        Exit (error_exit (argument_error (_get_action_name action)
                            (ignored_explicit_argument explicit_arg)))
  | "" =>
      if decide (arg_count = 1) then
        Done (action_tuples ++ [(action, [explicit_arg])], start_index + 1)
      else
        Exit (error_exit (argument_error (_get_action_name action)
                            (ignored_explicit_argument explicit_arg)))
  end.

Definition consume_optional (start_index : nat) (tuple : option_tuple) (st : parse_state)
    : outcome (parse_state * nat) :=
  match tuple with
  | (None, _, _) =>
      Done ({| namespace := namespace st; positionals := positionals st;
               extras := extras st ++ take 1 (drop start_index arg_strings);
               seen_actions := seen_actions st |}, start_index + 1)
  | (Some action, option_string, explicit_arg) =>
      matched ←
        match explicit_arg with
        | Some explicit_arg => consume_explicit start_index explicit_arg action option_string []
        | None => consume_following start_index action []
        end;
      st ← take_actions matched.1 st;
      Done (st, matched.2)
  end.

Fixpoint take_positionals (matched : list (Action * nat)) (start_index : nat)
    (st : parse_state) : outcome (parse_state * nat) :=
  match matched with
  | [] => Done (st, start_index)
  | (action, arg_count) :: matched' =>
      let args := take arg_count (drop start_index arg_strings) in
      let start_index := start_index + arg_count in
      st ← take_action action args st;
      take_positionals matched' start_index st
  end.

Definition consume_positionals (start_index : nat) (st : parse_state)
    : outcome (parse_state * nat) :=
  let selected_pattern := drop start_index arg_strings_pattern in
  let arg_counts := _match_arguments_partial (positionals st) selected_pattern in
  consumed ← take_positionals (zip (positionals st) arg_counts) start_index st;
  let st := consumed.1 in
  Done ({| namespace := namespace st;
           positionals := drop (length arg_counts) (positionals st);
           extras := extras st; seen_actions := seen_actions st |}, consumed.2).

(** [min(index for index in option_string_indices if index >= start_index)],
    with its tuple; [None] when [start_index] is above the last index of an
    option. [count] indices are looked at. *)
Fixpoint next_option_string_index (count : nat) (start_index : nat)
    : option (nat * option_tuple) :=
  match count with
  | O => None
  | S count' =>
      match option_string_indices !! start_index with
      | Some tuple => Some (start_index, tuple)
      | None => next_option_string_index count' (S start_index)
      end
  end.

(** The loop that consumes positional arguments and options in turn; every
    round moves [start_index] up, so the [len(arg_strings) + 1] rounds that
    [parse_known_args] gives it are never exceeded ([parse_loop_rounds]
    below). *)
Fixpoint parse_loop (rounds : nat) (start_index : nat) (st : parse_state)
    : outcome (parse_state * nat) :=
  match next_option_string_index (length arg_strings - start_index) start_index with
  | None => Done (st, start_index)
  | Some (next_index, tuple) =>
      match rounds with
      | O => Done (st, start_index)
      | S rounds' =>
          if decide (start_index = next_index) then
            consumed ← consume_optional start_index tuple st;
            parse_loop rounds' consumed.2 consumed.1
          else
            consumed ← consume_positionals start_index st;
            let st := consumed.1 in
            let positionals_end_index := consumed.2 in
            if decide (start_index < positionals_end_index) then
              parse_loop rounds' positionals_end_index st
            else
              let strings :=
                take (next_index - positionals_end_index)
                     (drop positionals_end_index arg_strings) in
              let st := {| namespace := namespace st; positionals := positionals st;
                           extras := extras st ++ strings;
                           seen_actions := seen_actions st |} in
              consumed ← consume_optional next_index tuple st;
              parse_loop rounds' consumed.2 consumed.1
      end
  end.
End _parse_known_args.

(** The attributes of the namespace before the parsing: the defaults of the
    actions. *)
Definition default_namespace : Namespace :=
  foldl (fun ns action =>
           match dest action, action_default action with
           | Some attribute, default_None =>
               if decide (is_Some (ns !! attribute)) then ns else <[attribute := ANone]> ns
           | Some attribute, default_str s =>
               if decide (is_Some (ns !! attribute)) then ns else <[attribute := AStr s]> ns
           | _, _ => ns
           end)
        ∅ (_actions self).

(** [parse_known_args]: the namespace and the strings that were not
    recognized. A string default that is still in place is converted with
    the type of its action, which is the identity here. *)
Definition parse_known_args (args : list string) : outcome (Namespace * list string) :=
  classified ← classify 0 args;
  let st := {| namespace := default_namespace; positionals := _get_positional_actions;
               extras := []; seen_actions := [] |} in
  looped ← parse_loop args classified.1 classified.2 (S (length args)) 0 st;
  consumed ← consume_positionals args classified.1 looped.2 looped.1;
  let st := consumed.1 in
  let stop_index := consumed.2 in
  let extras := extras st ++ drop stop_index args in
  let required_actions :=
    map _get_action_name
        (filter (fun action => (action ∉ seen_actions st) ∧ required action = true)
                (_actions self)) in
  match required_actions with
  | [] => Done (namespace st, extras)
  | _ => Exit (error_exit (required_arguments required_actions))
  end.

Definition parse_args (args : list string) : outcome Namespace :=
  parsed ← parse_known_args args;
  match parsed.2 with
  | [] => Done parsed.1
  | argv => Exit (error_exit (unrecognized_arguments argv))
  end.
End ArgumentParser.

(** ** The command line of [main.py] *)

Definition setup_argparse : ArgumentParser :=
  let parser :=
    new_ArgumentParser "Compares two configuration files and highlights the differences." in
  let parser :=
    add_argument ["file1"] None None "Path to the first configuration file." parser in
  let parser :=
    add_argument ["file2"] None None "Path to the second configuration file." parser in
  let parser :=
    add_argument ["--type"] (Some ["json"; "yaml"; "ini"]) (Some "yaml")
      "Type of configuration files (default: yaml)." parser in
  let parser :=
    add_argument ["--output"; "-o"] None None "Output file to write the diff to." parser in
  let parser :=
    add_argument ["--schema"] None None
      "Path to JSON schema file for validating config files." parser in
  parser.

(** The attributes of the namespace as [main] uses them. [args.type] is
    compared with strings and printed, and a list is neither ["json"] nor
    ["yaml"] nor ["ini"] and prints as its text; [args.output] and
    [args.schema] are tested for truth before they are used, and an empty
    list is as false as [None]. *)
(** [repr(s)] for a string: between double quotes when the string has a
    single quote and no double quote in it, between single quotes otherwise;
    the backslash, the quote and the characters that are not printable are
    escaped. *)
Definition printable (c : ascii) : bool :=
  let n := N_of_ascii c in
  (bool_decide (32 ≤ n)%N && bool_decide (n ≤ 126)%N)
  || (bool_decide (161 ≤ n)%N && negb (bool_decide (n = 173)%N)).

Definition repr_char (quote : ascii) (c : ascii) : string :=
  if decide (c = quote ∨ c = "092"%char) then BACKSLASH +:+ String c ""
  else if decide (c = "009"%char) then BACKSLASH +:+ "t"
  else if decide (c = "010"%char) then BACKSLASH +:+ "n"
  else if decide (c = "013"%char) then BACKSLASH +:+ "r"
  else if printable c then String c ""
  else
    let n := N_of_ascii c in
    BACKSLASH +:+ "x" +:+ hex_digit (n `div` 16) +:+ hex_digit (n `mod` 16).

Fixpoint repr_chars (quote : ascii) (s : string) : string :=
  match s with
  | "" => ""
  | String c s' => repr_char quote c +:+ repr_chars quote s'
  end.

Definition py_repr (s : string) : string :=
  let quote :=
    if contains "'"%char s && negb (contains "034"%char s) then "034"%char else "'"%char in
  String quote "" +:+ repr_chars quote s +:+ String quote "".

(** [str(v)], as an f-string prints it. *)
Definition str_of_argval (v : argval) : string :=
  match v with
  | ANone => "None"
  | AStr s => s
  | AList l => "[" +:+ str_join ", " (map py_repr l) +:+ "]"
  end.

Definition optional_argval (v : argval) : option string :=
  match v with
  | AStr s => Some s
  | ANone | AList _ => None
  end.

(** How a run of the script ends: in the parser, or in [main] once the
    arguments are parsed. *)
Inductive ended : Type :=
  | in_parser (e : parser_exit)
  | in_main (r : result unit).

Definition exit_status (e : ended) : Z :=
  match e with
  | in_parser help_exit => 0
  | in_parser (error_exit _) => 2
  | in_main r => exit_code r
  end.

Section script.
Variable float_repr : spec_float -> string.
Variable json_load : string -> result pyval.
Variable yaml_safe_load : string -> result pyval.
Variable validate : pyval -> pyval -> result unit.
(** [parser.format_help()], the text that the help action prints. *)
Variable format_help : ArgumentParser -> string.

(** [main()] with [sys.argv[1:]] given: the arguments are parsed, and the
    body of [main] runs on the namespace. A positional argument that is not a
    string makes [os.path.exists] raise a [TypeError]: before anything for
    [file1], after the test of [file1] for [file2]. The usage and the message
    that [parser.error] writes to the standard error are not part of the
    world; the message is in the result. *)
Definition script (argv : list string) (w : world) : world * ended :=
  match parse_args setup_argparse argv with
  | Exit help_exit => (add_stdout (format_help setup_argparse) w, in_parser help_exit)
  | Exit (error_exit message) => (w, in_parser (error_exit message))
  | Done args =>
      let attribute name := default ANone (args !! name) in
      match attribute "file1", attribute "file2" with
      | AStr file1, AStr file2 =>
          let '(w', r) :=
            main float_repr json_load yaml_safe_load validate
              {| file1 := file1; file2 := file2;
                 type := str_of_argval (attribute "type");
                 output := optional_argval (attribute "output");
                 schema := optional_argval (attribute "schema") |} w in
          (w', in_main r)
      | AStr file1, _ =>
          let '(w', r) :=
            (found1 ← os_path_exists file1;
             (if negb found1 then
                logging ERROR ("File not found: " +:+ file1);; sys_exit 1
              else mret tt);;
             raise TypeError) w in
          (w', in_main r)
      | _, _ => (w, in_main (Raise TypeError))
      end
  end.
End script.

(** * Properties *)

(** ** Documents *)

Definition is_KStr (k : pykey) : bool :=
  match k with
  | KStr _ => true
  | _ => false
  end.

(** The Documents of the data model: null, booleans, numbers, strings,
    sequences of Documents, and mappings from strings to Documents with
    unique keys. *)
Fixpoint is_document (o : pyval) : bool :=
  match o with
  | PyNone | PyBool _ | PyInt _ | PyFloat _ | PyStr _ => true
  | PyList l => forallb is_document l
  | PyDict items =>
      forallb (fun kv => is_KStr kv.1 && is_document kv.2) items
      && bool_decide (NoDup items.*1)
  | PyDate _ => false
  end.

(** Two values differ only in the insertion order of the keys of their
    mappings, at every level. *)
Unset Elimination Schemes.
Set Elimination Schemes.

(** ** The order of strings *)

Lemma str_compare_refl s : String.compare s s = Eq.
Proof.
  induction s as [|c s IH]; simpl; [done|].
  unfold Ascii.compare. by rewrite N.compare_refl.
Qed.

Lemma str_compare_trans s1 s2 s3 :
  String.compare s1 s2 = Lt -> String.compare s2 s3 = Lt -> String.compare s1 s3 = Lt.
Proof.
  revert s2 s3. induction s1 as [|c1 s1 IH]; intros [|c2 s2] [|c3 s3]; simpl; try done.
  unfold Ascii.compare.
  destruct (N.compare_spec (N_of_ascii c1) (N_of_ascii c2)) as [E12|L12|G12]; try done;
    destruct (N.compare_spec (N_of_ascii c2) (N_of_ascii c3)) as [E23|L23|G23]; try done;
    intros H12 H23.
  - rewrite E12, E23, N.compare_refl. eauto.
  - rewrite E12. by apply N.compare_lt_iff in L23 as ->.
  - rewrite <-E23. by apply N.compare_lt_iff in L12 as ->.
  - assert (N_of_ascii c1 < N_of_ascii c3)%N as L13 by lia.
    by apply N.compare_lt_iff in L13 as ->.
Qed.

Lemma str_lt_irrefl s : str_lt s s = false.
Proof. unfold str_lt, String.ltb. by rewrite str_compare_refl. Qed.

Lemma str_lt_trans s1 s2 s3 : str_lt s1 s2 -> str_lt s2 s3 -> str_lt s1 s3.
Proof.
  unfold str_lt, String.ltb.
  destruct (String.compare s1 s2) eqn:E12; try done.
  destruct (String.compare s2 s3) eqn:E23; try done.
  by rewrite (str_compare_trans _ _ _ E12 E23).
Qed.

Lemma str_lt_asym s1 s2 : str_lt s1 s2 -> str_lt s2 s1 -> False.
Proof.
  intros H12 H21. pose proof (str_lt_trans _ _ _ H12 H21) as H.
  by rewrite str_lt_irrefl in H.
Qed.

Lemma str_lt_total s1 s2 : s1 ≠ s2 -> str_lt s1 s2 = false -> str_lt s2 s1.
Proof.
  unfold str_lt, String.ltb. intros Hne.
  rewrite (String.compare_antisym s2 s1).
  destruct (String.compare s1 s2) eqn:E; simpl; try done.
  by apply String.compare_eq_iff in E.
Qed.

(** ** Sorting the items of a mapping with string keys *)

Section sort_items_facts.
Context {A : Type}.
Implicit Types (x y : pykey * A) (l : list (pykey * A)).

(** The order of two items: the order of their keys. *)
Definition item_lt x y : Prop := key_ltb x.1 y.1.

Definition str_keyed l : Prop := Forall (fun x => is_KStr x.1) l.

Lemma insert_item_Permutation x l : insert_item x l ≡ₚ x :: l.
Proof.
  induction l as [|y l IH]; simpl; [done|].
  destruct (key_ltb y.1 x.1); [|done].
  rewrite IH. apply Permutation_swap.
Qed.

Lemma sort_items_Permutation l : sort_items l ≡ₚ l.
Proof.
  induction l as [|x l IH]; simpl; [done|].
  by rewrite insert_item_Permutation, IH.
Qed.

Lemma item_lt_trans x y z :
  is_KStr x.1 -> is_KStr y.1 -> is_KStr z.1 -> item_lt x y -> item_lt y z -> item_lt x z.
Proof.
  unfold item_lt, key_ltb.
  destruct x as [[] ?], y as [[] ?], z as [[] ?]; simpl; try done.
  intros _ _ _. apply str_lt_trans.
Qed.

Lemma item_lt_asym x y : is_KStr x.1 -> is_KStr y.1 -> item_lt x y -> item_lt y x -> False.
Proof.
  unfold item_lt, key_ltb.
  destruct x as [[] ?], y as [[] ?]; simpl; try done.
  intros _ _. apply str_lt_asym.
Qed.

Lemma item_lt_total x y :
  is_KStr x.1 -> is_KStr y.1 -> x.1 ≠ y.1 -> key_ltb y.1 x.1 = false -> item_lt x y.
Proof.
  unfold item_lt, key_ltb.
  destruct x as [[] ?], y as [[] ?]; simpl; try done.
  intros _ _ Hne Hlt. apply str_lt_total; [congruence|done].
Qed.

Lemma insert_item_sorted x l :
  is_KStr x.1 -> str_keyed l -> x.1 ∉ l.*1 ->
  StronglySorted item_lt l -> StronglySorted item_lt (insert_item x l).
Proof.
  intros Hx Hl Hnotin Hsorted.
  induction Hsorted as [|y l Hsorted IH Hy]; simpl.
  { repeat constructor. }
  apply Forall_cons in Hl as [Hystr Hl].
  rewrite fmap_cons, not_elem_of_cons in Hnotin. destruct Hnotin as [Hne Hnotin].
  destruct (key_ltb y.1 x.1) eqn:Hyx.
  - constructor; [by apply IH|].
    rewrite insert_item_Permutation. constructor; [by unfold item_lt; rewrite Hyx|done].
  - assert (item_lt x y) as Hxy by by apply item_lt_total.
    constructor; [by constructor|].
    constructor; [done|].
    rewrite Forall_forall in Hy, Hl |- *. intros z Hz.
    apply item_lt_trans with y; auto.
Qed.

Lemma sort_items_sorted l :
  str_keyed l -> NoDup l.*1 -> StronglySorted item_lt (sort_items l).
Proof.
  induction l as [|x l IH]; simpl; intros Hl Hnodup; [constructor|].
  apply Forall_cons in Hl as [Hx Hl]. apply NoDup_cons in Hnodup as [Hnotin Hnodup].
  apply insert_item_sorted; [done| | |by apply IH].
  - unfold str_keyed. by rewrite sort_items_Permutation.
  - by rewrite sort_items_Permutation.
Qed.


Lemma comparable_str_keys l : str_keyed l -> comparable_keys l.*1 = true.
Proof.
  induction 1 as [|x l Hx Hl IH]; [done|].
  rewrite fmap_cons. simpl. rewrite IH, andb_true_r. apply forallb_forall. intros k Hk.
  apply list_elem_of_In, list_elem_of_fmap in Hk as (y & -> & Hy).
  unfold str_keyed in Hl. rewrite Forall_forall in Hl. specialize (Hl y Hy).
  destruct x as [[] ?], y as [[] ?]; simpl in *; done.
Qed.

Lemma sorted_items_str_keyed l : str_keyed l -> sorted_items l = Ret (sort_items l).
Proof. intros Hl. unfold sorted_items. by rewrite comparable_str_keys. Qed.
End sort_items_facts.

(** ** The encoder on Documents *)

Section encoder_facts.
Variable float_repr : spec_float -> string.

Lemma is_document_list l : is_document (PyList l) -> Forall (fun o => is_document o) l.
Proof.
  simpl. intros H. apply Forall_forall. intros o Ho.
  apply Is_true_true. apply Is_true_true in H.
  rewrite forallb_forall in H. by apply H, list_elem_of_In.
Qed.

Lemma is_document_dict items :
  is_document (PyDict items) ->
  Forall (fun kv => is_KStr kv.1 ∧ is_document kv.2) items ∧ NoDup items.*1.
Proof.
  simpl. intros H. apply andb_True in H as [H1 H2]. split.
  - apply Forall_forall. intros kv Hkv. apply Is_true_true in H1.
    rewrite forallb_forall in H1. apply list_elem_of_In, H1, andb_true_iff in Hkv.
    by rewrite <-!Is_true_true in Hkv.
  - by apply bool_decide_unpack in H2.
Qed.

Lemma iterencode_list_nonempty l level :
  l ≠ [] ->
  _iterencode float_repr (PyList l) level
  = _iterencode_list (map (fun value => _iterencode float_repr value (S level)) l) level.
Proof. by destruct l. Qed.

Lemma iterencode_dict_nonempty items level :
  items ≠ [] ->
  _iterencode float_repr (PyDict items) level
  = _iterencode_dict (map (fun kv => (kv.1, _iterencode float_repr kv.2 (S level))) items) level.
Proof. by destruct items. Qed.


Lemma encoded_items_keys (f : pyval -> result string) (items : list (pykey * pyval)) :
  (map (fun kv => (kv.1, f kv.2)) items).*1 = items.*1.
Proof.
  induction items as [|kv items IH]; [done|].
  change (kv.1 :: (map (fun kv => (kv.1, f kv.2)) items).*1 = kv.1 :: items.*1).
  by rewrite IH.
Qed.

End encoder_facts.

(** ** The canonical text of the specification *)

(** A fixed indentation of 4 spaces per nesting level. *)
Definition indentation (level : nat) : string := str_mul " " (4 * level).

(** The members of a mapping are ordered by their keys, in ascending
    lexicographic order. *)
Definition member_le (x y : string * string) : Prop := String.leb x.1 y.1.

#[global] Instance member_le_dec : RelDecision member_le.
Proof. intros x y. unfold member_le. apply _. Defined.

Definition key_text (k : pykey) : string :=
  match k with
  | KStr s => s
  | _ => ""
  end.

Section canonical.
Variable float_repr : spec_float -> string.

(** The text of a Document as the specification describes it: mappings with
    their keys sorted in ascending lexicographic order, sequences in their
    original order, an indentation of 4 spaces per nesting level, and the
    literals of null, the booleans, the numbers and the strings. *)
Fixpoint canonical (level : nat) (D : pyval) : string :=
  match D with
  | PyNone => "null"
  | PyBool true => "true"
  | PyBool false => "false"
  | PyInt n => pretty n
  | PyFloat x => floatstr float_repr x
  | PyStr s => py_encode_basestring_ascii s
  | PyList [] => "[]"
  | PyList l =>
      let inner := NL +:+ indentation (S level) in
      "[" +:+ inner +:+ str_join ("," +:+ inner) (map (canonical (S level)) l)
      +:+ NL +:+ indentation level +:+ "]"
  | PyDict [] => "{}"
  | PyDict items =>
      let inner := NL +:+ indentation (S level) in
      let members :=
        merge_sort member_le
          (map (fun kv => (key_text kv.1, canonical (S level) kv.2)) items) in
      "{" +:+ inner
      +:+ str_join ("," +:+ inner)
            (map (fun m => py_encode_basestring_ascii m.1 +:+ ": " +:+ m.2) members)
      +:+ NL +:+ indentation level +:+ "}"
  | PyDate _ => ""
  end.
End canonical.

Lemma str_app_assoc (s1 s2 s3 : string) : (s1 +:+ s2) +:+ s3 = s1 +:+ s2 +:+ s3.
Proof.
  induction s1 as [|c s1 IH]; [done|].
  change (String c ((s1 +:+ s2) +:+ s3) = String c (s1 +:+ s2 +:+ s3)).
  by rewrite IH.
Qed.

Lemma str_mul_add s n m : str_mul s (n + m) = str_mul s n +:+ str_mul s m.
Proof.
  induction n as [|n IH]; simpl; [done|].
  by rewrite IH, str_app_assoc.
Qed.

Lemma indent_indentation level : str_mul _indent level = indentation level.
Proof.
  unfold indentation. induction level as [|level IH]; [done|].
  replace (4 * S level) with (4 + 4 * level) by lia.
  by rewrite str_mul_add, <-IH.
Qed.

Lemma newline_indent_indentation level : newline_indent level = NL +:+ indentation level.
Proof. unfold newline_indent. by rewrite indent_indentation. Qed.

#[global] Instance member_le_trans : Transitive member_le.
Proof.
  intros x y z. unfold member_le, String.leb.
  destruct (String.compare x.1 y.1) eqn:Exy; try done;
    destruct (String.compare y.1 z.1) eqn:Eyz; try done; intros _ _.
  - apply String.compare_eq_iff in Exy as ->. by rewrite Eyz.
  - apply String.compare_eq_iff in Exy as ->. by rewrite Eyz.
  - apply String.compare_eq_iff in Eyz as <-. by rewrite Exy.
  - by rewrite (str_compare_trans _ _ _ Exy Eyz).
Qed.

#[global] Instance member_le_total : Total member_le.
Proof.
  intros x y. unfold member_le.
  destruct (String.leb_total x.1 y.1) as [->| ->]; [by left|by right].
Qed.

(** A member of the canonical text as an item of the encoder. *)
Definition member_item (m : string * string) : pykey * result string :=
  (KStr m.1, Ret m.2).

Lemma members_sorted (l : list (string * string)) :
  NoDup l.*1 -> sort_items (map member_item l) = map member_item (merge_sort member_le l).
Proof.
  intros Hnodup.
  assert (forall k : list (string * string), str_keyed (map member_item k)) as Hkeyed.
  { intros k. unfold str_keyed. rewrite Forall_fmap. by apply Forall_true. }
  assert (forall k : list (string * string), NoDup k.*1 -> NoDup (map member_item k).*1) as Hnd.
  { intros k Hk. replace ((map member_item k).*1) with (KStr <$> k.*1).
    - apply NoDup_fmap_2; [|done]. by intros ?? [=].
    - clear. induction k as [|m k IH]; [done|].
      change (KStr m.1 :: (KStr <$> k.*1) = KStr m.1 :: (map member_item k).*1).
      by rewrite IH. }
  apply (StronglySorted_unique_strong item_lt).
  - intros x y Hx Hy Hxy Hyx. exfalso.
    rewrite sort_items_Permutation in Hx.
    pose proof (Hkeyed l) as H1. pose proof (Hkeyed (merge_sort member_le l)) as H2.
    unfold str_keyed in H1, H2. rewrite Forall_forall in H1, H2.
    apply (item_lt_asym x y); auto.
  - apply sort_items_sorted; auto.
  - pose proof (StronglySorted_merge_sort member_le l) as Hsorted.
    assert (NoDup (merge_sort member_le l).*1) as Hnodup'.
    { by rewrite merge_sort_Permutation. }
    induction Hsorted as [|m k Hsorted IH Hm]; [constructor|].
    rewrite fmap_cons in Hnodup'. apply NoDup_cons in Hnodup' as [Hnotin Hnodup'].
    constructor; [by apply IH|].
    apply Forall_fmap, Forall_forall. intros m' Hm'.
    rewrite Forall_forall in Hm. specialize (Hm m' Hm').
    unfold member_le, String.leb in Hm.
    unfold item_lt, key_ltb, member_item. simpl. unfold str_lt, String.ltb.
    destruct (String.compare m.1 m'.1) eqn:E; try done.
    apply String.compare_eq_iff in E. destruct Hnotin. rewrite E.
    by apply list_elem_of_fmap_2.
  - rewrite sort_items_Permutation. apply Permutation_map.
    by rewrite merge_sort_Permutation.
Qed.

Lemma rbind_Ret {A B} (x : A) (k : A -> result B) : (Ret x ≫= k) = k x.
Proof. done. Qed.

Lemma rsequence_Ret {A} (l : list A) : rsequence (map Ret l) = Ret l.
Proof. induction l as [|x l IH]; simpl; [done|]. by rewrite IH. Qed.

Lemma encode_member_items (l : list (string * string)) :
  rsequence (map encode_item (map member_item l))
  = Ret (map (fun m => py_encode_basestring_ascii m.1 +:+ ": " +:+ m.2) l).
Proof. induction l as [|m l IH]; simpl; [done|]. by rewrite IH. Qed.

Section canonical_facts.
Variable float_repr : spec_float -> string.

Lemma canonical_list_nonempty l level :
  l ≠ [] ->
  canonical float_repr level (PyList l)
  = "[" +:+ (NL +:+ indentation (S level))
    +:+ str_join ("," +:+ NL +:+ indentation (S level))
          (map (canonical float_repr (S level)) l)
    +:+ NL +:+ indentation level +:+ "]".
Proof. by destruct l. Qed.

Lemma canonical_dict_nonempty items level :
  items ≠ [] ->
  canonical float_repr level (PyDict items)
  = "{" +:+ (NL +:+ indentation (S level))
    +:+ str_join ("," +:+ NL +:+ indentation (S level))
          (map (fun m => py_encode_basestring_ascii m.1 +:+ ": " +:+ m.2)
             (merge_sort member_le
                (map (fun kv => (key_text kv.1, canonical float_repr (S level) kv.2)) items)))
    +:+ NL +:+ indentation level +:+ "}".
Proof. by destruct items. Qed.

(** The encoder never raises on a Document, and its text is the canonical
    text of the specification. *)
Lemma iterencode_canonical D :
  forall level, is_document D ->
  _iterencode float_repr D level = Ret (canonical float_repr level D).
Proof.
  induction D as [|[]| | | |l IH|items IH|] using pyval_ind; intros level Hdoc; try done.
  - (* lists *)
    apply is_document_list in Hdoc.
    assert (map (fun value => _iterencode float_repr value (S level)) l
            = map Ret (map (canonical float_repr (S level)) l)) as Hmap.
    { induction l as [|o l IHl]; [done|].
      apply Forall_cons in IH as [IHo IH]. apply Forall_cons in Hdoc as [Hdo Hdoc].
      simpl. f_equal; eauto. }
    destruct l as [|o l]; [done|].
    rewrite iterencode_list_nonempty, canonical_list_nonempty, Hmap by done.
    unfold _iterencode_list. rewrite rsequence_Ret, rbind_Ret.
    by rewrite !newline_indent_indentation.
  - (* mappings *)
    apply is_document_dict in Hdoc as [Hdoc Hnodup].
    set (members := map (fun kv => (key_text kv.1, canonical float_repr (S level) kv.2)) items).
    assert (map (fun kv => (kv.1, _iterencode float_repr kv.2 (S level))) items
            = map member_item members) as Hmap.
    { subst members. clear Hnodup. induction items as [|kv items IHi]; [done|].
      apply Forall_cons in IH as [IHkv IH]. apply Forall_cons in Hdoc as [[Hk Hd] Hdoc].
      simpl. f_equal; [|by apply IHi].
      unfold member_item. simpl. rewrite IHkv by done.
      by destruct kv as [[] ?]. }
    assert (NoDup members.*1) as Hnodup'.
    { replace (members.*1) with (key_text <$> items.*1).
      - apply NoDup_fmap_2_strong; [|done].
        intros k1 k2 Hk1 Hk2 Heq.
        apply list_elem_of_fmap in Hk1 as (kv1 & -> & Hkv1).
        apply list_elem_of_fmap in Hk2 as (kv2 & -> & Hkv2).
        rewrite Forall_forall in Hdoc.
        destruct (Hdoc kv1 Hkv1) as [H1 _], (Hdoc kv2 Hkv2) as [H2 _].
        destruct kv1 as [[] ?], kv2 as [[] ?]; simpl in *; try done. by subst.
      - subst members. clear. induction items as [|kv items IH]; [done|].
        change (key_text kv.1 :: (key_text <$> items.*1)
                = key_text kv.1
                  :: (map (fun kv => (key_text kv.1, canonical float_repr (S level) kv.2))
                          items).*1).
        by rewrite IH. }
    destruct items as [|kv items]; [done|].
    rewrite iterencode_dict_nonempty, canonical_dict_nonempty, Hmap by done.
    unfold _iterencode_dict.
    rewrite sorted_items_str_keyed
      by (unfold str_keyed; rewrite Forall_fmap; by apply Forall_true).
    rewrite rbind_Ret, members_sorted by done.
    rewrite encode_member_items, rbind_Ret.
    by rewrite !newline_indent_indentation.
Qed.
End canonical_facts.

(** ** The index [b2j] *)

(** The places of [x] in [b], in increasing order. *)
Definition occurrences (x : string) (b : list string) : list nat :=
  filter (fun j => b !! j = Some x) (seq 0 (length b)).

(** The popular elements of [b], which [__chain_b] takes out of [b2j]. *)
Definition popular (b : list string) (x : string) : Prop :=
  200 ≤ length b ∧ length b `div` 100 + 1 < length (occurrences x b).

Lemma filter_ext_Forall {A} (P Q : A -> Prop)
    `{!forall x, Decision (P x), !forall x, Decision (Q x)} (l : list A) :
  Forall (fun x => P x ↔ Q x) l -> filter P l = filter Q l.
Proof.
  induction 1 as [|x l Hx Hl IH]; [done|].
  rewrite !filter_cons, IH. destruct (decide (P x)), (decide (Q x)); tauto.
Qed.


Lemma filter_StronglySorted {A} (R : relation A) (P : A -> Prop)
    `{!forall x, Decision (P x)} (l : list A) :
  StronglySorted R l -> StronglySorted R (filter P l).
Proof.
  induction 1 as [|x l Hl IH Hx]; [constructor|].
  rewrite filter_cons. destruct (decide (P x)); [|done].
  constructor; [done|].
  rewrite Forall_forall in Hx |- *. intros y [_ Hy]%list_elem_of_filter. auto.
Qed.

Lemma seq_sorted s n : StronglySorted lt (seq s n).
Proof.
  revert s. induction n as [|n IH]; intros s; simpl; constructor; [done|].
  apply Forall_forall. intros j Hj%elem_of_seq. lia.
Qed.

Lemma elem_of_occurrences x b j : j ∈ occurrences x b ↔ b !! j = Some x.
Proof.
  unfold occurrences. rewrite list_elem_of_filter, elem_of_seq. split; [by intros []|].
  intros Hj. split; [done|]. apply lookup_lt_Some in Hj. lia.
Qed.

Lemma occurrences_snoc x b y :
  occurrences x (b ++ [y])
  = occurrences x b ++ (if decide (x = y) then [length b] else []).
Proof.
  unfold occurrences. rewrite length_app. simpl.
  rewrite seq_app, filter_app. simpl. f_equal.
  - apply filter_ext_Forall, Forall_forall. intros j Hj%elem_of_seq.
    by rewrite lookup_app_l by lia.
  - rewrite filter_cons, filter_nil.
    rewrite list_lookup_middle by done.
    destruct (decide (x = y)) as [->|Hne]; [by rewrite decide_True|].
    rewrite decide_False; [done|]. by intros [=].
Qed.

Lemma occurrences_sorted x b : StronglySorted lt (occurrences x b).
Proof.
  unfold occurrences. apply filter_StronglySorted, seq_sorted.
Qed.

Lemma b2j_build_snoc b y :
  b2j_build (b ++ [y])
  = <[y := default [] (b2j_build b !! y) ++ [length b]]> (b2j_build b).
Proof.
  unfold b2j_build. rewrite imap_app, foldl_app. simpl.
  by rewrite Nat.add_0_r.
Qed.

Lemma b2j_build_lookup b x :
  b2j_build b !! x = match occurrences x b with [] => None | js => Some js end.
Proof.
  induction b as [|y b IH] using rev_ind; [done|].
  rewrite b2j_build_snoc, occurrences_snoc.
  destruct (decide (x = y)) as [->|Hne].
  - rewrite lookup_insert_eq, IH.
    by destruct (occurrences y b).
  - rewrite lookup_insert_ne by done. by rewrite IH, app_nil_r.
Qed.

(** [b2j.get(x, [])]: the places of [x] in [b], unless [x] is popular. *)
Lemma b2j_lookup b x :
  default [] (b2j b !! x) = if decide (popular b x) then [] else occurrences x b.
Proof.
  unfold b2j, popular.
  destruct (decide (200 ≤ length b)) as [Hlong|Hshort].
  - destruct (b2j_build b !! x) as [js|] eqn:Hjs.
    + assert (occurrences x b = js) as ->.
      { rewrite b2j_build_lookup in Hjs. by destruct (occurrences x b); simplify_eq. }
      destruct (decide (length b `div` 100 + 1 < length js)) as [Hpop|Hnot].
      * rewrite decide_True by done.
        rewrite map_lookup_filter_None_2; [done|]. right.
        intros js' ?; simplify_eq/=. tauto.
      * rewrite decide_False by tauto.
        by erewrite map_lookup_filter_Some_2.
    + rewrite map_lookup_filter_None_2 by by left.
      rewrite b2j_build_lookup in Hjs. destruct (occurrences x b); [|done].
      by destruct (decide _).
  - rewrite decide_False by tauto.
    rewrite b2j_build_lookup. by destruct (occurrences x b).
Qed.

Lemma indices_of_spec a b i :
  indices_of a b i
  = match a !! i with
    | Some x => if decide (popular b x) then [] else occurrences x b
    | None => []
    end.
Proof. unfold indices_of. destruct (a !! i); [apply b2j_lookup|done]. Qed.

Lemma indices_of_sorted a b i : StronglySorted lt (indices_of a b i).
Proof.
  rewrite indices_of_spec. destruct (a !! i); [|constructor].
  destruct (decide _); [constructor|apply occurrences_sorted].
Qed.

Lemma elem_of_indices_of a b i j :
  j ∈ indices_of a b i -> is_Some (a !! i) ∧ b !! j = a !! i.
Proof.
  rewrite indices_of_spec. destruct (a !! i) as [x|]; [|by intros ?%elem_of_nil].
  destruct (decide _); [by intros ?%elem_of_nil|].
  intros ?%elem_of_occurrences. eauto.
Qed.

(** ** The rows of [find_longest_match] *)

(** One round of the inner loop for a [j] between [blo] and [bhi]. *)
Definition row_step (i : nat) (j2len : gmap nat nat)
    (st : gmap nat nat * Match) (j : nat) : gmap nat nat * Match :=
  let k := j2lenget j2len j + 1 in
  (<[j := k]> st.1, if decide (st.2.2 < k) then (i + 1 - k, j + 1 - k, k) else st.2).

(** The indices are in increasing order, so the inner loop is a loop over
    the indices between [blo] and [bhi]. *)
Lemma scan_row_foldl i blo bhi j2len js newj2len best :
  StronglySorted lt js ->
  scan_row i blo bhi j2len js newj2len best
  = foldl (row_step i j2len) (newj2len, best) (filter (fun j => blo ≤ j < bhi) js).
Proof.
  intros Hsorted. revert newj2len best.
  induction Hsorted as [|j js Hsorted IH Hj]; intros newj2len best; [done|].
  simpl. rewrite filter_cons.
  destruct (decide (j < blo)) as [Hlow|Hlow].
  { rewrite decide_False by lia. apply IH. }
  destruct (decide (bhi ≤ j)) as [Hhigh|Hhigh].
  { rewrite decide_False by lia.
    replace (filter (fun j => blo ≤ j < bhi) js) with (@nil nat); [done|].
    symmetry. apply elem_of_nil_inv. intros j' [Hin Hj']%list_elem_of_filter.
    rewrite Forall_forall in Hj. specialize (Hj j' Hj'). lia. }
  rewrite (decide_True (P := blo ≤ j < bhi)) by lia. simpl. unfold row_step at 2. simpl.
  destruct (decide (best.2 < j2lenget j2len j + 1)); apply IH.
Qed.

(** ** Matching a sequence against itself *)

Section identical.
Variable l : list string.














End identical.

(** ** The diff of a sequence with itself *)











(** ** The steps of [main] *)

Section main_facts.
Variable float_repr : spec_float -> string.
Variable json_load : string -> result pyval.
Variable yaml_safe_load : string -> result pyval.
Variable validate : pyval -> pyval -> result unit.

(** The text [content] parses to the value [v] under the type [config_type]. *)
Definition parses (config_type content : string) (v : pyval) : Prop :=
  (config_type = "json" ∧ json_load content = Ret v)
  ∨ (config_type = "yaml" ∧ yaml_safe_load content = Ret v).

Lemma load_config_parses file_path config_type content v w :
  files w !! file_path = Some (Readable content) ->
  parses config_type content v ->
  load_config json_load yaml_safe_load file_path config_type w = (w, Ret v).
Proof.
  intros Hfile [[-> Hv]|[-> Hv]];
    unfold load_config, try_except, open_r, lift, mbind, M_bind; rewrite Hfile; simpl;
    by rewrite Hv.
Qed.

(** What [main] does once both files are loaded and the schema, if any, is
    passed: the diff, its output, and the last record of the log. *)
Definition main_report (args : Args) (config1 config2 : pyval) : M unit :=
  diff ← lift (diff_configs float_repr config1 config2);
  (match diff with
   | [] => logging INFO "Configurations are identical."
   | _ =>
       if truthy (output args) then write_diff diff (default "" (output args))
       else print_lines diff
   end);;
  logging INFO "Configuration comparison completed.".

(** The schema, if one is given, is a JSON file that both Documents
    satisfy. *)
Definition schema_passes (args : Args) (config1 config2 : pyval) (w : world) : Prop :=
  truthy (schema args) = false
  ∨ exists content schema_doc,
      files w !! default "" (schema args) = Some (Readable content)
      ∧ json_load content = Ret schema_doc
      ∧ validate config1 schema_doc = Ret tt ∧ validate config2 schema_doc = Ret tt.

(** The world after the two validations: with a schema, two records more in
    the log. *)
Definition validated (args : Args) (w : world) : world :=
  if truthy (schema args) then
    add_log (INFO, "Configuration file is valid against the schema.")
      (add_log (INFO, "Configuration file is valid against the schema.") w)
  else w.


Lemma validate_config_passes config_data schema_path content schema_doc w :
  truthy schema_path = true ->
  files w !! default "" schema_path = Some (Readable content) ->
  json_load content = Ret schema_doc ->
  validate config_data schema_doc = Ret tt ->
  validate_config json_load validate config_data schema_path w
  = (add_log (INFO, "Configuration file is valid against the schema.") w, Ret true).
Proof.
  intros Htruthy Hfile Hload Hvalid.
  unfold validate_config. rewrite Htruthy. simpl negb. cbv iota.
  unfold try_except, open_r, lift, mbind, M_bind. simpl.
  by rewrite Hfile, Hload, Hvalid.
Qed.

Lemma main_loaded args content1 content2 config1 config2 w :
  files w !! file1 args = Some (Readable content1) ->
  files w !! file2 args = Some (Readable content2) ->
  parses (type args) content1 config1 ->
  parses (type args) content2 config2 ->
  config1 ≠ PyNone -> config2 ≠ PyNone ->
  schema_passes args config1 config2 w ->
  main float_repr json_load yaml_safe_load validate args w
  = main_report args config1 config2 (validated args w).
Proof.
  intros Hf1 Hf2 Hp1 Hp2 Hn1 Hn2 Hschema.
  unfold main, main_report.
  unfold mbind at 1, M_bind at 1, os_path_exists at 1. rewrite Hf1.
  rewrite bool_decide_eq_true_2 by eauto. simpl negb. cbv iota.
  unfold mbind at 1, M_bind at 1, mret at 1, M_ret at 1.
  unfold mbind at 1, M_bind at 1, os_path_exists at 1. rewrite Hf2.
  rewrite bool_decide_eq_true_2 by eauto. simpl negb. cbv iota.
  unfold mbind at 1, M_bind at 1, mret at 1, M_ret at 1.
  unfold mbind at 1, M_bind at 1, try_except at 1.
  unfold mbind at 1, M_bind at 1.
  rewrite (load_config_parses _ _ _ _ _ Hf1 Hp1).
  unfold mbind at 1, M_bind at 1.
  rewrite (load_config_parses _ _ _ _ _ Hf2 Hp2).
  unfold mret at 1, M_ret at 1.
  unfold mbind at 1, M_bind at 1.
  assert ((match config1 with
           | PyNone => sys_exit 1
           | _ => match config2 with PyNone => sys_exit 1 | _ => mret () end
           end : M unit) w = (w, Ret ())) as ->.
  { by destruct config1, config2. }
  unfold mbind at 1, M_bind at 1. unfold validated.
  destruct (truthy (schema args)) eqn:Htruthy.
  - destruct Hschema as [?|(content & schema_doc & Hfile & Hload & Hv1 & Hv2)];
      [congruence|].
    unfold mbind at 1, M_bind at 1.
    rewrite (validate_config_passes config1 _ content schema_doc) by done.
    change (negb true) with false. cbv beta iota.
    unfold mbind at 1, M_bind at 1. cbv beta.
    rewrite (validate_config_passes config2 _ content schema_doc) by done.
    done.
  - done.
Qed.
End main_facts.

(** ** The blocks of [find_longest_match] *)

Section matcher_facts.
Variables a b : list string.

(** [a[i:i+k] == b[j:j+k]], within the two lists. *)
Definition matches (i j k : nat) : Prop :=
  forall d, d < k -> same_elt a b (i + d) (j + d) = true.

(** A matching block inside [a[alo:ahi]] and [b[blo:bhi]]. *)
Definition block_ok (alo ahi blo bhi : nat) (m : Match) : Prop :=
  alo ≤ m.1.1 ∧ m.1.1 + m.2 ≤ ahi ∧ blo ≤ m.1.2 ∧ m.1.2 + m.2 ≤ bhi
  ∧ matches m.1.1 m.1.2 m.2.

(** The state before the row [i]: every length of the row before is the
    length of a block that ends there, and the best block is a block of the
    rows so far. *)
Definition rows_inv (alo blo bhi i : nat) (st : gmap nat nat * Match) : Prop :=
  (forall j k, st.1 !! j = Some k ->
     1 ≤ k ∧ k + alo ≤ i ∧ k + blo ≤ j + 1 ∧ j < bhi ∧ matches (i - k) (j + 1 - k) k)
  ∧ block_ok alo i blo bhi st.2.

Lemma matches_snoc i j k :
  matches i j k -> same_elt a b (i + k) (j + k) = true -> matches i j (k + 1).
Proof.
  intros Hm Hs d Hd. destruct (decide (d = k)) as [->|]; [done|]. apply Hm. lia.
Qed.

Lemma same_elt_indices i j : j ∈ indices_of a b i -> same_elt a b i j = true.
Proof.
  intros [[x Hx] Hj]%elem_of_indices_of. unfold same_elt. rewrite Hj, Hx.
  by apply bool_decide_eq_true.
Qed.

Lemma row_step_inv alo blo bhi i j2len :
  alo ≤ i ->
  (forall j k, j2len !! j = Some k ->
     1 ≤ k ∧ k + alo ≤ i ∧ k + blo ≤ j + 1 ∧ j < bhi ∧ matches (i - k) (j + 1 - k) k) ->
  forall js st,
    Forall (fun j => blo ≤ j < bhi ∧ same_elt a b i j = true) js ->
    rows_inv alo blo bhi (S i) st ->
    rows_inv alo blo bhi (S i) (foldl (row_step i j2len) st js).
Proof.
  intros Hi Hprev. induction js as [|j js IH]; intros st Hjs Hinv; [done|].
  apply Forall_cons in Hjs as [[Hj Hsame] Hjs].
  simpl. apply IH; [done|]. clear IH Hjs.
  destruct st as [newj2len best]. destruct Hinv as [Hentries Hbest].
  assert (j2lenget j2len j + alo ≤ i ∧ j2lenget j2len j + blo ≤ j
          ∧ matches (i - j2lenget j2len j) (j - j2lenget j2len j) (j2lenget j2len j))
    as (Hp1 & Hp2 & Hp3).
  { destruct j as [|j']; simpl.
    { split_and!; [lia..|]. intros d Hd. lia. }
    destruct (j2len !! j') as [k'|] eqn:Hk'; simpl.
    - destruct (Hprev _ _ Hk') as (? & ? & ? & ? & Hm).
      split_and!; [lia..|]. by replace (S j' - k') with (j' + 1 - k') by lia.
    - split_and!; [lia..|]. intros d Hd. lia. }
  set (p := j2lenget j2len j) in *.
  assert (matches (S i - (p + 1)) (j + 1 - (p + 1)) (p + 1)) as Hblock.
  { replace (S i - (p + 1)) with (i - p) by lia.
    replace (j + 1 - (p + 1)) with (j - p) by lia.
    apply matches_snoc; [done|].
    replace (i - p + p) with i by lia. by replace (j - p + p) with j by lia. }
  unfold row_step, rows_inv; simpl. split.
  - intros j' k. rewrite lookup_insert. case_decide; [subst j'|by apply Hentries].
    intros [= <-]. split_and!; [lia..|done].
  - case_decide; [|done].
    unfold block_ok; simpl. fold p.
    replace (i + 1 - (p + 1)) with (S i - (p + 1)) by lia.
    split_and!; [lia..|done].
Qed.

Lemma scan_row_inv alo blo bhi i st :
  alo ≤ i -> rows_inv alo blo bhi i st ->
  rows_inv alo blo bhi (S i) (scan_row i blo bhi st.1 (indices_of a b i) ∅ st.2).
Proof.
  intros Hi [Hentries Hbest].
  rewrite scan_row_foldl by apply indices_of_sorted.
  apply (row_step_inv alo blo bhi i st.1 Hi Hentries).
  - apply Forall_forall. intros j [Hin Hj]%list_elem_of_filter.
    split; [done|]. by apply same_elt_indices.
  - split; [simpl; by intros ?? ?%lookup_empty_Some|].
    destruct Hbest as (? & ? & ? & ? & ?). unfold block_ok; simpl. split_and!; [lia..|done].
Qed.

Lemma scan_rows_ok alo ahi blo bhi :
  alo ≤ ahi -> blo ≤ bhi -> block_ok alo ahi blo bhi (scan_rows a b alo ahi blo bhi).2.
Proof.
  intros Ha Hb. unfold scan_rows.
  assert (forall m i st, alo ≤ i -> rows_inv alo blo bhi i st ->
            rows_inv alo blo bhi (i + m)
              (foldl (fun st i => scan_row i blo bhi st.1 (indices_of a b i) ∅ st.2)
                     st (seq i m))) as Hrows.
  { induction m as [|m IH]; intros i st Hi Hinv; simpl.
    - by rewrite Nat.add_0_r.
    - replace (i + S m) with (S i + m) by lia. apply IH; [lia|]. by apply scan_row_inv. }
  destruct (Hrows (ahi - alo) alo (∅, (alo, blo, 0))) as [_ Hbest]; [done| |].
  - split; [simpl; by intros ?? ?%lookup_empty_Some|].
    unfold block_ok; simpl. split_and!; [lia..|]. intros d Hd. lia.
  - by replace (alo + (ahi - alo)) with ahi in Hbest by lia.
Qed.

Lemma matches_cons i j k :
  same_elt a b i j = true -> matches (S i) (S j) k -> matches i j (S k).
Proof.
  intros Hs Hm [|d] Hd.
  - by rewrite !Nat.add_0_r.
  - replace (i + S d) with (S i + d) by lia. replace (j + S d) with (S j + d) by lia.
    apply Hm. lia.
Qed.

Lemma extend_down_ok junk alo ahi blo bhi besti bestj bestsize :
  block_ok alo ahi blo bhi (besti, bestj, bestsize) ->
  block_ok alo ahi blo bhi (extend_down a b junk alo blo besti bestj bestsize).
Proof.
  revert bestj bestsize.
  induction besti as [|i' IH]; intros bestj bestsize Hok; [done|].
  destruct bestj as [|j']; [done|]. simpl.
  destruct (bool_decide (alo < S i')) eqn:H1; [|done].
  destruct (bool_decide (blo < S j')) eqn:H2; [|done].
  destruct (bool_decide (isbjunk b j' = junk)); [|done].
  destruct (same_elt a b i' j') eqn:H4; [|done]. simpl.
  apply bool_decide_eq_true in H1, H2.
  apply IH. destruct Hok as (? & ? & ? & ? & Hm). unfold block_ok in *; simpl in *.
  split_and!; [lia..|]. by apply matches_cons.
Qed.

Lemma extend_up_ok junk rounds alo ahi blo bhi besti bestj bestsize :
  block_ok alo ahi blo bhi (besti, bestj, bestsize) ->
  block_ok alo ahi blo bhi (extend_up a b junk rounds ahi bhi besti bestj bestsize).
Proof.
  revert bestsize. induction rounds as [|rounds IH]; intros bestsize Hok; [done|]. simpl.
  destruct (bool_decide (besti + bestsize < ahi)) eqn:H1; [|done].
  destruct (bool_decide (bestj + bestsize < bhi)) eqn:H2; [|done].
  destruct (bool_decide (isbjunk b (bestj + bestsize) = junk)); [|done].
  destruct (same_elt a b (besti + bestsize) (bestj + bestsize)) eqn:H4; [|done]. simpl.
  apply bool_decide_eq_true in H1, H2.
  apply IH. destruct Hok as (? & ? & ? & ? & Hm). unfold block_ok in *; simpl in *.
  split_and!; [lia..|]. replace (S bestsize) with (bestsize + 1) by lia.
  by apply matches_snoc.
Qed.

Lemma extend_ok junk alo ahi blo bhi best :
  block_ok alo ahi blo bhi best -> block_ok alo ahi blo bhi (extend a b junk alo ahi blo bhi best).
Proof.
  destruct best as [[besti bestj] bestsize]. intros Hok. unfold extend. simpl.
  pose proof (extend_down_ok junk alo ahi blo bhi besti bestj bestsize Hok) as Hdown.
  destruct (extend_down a b junk alo blo besti bestj bestsize) as [[i j] k].
  by apply extend_up_ok.
Qed.

(** The block that [find_longest_match] returns is a matching block inside
    the two ranges. *)
Lemma find_longest_match_ok alo ahi blo bhi :
  alo ≤ ahi -> blo ≤ bhi ->
  block_ok alo ahi blo bhi (find_longest_match a b alo ahi blo bhi).
Proof.
  intros Ha Hb. unfold find_longest_match. by apply extend_ok, extend_ok, scan_rows_ok.
Qed.
End matcher_facts.

(** ** The loop of [get_matching_blocks] *)

(** A range of the queue, [(alo, ahi, blo, bhi)]. *)
Definition region : Type := nat * nat * nat * nat.

Definition block_region (m : Match) : region := (m.1.1, m.1.1 + m.2, m.1.2, m.1.2 + m.2).

(** The first range ends, in [a] and in [b], where the second starts or
    before. *)
Definition before (r1 r2 : region) : Prop := r1.1.1.2 ≤ r2.1.1.1 ∧ r1.2 ≤ r2.1.2.

Definition apart (r1 r2 : region) : Prop := before r1 r2 ∨ before r2 r1.

Definition inside (r R : region) : Prop :=
  R.1.1.1 ≤ r.1.1.1 ∧ r.1.1.2 ≤ R.1.1.2 ∧ R.1.2 ≤ r.1.2 ∧ r.2 ≤ R.2.

Fixpoint pairwise_apart (l : list region) : Prop :=
  match l with
  | [] => True
  | r :: l' => Forall (apart r) l' ∧ pairwise_apart l'
  end.

(** The measure that every round of the loop lowers. *)
Definition weight (queue : list region) : nat :=
  sum_list (map (fun r => 2 * (r.1.1.2 - r.1.1.1) + 1) queue).

Lemma weight_cons alo ahi blo bhi queue :
  weight ((alo, ahi, blo, bhi) :: queue) = 2 * (ahi - alo) + 1 + weight queue.
Proof. done. Qed.

Lemma apart_sym r1 r2 : apart r1 r2 -> apart r2 r1.
Proof. unfold apart. tauto. Qed.

Lemma apart_inside r R x : inside r R -> apart R x -> apart r x.
Proof. unfold inside, apart, before. lia. Qed.

#[global] Instance pairwise_apart_Permutation : Proper ((≡ₚ) ==> iff) pairwise_apart.
Proof.
  assert (forall l1 l2, l1 ≡ₚ l2 -> pairwise_apart l1 -> pairwise_apart l2) as Himpl.
  { induction 1 as [|x l1 l2 Hperm IH|x y l|l1 l2 l3 H12 IH12 H23 IH23]; simpl.
    - done.
    - intros [Hx Hl]. split; [by rewrite <-Hperm|auto].
    - intros [Hy [Hx Hl]]. apply Forall_cons in Hy as [Hyx Hy].
      split_and!; [|done..]. constructor; [by apply apart_sym|done].
    - auto. }
  intros l1 l2 Hperm. split; apply Himpl; [done|by symmetry].
Qed.

#[global] Instance Match_le_trans : Transitive Match_le.
Proof. intros [[] ?] [[] ?] [[] ?]. unfold Match_le. simpl. lia. Qed.

#[global] Instance Match_le_total : Total Match_le.
Proof. intros [[] ?] [[] ?]. unfold Match_le. simpl. lia. Qed.

Section matching_blocks_facts.
Variables a b : list string.

Definition region_ok (r : region) : Prop :=
  r.1.1.1 ≤ r.1.1.2 ∧ r.1.2 ≤ r.2 ∧ r.1.1.2 ≤ length a ∧ r.2 ≤ length b.

(** A block that was found: not empty, matching, inside the two lists. *)
Definition found_ok (m : Match) : Prop :=
  0 < m.2 ∧ block_ok a b 0 (length a) 0 (length b) m.

Definition loop_inv (queue : list region) (matching_blocks : list Match) : Prop :=
  Forall region_ok queue ∧ Forall found_ok matching_blocks
  ∧ pairwise_apart (queue ++ map block_region matching_blocks).

(** The loop ends within the fuel it is given, and the blocks it ends with
    are matching blocks that lie apart from each other. *)
Lemma matching_loop_inv fuel :
  forall queue matching_blocks,
    weight queue ≤ fuel -> loop_inv queue matching_blocks ->
    exists blocks, matching_loop a b fuel queue matching_blocks = Some blocks
                   ∧ loop_inv [] blocks.
Proof.
  induction fuel as [|fuel IH]; intros queue acc Hfuel Hinv.
  { destruct queue as [|[[[alo ahi] blo] bhi] queue]; [by exists acc|].
    rewrite weight_cons in Hfuel. lia. }
  destruct queue as [|[[[alo ahi] blo] bhi] queue]; [by exists acc|].
  destruct Hinv as (Hqueue & Hacc & Hpair).
  apply Forall_cons in Hqueue as [(Ha & Hb & Hla & Hlb) Hqueue]. simpl in Ha, Hb, Hla, Hlb.
  simpl in Hpair. destruct Hpair as [HR Hpair].
  rewrite weight_cons in Hfuel.
  pose proof (find_longest_match_ok a b alo ahi blo bhi Ha Hb) as Hok.
  simpl. destruct (find_longest_match a b alo ahi blo bhi) as [[i j] k].
  destruct Hok as (Hi1 & Hi2 & Hj1 & Hj2 & Hm). simpl in Hi1, Hi2, Hj1, Hj2, Hm.
  destruct (decide (k = 0)) as [->|Hk].
  { apply IH; [lia|]. by split_and!. }
  set (R := (alo, ahi, blo, bhi) : region) in *.
  set (rest := queue ++ map block_region acc) in *.
  assert (forall r, inside r R -> Forall (apart r) rest) as Hinside.
  { intros r Hr. eapply Forall_impl; [exact HR|]. intros x. by apply apart_inside. }
  assert (pairwise_apart (block_region (i, j, k) :: rest)) as HM.
  { split; [|done]. apply Hinside. unfold inside, block_region, R; simpl. lia. }
  apply IH.
  - repeat case_decide; rewrite ?weight_cons; lia.
  - split_and!.
    + repeat case_decide; repeat constructor; simpl; try done; lia.
    + apply Forall_app. split; [done|]. constructor; [|done].
      split; [simpl; lia|]. unfold block_ok; simpl. split_and!; [lia..|done].
    + rewrite map_app. simpl map.
      assert (forall q, pairwise_apart (q ++ block_region (i, j, k) :: rest) ->
                pairwise_apart ((q ++ queue) ++ map block_region acc ++ [block_region (i, j, k)]))
        as Hmove.
      { intros q Hq. eapply pairwise_apart_Permutation; [|exact Hq].
        subst rest. rewrite <-!app_assoc, (Permutation_app_comm (map _ _) [_]).
        apply Permutation_app_head. simpl.
        by rewrite Permutation_middle. }
      assert (apart (alo, i, blo, j) (block_region (i, j, k))) as HLM.
      { left. unfold before, block_region; simpl. lia. }
      assert (apart (i + k, ahi, j + k, bhi) (block_region (i, j, k))) as HRM.
      { right. unfold before, block_region; simpl. lia. }
      assert (apart (i + k, ahi, j + k, bhi) (alo, i, blo, j)) as HRL.
      { right. unfold before; simpl. lia. }
      pose proof HM as [HMrest _].
      repeat case_decide.
      * apply (Hmove [(i + k, ahi, j + k, bhi); (alo, i, blo, j)]). simpl.
        split_and!; try done; repeat (constructor; [done|]);
          apply Hinside; unfold inside, R; simpl; lia.
      * apply (Hmove [(i + k, ahi, j + k, bhi)]). simpl.
        split_and!; try done; repeat (constructor; [done|]);
          apply Hinside; unfold inside, R; simpl; lia.
      * apply (Hmove [(alo, i, blo, j)]). simpl.
        split_and!; try done; repeat (constructor; [done|]);
          apply Hinside; unfold inside, R; simpl; lia.
      * by apply (Hmove []).
Qed.

(** The fuel of [get_matching_blocks] is enough. *)
Lemma matching_loop_fuel :
  exists blocks,
    matching_loop a b (2 * length a + 1) [(0, length a, 0, length b)] [] = Some blocks
    ∧ Forall found_ok blocks ∧ pairwise_apart (map block_region blocks).
Proof.
  destruct (matching_loop_inv (2 * length a + 1) [(0, length a, 0, length b)] [])
    as (blocks & Hloop & _ & Hfound & Hpair).
  - rewrite weight_cons. unfold weight. simpl. lia.
  - split_and!; [|done|by repeat constructor].
    constructor; [|done]. unfold region_ok; simpl. lia.
  - by exists blocks.
Qed.
End matching_blocks_facts.

(** ** From the blocks to the opcodes *)

Section opcodes_facts.
Variables a b : list string.

(** The first block ends, in [a] and in [b], where the second starts or
    before. *)
Definition precedes (x y : Match) : Prop := x.1.1 + x.2 ≤ y.1.1 ∧ x.1.2 + x.2 ≤ y.1.2.

(** A list of matching blocks, each one after the one before, that starts at
    [(i, j)] or after. *)
Fixpoint chain_from (i j : nat) (blocks : list Match) : Prop :=
  match blocks with
  | [] => True
  | m :: blocks' =>
      i ≤ m.1.1 ∧ j ≤ m.1.2 ∧ matches a b m.1.1 m.1.2 m.2
      ∧ m.1.1 + m.2 ≤ length a ∧ m.1.2 + m.2 ≤ length b
      ∧ chain_from (m.1.1 + m.2) (m.1.2 + m.2) blocks'
  end.

Lemma chain_from_le i j i' j' blocks :
  chain_from i j blocks -> i' ≤ i -> j' ≤ j -> chain_from i' j' blocks.
Proof.
  destruct blocks as [|m blocks]; [done|]. simpl.
  intros (? & ? & ? & ? & ? & ?) ??. split_and!; [lia..|done|lia|lia|done].
Qed.

Lemma sorted_precedes blocks :
  StronglySorted Match_le blocks -> Forall (found_ok a b) blocks ->
  pairwise_apart (map block_region blocks) -> StronglySorted precedes blocks.
Proof.
  induction 1 as [|x blocks Hsorted IH Hx]; intros Hfound Hpair; [constructor|].
  apply Forall_cons in Hfound as [Hfx Hfound]. simpl in Hpair. destruct Hpair as [Hax Hpair].
  constructor; [by apply IH|].
  rewrite Forall_forall in Hx, Hfound |- *. rewrite Forall_fmap, Forall_forall in Hax.
  intros y Hy. specialize (Hx y Hy). specialize (Hax y Hy). destruct (Hfound y Hy) as [Hk _].
  destruct x as [[xi xj] xk], y as [[yi yj] yk].
  unfold Match_le, precedes, apart, before, block_region in *. simpl in *. lia.
Qed.

Lemma chain_from_sorted blocks :
  StronglySorted precedes blocks -> Forall (found_ok a b) blocks ->
  forall i j, Forall (fun m => i ≤ m.1.1 ∧ j ≤ m.1.2) blocks -> chain_from i j blocks.
Proof.
  induction 1 as [|x blocks Hsorted IH Hx]; intros Hfound i j Hij; [done|].
  apply Forall_cons in Hfound as [[_ (_ & Hi & _ & Hj & Hm)] Hfound].
  apply Forall_cons in Hij as [[Hxi Hxj] Hij]. simpl in Hi, Hj.
  simpl. split_and!; [done..|]. apply IH; [done|].
  eapply Forall_impl; [exact Hx|]. by intros y [].
Qed.

Lemma matches_app i j k1 k2 :
  matches a b i j k1 -> matches a b (i + k1) (j + k1) k2 -> matches a b i j (k1 + k2).
Proof.
  intros H1 H2 d Hd. destruct (decide (d < k1)) as [Hlt|Hge]; [by apply H1|].
  replace (i + d) with (i + k1 + (d - k1)) by lia.
  replace (j + d) with (j + k1 + (d - k1)) by lia. apply H2. lia.
Qed.

Lemma collapse_chain blocks :
  forall i j i1 j1 k1,
    chain_from i j ((i1, j1, k1) :: blocks) -> chain_from i j (collapse i1 j1 k1 blocks).
Proof.
  induction blocks as [|[[i2 j2] k2] blocks IH]; intros i j i1 j1 k1 Hchain.
  { simpl. case_decide; [done|]. exact Hchain. }
  simpl in Hchain.
  destruct Hchain as (Hi & Hj & Hm1 & Ha1 & Hb1 & Hi2 & Hj2 & Hm2 & Ha2 & Hb2 & Hrest).
  simpl collapse. case_decide as Hadj.
  - destruct Hadj as [<- <-]. apply IH. simpl.
    split_and!; [done|done|by apply matches_app|lia|lia|].
    by rewrite !Nat.add_assoc.
  - assert (chain_from (i1 + k1) (j1 + k1) (collapse i2 j2 k2 blocks)) as Hnext.
    { apply IH. simpl. by split_and!. }
    case_decide as Hk; simpl.
    + subst k1. apply (chain_from_le _ _ _ _ _ Hnext); lia.
    + by split_and!.
Qed.

Lemma chain_from_sentinel blocks :
  forall i j, chain_from i j blocks -> i ≤ length a -> j ≤ length b ->
  chain_from i j (blocks ++ [(length a, length b, 0)]).
Proof.
  induction blocks as [|m blocks IH]; intros i j Hchain Hi Hj; simpl.
  { split_and!; [done..| |lia|lia|done]. intros d Hd. lia. }
  destruct Hchain as (? & ? & ? & ? & ? & ?). split_and!; [done..|]. by apply IH.
Qed.

(** The matching blocks are a chain of matching blocks from the start of
    both lists, ended by the sentinel. *)
Lemma get_matching_blocks_chain :
  chain_from 0 0 (get_matching_blocks a b)
  ∧ last (get_matching_blocks a b) = Some (length a, length b, 0).
Proof.
  unfold get_matching_blocks.
  destruct (matching_loop_fuel a b) as (blocks & -> & Hfound & Hpair). simpl default.
  split; [|by rewrite last_snoc].
  apply chain_from_sentinel; [|lia..].
  apply collapse_chain. simpl. split_and!; [done..| |lia|lia|].
  { intros d Hd. lia. }
  apply chain_from_sorted.
  - apply sorted_precedes.
    + apply StronglySorted_merge_sort; apply _.
    + by rewrite merge_sort_Permutation.
    + by rewrite merge_sort_Permutation.
  - by rewrite merge_sort_Permutation.
  - apply Forall_forall. intros m _. lia.
Qed.

Lemma matches_lookup i j k d : matches a b i j k -> d < k -> a !! (i + d) = b !! (j + d).
Proof.
  intros Hm Hd. specialize (Hm d Hd). unfold same_elt in Hm.
  destruct (a !! (i + d)), (b !! (j + d)); try done.
  by apply bool_decide_eq_true in Hm as ->.
Qed.





End opcodes_facts.

(** * The claims *)

(** A stand-in for [float.__repr__] in the examples, none of which has a
    float. *)
Definition example_repr (x : spec_float) : string := "0.0".



Section canonicalization_claims.
Variable float_repr : spec_float -> string.

Lemma json_dumps_document (D : pyval) :
  is_document D -> json_dumps float_repr D = Ret (canonical float_repr 0 D).
Proof. apply iterencode_canonical. Qed.




End canonicalization_claims.




(** ** The loader and the validator *)

(** A world with the files of the examples, and a loader given by a table:
    the texts [a: 1] and [a: 2] are mappings, [1] and [2] are integers,
    [null] is null, [2024-01-01] is a date, anything else is malformed. *)
Definition example_world : world :=
  World {[ "f1" := Readable "a: 1"; "f2" := Readable "a: 2";
           "one" := Readable "1"; "two" := Readable "2"; "null" := Readable "null";
           "date" := Readable "2024-01-01"; "bad" := Readable "{" ]}
        {[ "locked" := OpenFails "[Errno 13] Permission denied: locked" ]} "" [].

Definition example_yaml (text : string) : result pyval :=
  if decide (text = "a: 1") then Ret (PyDict [(KStr "a", PyInt 1)])
  else if decide (text = "a: 2") then Ret (PyDict [(KStr "a", PyInt 2)])
  else if decide (text = "1") then Ret (PyInt 1)
  else if decide (text = "2") then Ret (PyInt 2)
  else if decide (text = "null") then Ret PyNone
  else if decide (text = "2024-01-01") then Ret (PyDate (Date 2024 1 1))
  else Raise (YAMLError "while parsing a flow node").

Definition example_json (text : string) : result pyval :=
  if decide (text = "null") then Ret PyNone
  else Raise (JSONDecodeError "Expecting value: line 1 column 1 (char 0)").

(** A validator that asks for a mapping. *)
Definition example_validate (instance schema : pyval) : result unit :=
  match instance with
  | PyDict _ => Ret tt
  | _ => Raise (ValidationError "instance is not of type object")
  end.

Section loader_claims.
Variable float_repr : spec_float -> string.
Variable json_load : string -> result pyval.
Variable yaml_safe_load : string -> result pyval.
Variable validate : pyval -> pyval -> result unit.

End loader_claims.


Section validator_claims.
Variable json_load : string -> result pyval.
Variable validate : pyval -> pyval -> result unit.

(** C9, as the code has it. For a schema file that is missing, one that is
    not JSON and a document that violates the schema, [validate_config]
    returns the same result, [False]; the three cases differ in the record
    they add to the log, and the three records are different texts. *)
Theorem validate_config_failures (config_data : pyval) (schema_path : string) (w : world) :
  schema_path ≠ "" ->
  (files w !! schema_path = None ->
   validate_config json_load validate config_data (Some schema_path) w
   = (add_log (ERROR, "Schema file not found: " +:+ schema_path) w, Ret false))
  ∧ (forall content error,
       files w !! schema_path = Some (Readable content) ->
       json_load content = Raise (JSONDecodeError error) ->
       validate_config json_load validate config_data (Some schema_path) w
       = (add_log (ERROR, "Invalid JSON schema file: " +:+ error) w, Ret false))
  ∧ (forall content schema error,
       files w !! schema_path = Some (Readable content) ->
       json_load content = Ret schema ->
       validate config_data schema = Raise (ValidationError error) ->
       validate_config json_load validate config_data (Some schema_path) w
       = (add_log (ERROR, "Configuration validation failed: " +:+ error) w, Ret false))
  ∧ (forall error error',
       "Schema file not found: " +:+ schema_path ≠ "Invalid JSON schema file: " +:+ error
       ∧ "Schema file not found: " +:+ schema_path
         ≠ "Configuration validation failed: " +:+ error'
       ∧ "Invalid JSON schema file: " +:+ error
         ≠ "Configuration validation failed: " +:+ error').
Proof.
  intros Hpath.
  assert (truthy (Some schema_path) = true) as Htruthy by (by destruct schema_path).
  unfold validate_config. rewrite Htruthy. simpl negb. cbv iota.
  unfold try_except, open_r, lift, mbind, M_bind. simpl.
  split_and!.
  - by intros ->.
  - intros content error -> Hload. by rewrite Hload.
  - intros content schema error -> Hload Hvalid. by rewrite Hload, Hvalid.
  - intros error error'. split_and!; by intros [=].
Qed.
End validator_claims.

Lemma validate_config_failures_witness :
  (files example_world !! "missing" = None ->
   validate_config example_json example_validate (PyInt 1) (Some "missing") example_world
   = (add_log (ERROR, "Schema file not found: " +:+ "missing") example_world, Ret false))
  ∧ (forall content error,
       files example_world !! "missing" = Some (Readable content) ->
       example_json content = Raise (JSONDecodeError error) ->
       validate_config example_json example_validate (PyInt 1) (Some "missing") example_world
       = (add_log (ERROR, "Invalid JSON schema file: " +:+ error) example_world, Ret false))
  ∧ (forall content schema error,
       files example_world !! "missing" = Some (Readable content) ->
       example_json content = Ret schema ->
       example_validate (PyInt 1) schema = Raise (ValidationError error) ->
       validate_config example_json example_validate (PyInt 1) (Some "missing") example_world
       = (add_log (ERROR, "Configuration validation failed: " +:+ error) example_world,
          Ret false))
  ∧ (forall error error',
       "Schema file not found: " +:+ "missing" ≠ "Invalid JSON schema file: " +:+ error
       ∧ "Schema file not found: " +:+ "missing"
         ≠ "Configuration validation failed: " +:+ error'
       ∧ "Invalid JSON schema file: " +:+ error
         ≠ "Configuration validation failed: " +:+ error').
Proof.
  apply (validate_config_failures example_json example_validate (PyInt 1) "missing"
           example_world).
  discriminate.
Defined.

(** C9, as the claim states it, fails: with the schema file missing
    ([missing]), malformed ([bad]) and violated (the schema [null] against the
    integer 1), the result of [validate_config] is the same. *)
Lemma validate_config_failures_collapse :
  (validate_config example_json example_validate (PyInt 1) (Some "missing")
     example_world).2 = Ret false
  ∧ (validate_config example_json example_validate (PyInt 1) (Some "bad")
       example_world).2 = Ret false
  ∧ (validate_config example_json example_validate (PyInt 1) (Some "null")
       example_world).2 = Ret false.
Proof. split_and!; by vm_compute. Qed.

(** ** Faults of the output file *)

(** The same world, with no fault on any path. *)
Definition fault_free (w : world) : world := World (files w) ∅ (stdout w) (log w).

(** A computation that neither looks at the faults nor changes them. *)
Definition reads_only {A} (m : M A) : Prop :=
  forall w, m (fault_free w) = (fault_free (m w).1, (m w).2).

(** A computation whose exit code is the same with and without the faults. *)
Definition same_exit_code (m : M unit) : Prop :=
  forall w, exit_code (m w).2 = exit_code (m (fault_free w)).2.

Lemma reads_only_mret {A} (x : A) : reads_only (mret x).
Proof. done. Qed.

Lemma reads_only_raise {A} e : reads_only (@raise A e).
Proof. done. Qed.

Lemma reads_only_sys_exit {A} code : reads_only (@sys_exit A code).
Proof. done. Qed.

Lemma reads_only_lift {A} (r : result A) : reads_only (lift r).
Proof. done. Qed.

Lemma reads_only_logging l msg : reads_only (logging l msg).
Proof. done. Qed.

Lemma reads_only_print line : reads_only (print line).
Proof. done. Qed.

Lemma reads_only_os_path_exists path : reads_only (os_path_exists path).
Proof. done. Qed.

Lemma reads_only_open_r path : reads_only (open_r path).
Proof. intros w. unfold open_r. simpl. by destruct (files w !! path) as [[]|]. Qed.

Lemma reads_only_mbind {A B} (m : M A) (k : A -> M B) :
  reads_only m -> (forall x, reads_only (k x)) -> reads_only (m ≫= k).
Proof.
  intros Hm Hk w. unfold mbind, M_bind. rewrite Hm.
  destruct (m w) as [w' [x|e]]; simpl; [apply Hk|done].
Qed.

Lemma reads_only_try_except {A} (body : M A) handler :
  reads_only body ->
  (forall e h, handler e = Some h -> reads_only h) ->
  reads_only (try_except body handler).
Proof.
  intros Hbody Hhandler w. unfold try_except. rewrite Hbody.
  destruct (body w) as [w' [x|e]]; simpl; [done|].
  destruct (handler e) as [h|] eqn:Hh; [by apply (Hhandler e)|done].
Qed.

Create HintDb reads_only.
#[global] Hint Resolve reads_only_mret reads_only_raise reads_only_sys_exit reads_only_lift
  reads_only_logging reads_only_print reads_only_os_path_exists reads_only_open_r
  : reads_only.

(** The rules above, applied through the binds, the handlers and the tests
    of a computation. *)
Ltac reads_only :=
  repeat first
    [ progress eauto with reads_only
    | apply reads_only_mbind; [|intros ?]
    | apply reads_only_try_except; [|intros ? ? ?]
    | match goal with
      | H : match ?e with _ => _ end = Some _ |- _ => destruct e; simplify_eq
      | H : (if ?b then _ else _) = Some _ |- _ => destruct b; simplify_eq
      | |- reads_only (if ?b then _ else _) => destruct b
      | |- reads_only (match ?x with _ => _ end) => destruct x
      end ].

Section fault_claims.
Variable float_repr : spec_float -> string.
Variable json_load : string -> result pyval.
Variable yaml_safe_load : string -> result pyval.
Variable validate : pyval -> pyval -> result unit.

Lemma reads_only_load_config file_path config_type :
  reads_only (load_config json_load yaml_safe_load file_path config_type).
Proof. unfold load_config. reads_only. Qed.

Lemma reads_only_validate_config config_data schema_path :
  reads_only (validate_config json_load validate config_data schema_path).
Proof. unfold validate_config. reads_only. Qed.

Lemma reads_only_print_lines diff : reads_only (print_lines diff).
Proof. induction diff as [|line diff IH]; simpl; reads_only. Qed.

Lemma same_exit_code_reads_only (m : M unit) : reads_only m -> same_exit_code m.
Proof. intros Hm w. by rewrite Hm. Qed.

Lemma same_exit_code_mbind {A} (m : M A) (k : A -> M unit) :
  reads_only m -> (forall x, same_exit_code (k x)) -> same_exit_code (m ≫= k).
Proof.
  intros Hm Hk w. unfold mbind, M_bind. rewrite Hm.
  destruct (m w) as [w' [x|e]]; simpl; [apply Hk|done].
Qed.

(** [write_diff] catches what the writing raises: it returns. *)
Lemma write_diff_returns diff output_file w : (write_diff diff output_file w).2 = Ret tt.
Proof.
  unfold write_diff, try_except, open_w_write, logging, mbind, M_bind.
  destruct (faults w !! output_file) as [[error|written error]|]; simpl; [done| |done].
  by case_decide.
Qed.

Lemma same_exit_code_main args :
  same_exit_code (main float_repr json_load yaml_safe_load validate args).
Proof.
  unfold main.
  apply same_exit_code_mbind; [reads_only|intros found1].
  apply same_exit_code_mbind; [reads_only|intros _].
  apply same_exit_code_mbind; [reads_only|intros found2].
  apply same_exit_code_mbind; [reads_only|intros _].
  apply same_exit_code_mbind.
  { apply reads_only_try_except.
    - apply reads_only_mbind; [apply reads_only_load_config|intros ?].
      apply reads_only_mbind; [apply reads_only_load_config|intros ?]. reads_only.
    - intros e h He. reads_only. }
  intros [config1 config2].
  apply same_exit_code_mbind; [reads_only|intros _].
  apply same_exit_code_mbind.
  { destruct (truthy (schema args)); [|reads_only].
    apply reads_only_mbind; [apply reads_only_validate_config|intros valid1].
    destruct (negb valid1); [reads_only|].
    apply reads_only_mbind; [apply reads_only_validate_config|intros valid2]. reads_only. }
  intros _.
  apply same_exit_code_mbind; [reads_only|intros diff].
  destruct diff as [|line diff].
  { apply same_exit_code_reads_only. reads_only. }
  destruct (truthy (output args)).
  - intros w. unfold mbind, M_bind.
    pose proof (write_diff_returns (line :: diff) (default "" (output args)) w) as H1.
    pose proof (write_diff_returns (line :: diff) (default "" (output args)) (fault_free w))
      as H2.
    destruct (write_diff _ _ w) as [w1 r1], (write_diff _ _ (fault_free w)) as [w2 r2].
    simpl in *. by subst.
  - apply same_exit_code_reads_only.
    apply reads_only_mbind; [apply reads_only_print_lines|intros ?]. reads_only.
Qed.

(** C8. A failure to write the diff is reported and is not fatal: when
    opening the output file fails, or a write fails after some lines,
    [write_diff] adds the error to the log and returns, and the exit code of
    a run is the exit code of the same run with no fault on any path (0 when
    that run succeeds). *)
Theorem write_error_not_fatal (diff : list string) (output_file error : string) (w : world) :
  faults w !! output_file = Some (OpenFails error)
  ∨ (exists written, written < length diff
                     ∧ faults w !! output_file = Some (WriteFails written error)) ->
  (exists w', write_diff diff output_file w = (w', Ret tt)
              ∧ log w' = log w ++ [(ERROR, "Error writing diff to file: " +:+ error)]
              ∧ stdout w' = stdout w)
  ∧ forall args,
      (run float_repr json_load yaml_safe_load validate args w).2
      = (run float_repr json_load yaml_safe_load validate args (fault_free w)).2.
Proof.
  intros Hfault. split.
  - unfold write_diff, try_except, open_w_write, logging, mbind, M_bind.
    destruct Hfault as [->|(written & Hlt & ->)]; simpl.
    + by eexists.
    + rewrite length_map. rewrite decide_True by done. simpl. by eexists.
  - intros args. unfold run.
    pose proof (same_exit_code_main args w) as Hmain.
    by destruct (main _ _ _ _ args w), (main _ _ _ _ args (fault_free w)).
Qed.
End fault_claims.

Lemma write_error_not_fatal_witness :
  (exists w', write_diff ["--- file1"; "+++ file2"] "locked" example_world = (w', Ret tt)
              ∧ log w' = log example_world
                         ++ [(ERROR, "Error writing diff to file: "
                                     +:+ "[Errno 13] Permission denied: locked")]
              ∧ stdout w' = stdout example_world)
  ∧ forall args,
      (run example_repr example_json example_yaml example_validate args example_world).2
      = (run example_repr example_json example_yaml example_validate args
           (fault_free example_world)).2.
Proof.
  apply (write_error_not_fatal example_repr example_json example_yaml example_validate
           ["--- file1"; "+++ file2"] "locked" "[Errno 13] Permission denied: locked"
           example_world).
  left. reflexivity.
Defined.

(** ** Scalars at the top level *)


(** What [print_lines] leaves on the standard output. *)
Definition printed (diff : list string) : string :=
  String.concat "" (map (fun line => line +:+ NL) diff).

Lemma str_app_empty_r (s : string) : s +:+ "" = s.
Proof.
  induction s as [|c s IH]; [done|].
  change (String c (s +:+ "") = String c s). by rewrite IH.
Qed.

Lemma concat_cons_empty (x : string) (l : list string) :
  String.concat "" (x :: l) = x +:+ String.concat "" l.
Proof. destruct l; simpl; [by rewrite str_app_empty_r|done]. Qed.

Lemma print_lines_stdout diff w :
  (print_lines diff w).2 = Ret tt
  ∧ stdout (print_lines diff w).1 = stdout w +:+ printed diff
  ∧ log (print_lines diff w).1 = log w.
Proof.
  revert w. induction diff as [|line diff IH]; intros w.
  { simpl. by rewrite str_app_empty_r. }
  change (print_lines (line :: diff) w) with (print_lines diff (add_stdout (line +:+ NL) w)).
  destruct (IH (add_stdout (line +:+ NL) w)) as (-> & -> & ->).
  split_and!; [done| |done].
  unfold printed. simpl map. rewrite concat_cons_empty. simpl.
  by rewrite str_app_assoc.
Qed.

Section report_facts.
Variable float_repr : spec_float -> string.

(** Once the diff is there, the run ends with the exit code 0; without
    [--output], the lines of the diff are what it prints. *)
Lemma main_report_returns args config1 config2 diff w :
  diff_configs float_repr config1 config2 = Ret diff ->
  (main_report float_repr args config1 config2 w).2 = Ret tt
  ∧ (truthy (output args) = false ->
     stdout (main_report float_repr args config1 config2 w).1 = stdout w +:+ printed diff).
Proof.
  intros Hdiff. unfold main_report, lift, mbind, M_bind. rewrite Hdiff.
  destruct diff as [|line diff].
  { split; [done|]. intros _. simpl. by rewrite str_app_empty_r. }
  destruct (truthy (output args)).
  - pose proof (write_diff_returns (line :: diff) (default "" (output args)) w) as Hw.
    destruct (write_diff _ _ w) as [w1 r1]. simpl in Hw. subst r1. by split.
  - pose proof (print_lines_stdout (line :: diff) w) as (Hr & Hout & _).
    destruct (print_lines (line :: diff) w) as [w1 r1]. simpl in *. subst r1. by split.
Qed.
End report_facts.


(** The values at which the encoder raises at once: a date, and a mapping
    with two keys that cannot be compared. *)
Definition not_json (o : pyval) : Prop :=
  match o with
  | PyDate _ => True
  | PyDict items => comparable_keys items.*1 = false
  | _ => False
  end.

Section pipeline_claims.
Variable float_repr : spec_float -> string.
Variable json_load : string -> result pyval.
Variable yaml_safe_load : string -> result pyval.
Variable validate : pyval -> pyval -> result unit.

Lemma json_dumps_not_json o : not_json o -> json_dumps float_repr o = Raise TypeError.
Proof.
  destruct o as [| | | | | |items|]; try done. intros Hkeys.
  destruct items as [|kv items]; [done|].
  unfold json_dumps. rewrite iterencode_dict_nonempty by done.
  unfold _iterencode_dict, sorted_items.
  rewrite (encoded_items_keys (fun v => _iterencode float_repr v 1)).
  by rewrite Hkeys.
Qed.


(** C10. There are values the YAML loader returns at which [diff_configs]
    raises instead of returning a diff: a date in either file, or a mapping
    with keys that cannot be compared (a string and an integer, say). The
    [TypeError] is caught nowhere: [main] ends with it, nothing is logged,
    and the exit code is that of an uncaught exception. *)
Theorem diff_configs_raises (args : Args) (content1 content2 : string)
    (config1 config2 : pyval) (w : world) :
  files w !! file1 args = Some (Readable content1) ->
  files w !! file2 args = Some (Readable content2) ->
  parses json_load yaml_safe_load (type args) content1 config1 ->
  parses json_load yaml_safe_load (type args) content2 config2 ->
  config1 ≠ PyNone -> config2 ≠ PyNone ->
  schema_passes json_load validate args config1 config2 w ->
  not_json config1 ∨ (is_document config1 ∧ not_json config2) ->
  diff_configs float_repr config1 config2 = Raise TypeError
  ∧ main float_repr json_load yaml_safe_load validate args w
    = (validated args w, Raise TypeError)
  ∧ run float_repr json_load yaml_safe_load validate args w = (validated args w, 1%Z).
Proof.
  intros Hf1 Hf2 Hp1 Hp2 Hn1 Hn2 Hschema Hbad.
  assert (diff_configs float_repr config1 config2 = Raise TypeError) as Hdiff.
  { unfold diff_configs. destruct Hbad as [Hbad|[Hdoc Hbad]].
    - by rewrite (json_dumps_not_json _ Hbad).
    - rewrite (json_dumps_document _ _ Hdoc), rbind_Ret.
      by rewrite (json_dumps_not_json _ Hbad). }
  assert (main float_repr json_load yaml_safe_load validate args w
          = (validated args w, Raise TypeError)) as Hmain.
  { rewrite (main_loaded float_repr json_load yaml_safe_load validate
               args content1 content2 config1 config2 w) by done.
    unfold main_report, lift, mbind, M_bind. by rewrite Hdiff. }
  split_and!; [done..|]. unfold run. by rewrite Hmain.
Qed.
End pipeline_claims.

(** The arguments of a run on two YAML files, with no schema. *)
Definition example_args (file1 file2 : string) (output : option string) : Args :=
  {| file1 := file1; file2 := file2; type := "yaml"; output := output; schema := None |}.

Definition example_run (file1 file2 : string) (output : option string) : world * Z :=
  run example_repr example_json example_yaml example_validate
      (example_args file1 file2 output) example_world.



Lemma diff_configs_raises_witness :
  diff_configs example_repr (PyDate (Date 2024 1 1)) (PyDict [(KStr "a", PyInt 1)])
  = Raise TypeError
  ∧ main example_repr example_json example_yaml example_validate
      (example_args "date" "f1" None) example_world
    = (example_world, Raise TypeError)
  ∧ example_run "date" "f1" None = (example_world, 1%Z).
Proof.
  apply (diff_configs_raises example_repr example_json example_yaml example_validate
           (example_args "date" "f1" None) "2024-01-01" "a: 1"
           (PyDate (Date 2024 1 1)) (PyDict [(KStr "a", PyInt 1)]) example_world).
  - reflexivity.
  - reflexivity.
  - right. split; reflexivity.
  - right. split; reflexivity.
  - discriminate.
  - discriminate.
  - left. reflexivity.
  - left. exact I.
Defined.

(** A mapping with a string and an integer among its keys, which YAML allows,
    is one of the values at which the encoder raises. *)
Example mixed_keys_not_json :
  not_json (PyDict [(KStr "a", PyInt 1); (KInt 1, PyStr "a")])
  ∧ json_dumps example_repr (PyDict [(KStr "a", PyInt 1); (KInt 1, PyStr "a")])
    = Raise TypeError.
Proof. split; reflexivity. Qed.

(** ** The lines of the output *)

(** The seven lines of the diff of [{"a": 1}] and [{"a": 2}]. The lines of
    the header and of the ranges end with the line terminator of
    [unified_diff], the others have none. *)
Definition example_diff : list string :=
  [ "--- file1" +:+ NL; "+++ file2" +:+ NL; "@@ -1,3 +1,3 @@" +:+ NL; " {";
    "-    " +:+ QUOTE +:+ "a" +:+ QUOTE +:+ ": 1";
    "+    " +:+ QUOTE +:+ "a" +:+ QUOTE +:+ ": 2"; " }" ].

(** C6 at the files [a: 1] and [a: 2]. The diff has seven lines; the output
    has ten, on the standard output and in the output file alike: [print]
    and [write_diff] end every line of the diff with a newline, and the three
    lines that [unified_diff] has already ended are followed by an empty
    line. *)
Example diff_lines_and_output_lines :
  diff_configs example_repr (PyDict [(KStr "a", PyInt 1)]) (PyDict [(KStr "a", PyInt 2)])
  = Ret example_diff
  ∧ stdout (example_run "f1" "f2" None).1 = printed example_diff
  ∧ files (example_run "f1" "f2" (Some "out")).1 !! "out" = Some (Readable (printed example_diff))
  ∧ splitlines (printed example_diff)
    = [ "--- file1"; ""; "+++ file2"; ""; "@@ -1,3 +1,3 @@"; ""; " {";
        "-    " +:+ QUOTE +:+ "a" +:+ QUOTE +:+ ": 1";
        "+    " +:+ QUOTE +:+ "a" +:+ QUOTE +:+ ": 2"; " }" ]
  ∧ length example_diff = 7
  ∧ length (splitlines (printed example_diff)) = 10.
Proof. split_and!; by vm_compute. Qed.

(** ** The diff in both directions *)

(** A line with its marker swapped: [+] for [-] and [-] for [+]. *)
Definition swap_marker (line : string) : string :=
  match line with
  | String c rest =>
      if decide (c = "+"%char) then String "-"%char rest
      else if decide (c = "-"%char) then String "+"%char rest
      else line
  | "" => ""
  end.

(** The sequences [[1, 2, 0]] and [[2, 1, 0]]. *)
Definition example_120 : pyval := PyList [PyInt 1; PyInt 2; PyInt 0].
Definition example_210 : pyval := PyList [PyInt 2; PyInt 1; PyInt 0].


Section both_directions.
Variable float_repr : spec_float -> string.



End both_directions.


(** * Further properties of the program *)

(** ** The outcomes of [load_config] *)

Section load_config_facts.
Variable json_load : string -> result pyval.
Variable yaml_safe_load : string -> result pyval.

(** The text [content] is malformed for the type [config_type]: the parser
    of that type raises its parse error, with the message [error]. *)
Definition malformed (config_type content error : string) : Prop :=
  (config_type = "json" ∧ json_load content = Raise (JSONDecodeError error))
  ∨ (config_type = "yaml" ∧ yaml_safe_load content = Raise (YAMLError error)).

(** The record that [load_config] logs for a malformed file. *)
Definition malformed_record (config_type error : string) : level * string :=
  (ERROR, "Error loading config file: Invalid "
          +:+ (if decide (config_type = "json") then "JSON" else "YAML")
          +:+ " file: " +:+ error).

(** The four ways in which a call of [load_config] ends. *)
Inductive load_outcome (file_path config_type : string) (w : world) :
    world * result pyval -> Prop :=
  | load_value content v :
      files w !! file_path = Some (Readable content) ->
      parses json_load yaml_safe_load config_type content v ->
      load_outcome file_path config_type w (w, Ret v)
  | load_logged msg :
      is_Some (files w !! file_path) ->
      load_outcome file_path config_type w (add_log (ERROR, msg) w, Ret PyNone)
  | load_not_found :
      load_outcome file_path config_type w
        (w, Raise (FileNotFoundError ("File not found: " +:+ file_path)))
  | load_passed e :
      is_Exception e = false ->
      load_outcome file_path config_type w (w, Raise e).

Lemma load_config_outcomes file_path config_type w :
  load_outcome file_path config_type w
    (load_config json_load yaml_safe_load file_path config_type w).
Proof.
  unfold load_config, try_except, open_r, lift, mbind, M_bind.
  destruct (files w !! file_path) as [[error|content]|] eqn:Hfile; simpl.
  - by apply load_logged.
  - destruct (decide (config_type = "json")) as [->|Hjson].
    { destruct (json_load content) as [v|e] eqn:Hload; simpl.
      - apply (load_value _ _ _ content); [done|]. by left.
      - destruct e; simpl; try (by apply load_logged); try apply load_not_found.
        by apply load_passed. }
    destruct (decide (config_type = "yaml")) as [->|Hyaml].
    { destruct (yaml_safe_load content) as [v|e] eqn:Hload; simpl.
      - apply (load_value _ _ _ content); [done|]. by right.
      - destruct e; simpl; try (by apply load_logged); try apply load_not_found.
        by apply load_passed. }
    destruct (decide (config_type = "ini")) as [->|Hini]; simpl; by apply load_logged.
  - apply load_not_found.
Qed.

Lemma load_config_malformed_record file_path config_type content error w :
  files w !! file_path = Some (Readable content) ->
  malformed config_type content error ->
  load_config json_load yaml_safe_load file_path config_type w
  = (add_log (malformed_record config_type error) w, Ret PyNone).
Proof.
  intros Hfile [[-> Hload]|[-> Hload]];
    unfold load_config, try_except, open_r, lift, mbind, M_bind; rewrite Hfile; simpl;
    by rewrite Hload.
Qed.
End load_config_facts.

(** ** The outcomes of [validate_config] *)

Section validate_config_facts.
Variable json_load : string -> result pyval.
Variable validate : pyval -> pyval -> result unit.

(** The schema file at [schema_path] is a JSON text that [config_data]
    satisfies. *)
Definition satisfies (config_data : pyval) (schema_path : option string) (w : world) : Prop :=
  exists content schema_doc,
    files w !! default "" schema_path = Some (Readable content)
    ∧ json_load content = Ret schema_doc
    ∧ validate config_data schema_doc = Ret tt.

(** The four ways in which a call of [validate_config] ends. *)
Inductive validate_outcome (config_data : pyval) (schema_path : option string) (w : world) :
    world * result bool -> Prop :=
  | validate_skipped :
      truthy schema_path = false ->
      validate_outcome config_data schema_path w (w, Ret true)
  | validate_valid :
      truthy schema_path = true ->
      satisfies config_data schema_path w ->
      validate_outcome config_data schema_path w
        (add_log (INFO, "Configuration file is valid against the schema.") w, Ret true)
  | validate_invalid msg :
      truthy schema_path = true ->
      ¬ satisfies config_data schema_path w ->
      validate_outcome config_data schema_path w (add_log (ERROR, msg) w, Ret false)
  | validate_passed e :
      truthy schema_path = true ->
      ¬ satisfies config_data schema_path w ->
      is_Exception e = false ->
      validate_outcome config_data schema_path w (w, Raise e).

Lemma validate_config_outcomes config_data schema_path w :
  validate_outcome config_data schema_path w
    (validate_config json_load validate config_data schema_path w).
Proof.
  unfold validate_config.
  destruct (truthy schema_path) eqn:Htruthy; [|by apply validate_skipped].
  simpl negb. cbv iota.
  unfold try_except, open_r, lift, mbind, M_bind. simpl.
  destruct (files w !! default "" schema_path) as [[error|content]|] eqn:Hfile; simpl.
  - apply validate_invalid; [done|]. intros (? & ? & ? & _). congruence.
  - destruct (json_load content) as [schema_doc|e] eqn:Hload; simpl.
    + destruct (validate config_data schema_doc) as [[]|e] eqn:Hvalid; simpl.
      * apply validate_valid; [done|]. by exists content, schema_doc.
      * assert (¬ satisfies config_data schema_path w) as Hnot.
        { intros (? & ? & ? & ? & ?). congruence. }
        destruct e; simpl; try (by apply validate_invalid). by apply validate_passed.
    + assert (¬ satisfies config_data schema_path w) as Hnot.
      { intros (? & ? & ? & ? & ?). congruence. }
      destruct e; simpl; try (by apply validate_invalid). by apply validate_passed.
  - apply validate_invalid; [done|]. intros (? & ? & ? & _). congruence.
Qed.

Lemma validate_config_true config_data schema_path w :
  (validate_config json_load validate config_data schema_path w).2 = Ret true
  ↔ truthy schema_path = false ∨ satisfies config_data schema_path w.
Proof.
  pose proof (validate_config_outcomes config_data schema_path w) as Hout.
  destruct (validate_config _ _ _ _ w) as [w' r].
  inversion Hout; subst; simpl; split; try done; try (by right); try (by left);
    try (intros [?|?]; congruence).

Qed.
End validate_config_facts.

(** ** The steps of a run *)

Section run_facts.
Variable float_repr : spec_float -> string.
Variable json_load : string -> result pyval.
Variable yaml_safe_load : string -> result pyval.
Variable validate : pyval -> pyval -> result unit.

(** What [main] does with the two values that [load_config] returned: the
    test for [None], the validations, and the report of the diff. *)
Definition main_checks (args : Args) (config1 config2 : pyval) : M unit :=
  (match config1, config2 with
   | PyNone, _ | _, PyNone => sys_exit 1
   | _, _ => mret tt
   end);;
  (if truthy (schema args) then
     valid1 ← validate_config json_load validate config1 (schema args);
     if negb valid1 then sys_exit 1
     else
       valid2 ← validate_config json_load validate config2 (schema args);
       if negb valid2 then sys_exit 1 else mret tt
   else mret tt);;
  main_report float_repr args config1 config2.

Lemma M_bind_ext {A B} (m : M A) (k1 k2 : A -> M B) w :
  (forall x w', k1 x w' = k2 x w') -> (m ≫= k1) w = (m ≫= k2) w.
Proof.
  intros Hk. unfold mbind, M_bind. destruct (m w) as [w' [x|e]]; [apply Hk|done].
Qed.

Lemma main_missing args w :
  files w !! file1 args = None ∨ files w !! file2 args = None ->
  main float_repr json_load yaml_safe_load validate args w
  = (add_log (ERROR, "File not found: "
                     +:+ (if decide (files w !! file1 args = None) then file1 args
                          else file2 args)) w,
     Raise (SystemExit 1)).
Proof.
  intros Hmissing. unfold main.
  unfold mbind at 1, M_bind at 1, os_path_exists at 1.
  destruct (decide (files w !! file1 args = None)) as [Hf1|Hf1].
  { rewrite bool_decide_eq_false_2 by (rewrite Hf1; by intros [? ?]). done. }
  rewrite bool_decide_eq_true_2 by (by apply not_eq_None_Some).
  simpl negb. cbv iota.
  unfold mbind at 1, M_bind at 1, mret at 1, M_ret at 1.
  unfold mbind at 1, M_bind at 1, os_path_exists at 1.
  destruct Hmissing as [?|Hf2]; [done|].
  rewrite bool_decide_eq_false_2 by (rewrite Hf2; by intros [? ?]). done.
Qed.

Lemma main_found args w :
  is_Some (files w !! file1 args) -> is_Some (files w !! file2 args) ->
  main float_repr json_load yaml_safe_load validate args w
  = (configs ←
       try_except
         (config1 ← load_config json_load yaml_safe_load (file1 args) (type args);
          config2 ← load_config json_load yaml_safe_load (file2 args) (type args);
          mret (config1, config2))
         (fun e =>
            if is_ValueError e then Some (logging ERROR (exn_str e);; sys_exit 1)
            else match e with
                 | FileNotFoundError _ => Some (logging ERROR (exn_str e);; sys_exit 1)
                 | _ => None
                 end);
     main_checks args configs.1 configs.2) w.
Proof.
  intros Hf1 Hf2. unfold main.
  unfold mbind at 1, M_bind at 1, os_path_exists at 1.
  rewrite bool_decide_eq_true_2 by done. simpl negb. cbv iota.
  unfold mbind at 1, M_bind at 1, mret at 1, M_ret at 1.
  unfold mbind at 1, M_bind at 1, os_path_exists at 1.
  rewrite bool_decide_eq_true_2 by done. simpl negb. cbv iota.
  unfold mbind at 1, M_bind at 1, mret at 1, M_ret at 1.
  apply M_bind_ext. by intros [config1 config2] w'.
Qed.

Lemma main_loads args w w1 w2 config1 config2 :
  is_Some (files w !! file1 args) -> is_Some (files w !! file2 args) ->
  load_config json_load yaml_safe_load (file1 args) (type args) w = (w1, Ret config1) ->
  load_config json_load yaml_safe_load (file2 args) (type args) w1 = (w2, Ret config2) ->
  main float_repr json_load yaml_safe_load validate args w
  = main_checks args config1 config2 w2.
Proof.
  intros Hf1 Hf2 H1 H2. rewrite main_found by done.
  unfold mbind at 1, M_bind at 1, try_except at 1.
  unfold mbind at 1, M_bind at 1. rewrite H1.
  unfold mbind at 1, M_bind at 1. rewrite H2. done.
Qed.
End run_facts.

Section run_outcomes.
Variable float_repr : spec_float -> string.
Variable json_load : string -> result pyval.
Variable yaml_safe_load : string -> result pyval.
Variable validate : pyval -> pyval -> result unit.

(** What the parser of the type makes of a file: a value, or a parse error
    with its message. *)
Inductive parsed : Type :=
  | Value (v : pyval)
  | Malformed (error : string).

Definition parse_result (config_type content : string) (p : parsed) : Prop :=
  match p with
  | Value v => parses json_load yaml_safe_load config_type content v
  | Malformed error => malformed json_load yaml_safe_load config_type content error
  end.

(** The records that loading the file adds to the log, and the value that
    [load_config] returns for it. *)
Definition load_records (config_type : string) (p : parsed) : list (level * string) :=
  match p with
  | Value _ => []
  | Malformed error => [malformed_record config_type error]
  end.

Definition load_value_of (p : parsed) : pyval :=
  match p with
  | Value v => v
  | Malformed _ => PyNone
  end.

Definition add_logs (records : list (level * string)) (w : world) : world :=
  World (files w) (faults w) (stdout w) (log w ++ records).

Lemma add_logs_nil w : add_logs [] w = w.
Proof. destruct w. unfold add_logs. simpl. by rewrite app_nil_r. Qed.

Lemma add_logs_cons r records w : add_logs (r :: records) w = add_logs records (add_log r w).
Proof. unfold add_logs, add_log. simpl. by rewrite <-app_assoc. Qed.

Lemma load_config_parse_result file_path config_type content p w :
  files w !! file_path = Some (Readable content) ->
  parse_result config_type content p ->
  load_config json_load yaml_safe_load file_path config_type w
  = (add_logs (load_records config_type p) w, Ret (load_value_of p)).
Proof.
  intros Hfile Hp. destruct p as [v|error]; simpl in *.
  - rewrite add_logs_nil. by apply load_config_parses with content.
  - rewrite add_logs_cons, add_logs_nil. by apply load_config_malformed_record with content.
Qed.

Lemma main_checks_none args config1 config2 w :
  config1 = PyNone ∨ config2 = PyNone ->
  main_checks float_repr json_load validate args config1 config2 w = (w, Raise (SystemExit 1)).
Proof. intros [->| ->]; [done|]. by destruct config1. Qed.

Lemma main_checks_not_none args config1 config2 w :
  config1 ≠ PyNone -> config2 ≠ PyNone ->
  main_checks float_repr json_load validate args config1 config2 w
  = ((if truthy (schema args) then
        valid1 ← validate_config json_load validate config1 (schema args);
        if negb valid1 then sys_exit 1
        else
          valid2 ← validate_config json_load validate config2 (schema args);
          if negb valid2 then sys_exit 1 else mret tt
      else mret tt);;
     main_report float_repr args config1 config2) w.
Proof.
  intros Hn1 Hn2. unfold main_checks.
  unfold mbind at 1, M_bind at 1.
  assert ((match config1 with
           | PyNone => sys_exit 1
           | _ => match config2 with PyNone => sys_exit 1 | _ => mret () end
           end : M unit) w = (w, Ret ())) as ->.
  { by destruct config1, config2. }
  done.
Qed.

(** A run on two files of which one is missing. *)
Lemma run_missing args w :
  files w !! file1 args = None ∨ files w !! file2 args = None ->
  run float_repr json_load yaml_safe_load validate args w
  = (add_log (ERROR, "File not found: "
                     +:+ (if decide (files w !! file1 args = None) then file1 args
                          else file2 args)) w, 1%Z).
Proof. intros Hmissing. unfold run. by rewrite main_missing. Qed.

Lemma run_load_failure args content1 content2 p1 p2 w :
  files w !! file1 args = Some (Readable content1) ->
  files w !! file2 args = Some (Readable content2) ->
  parse_result (type args) content1 p1 ->
  parse_result (type args) content2 p2 ->
  load_value_of p1 = PyNone ∨ load_value_of p2 = PyNone ->
  run float_repr json_load yaml_safe_load validate args w
  = (add_logs (load_records (type args) p1 ++ load_records (type args) p2) w, 1%Z).
Proof.
  intros Hf1 Hf2 Hp1 Hp2 Hnone. unfold run.
  rewrite (main_loads float_repr json_load yaml_safe_load validate args w
             (add_logs (load_records (type args) p1) w)
             (add_logs (load_records (type args) p2) (add_logs (load_records (type args) p1) w))
             (load_value_of p1) (load_value_of p2)); try (by eauto).
  - rewrite main_checks_none by done. unfold add_logs. simpl. by rewrite <-app_assoc.
  - by apply load_config_parse_result with content1.
  - by apply load_config_parse_result with content2.
Qed.
End run_outcomes.

Section run_validation.
Variable float_repr : spec_float -> string.
Variable json_load : string -> result pyval.
Variable yaml_safe_load : string -> result pyval.
Variable validate : pyval -> pyval -> result unit.

(** The three failures of a validation that [validate_config] tells apart,
    each with the message of its record: the schema file is missing, it is
    not JSON, the value violates the schema. *)
Definition violates (config_data : pyval) (schema_path : string) (w : world)
    (msg : string) : Prop :=
  (files w !! schema_path = None ∧ msg = "Schema file not found: " +:+ schema_path)
  ∨ (exists content error,
       files w !! schema_path = Some (Readable content)
       ∧ json_load content = Raise (JSONDecodeError error)
       ∧ msg = "Invalid JSON schema file: " +:+ error)
  ∨ (exists content schema_doc error,
       files w !! schema_path = Some (Readable content)
       ∧ json_load content = Ret schema_doc
       ∧ validate config_data schema_doc = Raise (ValidationError error)
       ∧ msg = "Configuration validation failed: " +:+ error).

Lemma validate_config_violates config_data schema_path w msg :
  schema_path ≠ "" ->
  violates config_data schema_path w msg ->
  validate_config json_load validate config_data (Some schema_path) w
  = (add_log (ERROR, msg) w, Ret false).
Proof.
  intros Hpath Hviolates.
  assert (truthy (Some schema_path) = true) as Htruthy by (by destruct schema_path).
  unfold validate_config. rewrite Htruthy. simpl negb. cbv iota.
  unfold try_except, open_r, lift, mbind, M_bind. simpl.
  destruct Hviolates as [[-> ->]|[(content & error & -> & Hload & ->)
                                 |(content & schema_doc & error & -> & Hload & Hvalid & ->)]].
  - done.
  - by rewrite Hload.
  - by rewrite Hload, Hvalid.
Qed.

Lemma validate_config_satisfies config_data schema_path w :
  schema_path ≠ "" ->
  satisfies json_load validate config_data (Some schema_path) w ->
  validate_config json_load validate config_data (Some schema_path) w
  = (add_log (INFO, "Configuration file is valid against the schema.") w, Ret true).
Proof.
  intros Hpath (content & schema_doc & Hfile & Hload & Hvalid).
  apply validate_config_passes with content schema_doc; try done.
  by destruct schema_path.
Qed.

Lemma run_violation args content1 content2 config1 config2 schema_path msg
    (first_valid : bool) w :
  files w !! file1 args = Some (Readable content1) ->
  files w !! file2 args = Some (Readable content2) ->
  parses json_load yaml_safe_load (type args) content1 config1 ->
  parses json_load yaml_safe_load (type args) content2 config2 ->
  config1 ≠ PyNone -> config2 ≠ PyNone ->
  schema args = Some schema_path -> schema_path ≠ "" ->
  (if first_valid then
     satisfies json_load validate config1 (Some schema_path) w
     ∧ violates config2 schema_path w msg
   else violates config1 schema_path w msg) ->
  run float_repr json_load yaml_safe_load validate args w
  = (add_log (ERROR, msg)
       (if first_valid
        then add_log (INFO, "Configuration file is valid against the schema.") w
        else w), 1%Z).
Proof.
  intros Hf1 Hf2 Hp1 Hp2 Hn1 Hn2 Hschema Hpath Hcase. unfold run.
  rewrite (main_loads float_repr json_load yaml_safe_load validate args w w w config1 config2);
    try (by eauto); try (by apply load_config_parses with content1);
    try (by apply load_config_parses with content2).
  rewrite main_checks_not_none by done. rewrite Hschema.
  assert (truthy (Some schema_path) = true) as -> by (by destruct schema_path).
  unfold mbind at 1, M_bind at 1. unfold mbind at 1, M_bind at 1.
  destruct first_valid.
  - destruct Hcase as [Hsat Hviolates].
    rewrite (validate_config_satisfies config1 schema_path w) by done.
    change (negb true) with false. cbv beta iota.
    unfold mbind at 1, M_bind at 1.
    rewrite (validate_config_violates config2 schema_path _ msg) by done.
    done.
  - rewrite (validate_config_violates config1 schema_path w msg) by done.
    done.
Qed.
End run_validation.

(** ** The report of the diff *)

Lemma write_diff_written diff output_file w :
  faults w !! output_file = None ->
  write_diff diff output_file w
  = (add_log (INFO, "Diff written to: " +:+ output_file)
       (set_files (<[output_file := Readable (printed diff)]> (files w)) w), Ret tt).
Proof.
  intros Hfault. unfold write_diff, try_except, open_w_write, logging, mbind, M_bind.
  by rewrite Hfault.
Qed.


Section report.
Variable float_repr : spec_float -> string.
Variable json_load : string -> result pyval.
Variable yaml_safe_load : string -> result pyval.
Variable validate : pyval -> pyval -> result unit.





End report.

(** ** The runs that succeed *)

Section success.
Variable float_repr : spec_float -> string.
Variable json_load : string -> result pyval.
Variable yaml_safe_load : string -> result pyval.
Variable validate : pyval -> pyval -> result unit.

(** The conditions of a successful run: both files are there and parse to a
    value other than [None], the schema, if any, is passed by both values,
    and both values can be serialized. *)
Definition succeeds (args : Args) (w : world) : Prop :=
  exists content1 content2 config1 config2 diff,
    files w !! file1 args = Some (Readable content1)
    ∧ files w !! file2 args = Some (Readable content2)
    ∧ parses json_load yaml_safe_load (type args) content1 config1
    ∧ parses json_load yaml_safe_load (type args) content2 config2
    ∧ config1 ≠ PyNone ∧ config2 ≠ PyNone
    ∧ schema_passes json_load validate args config1 config2 w
    ∧ diff_configs float_repr config1 config2 = Ret diff.

Lemma load_config_value file_path config_type w w' v :
  load_config json_load yaml_safe_load file_path config_type w = (w', Ret v) ->
  v ≠ PyNone ->
  w' = w ∧ exists content,
    files w !! file_path = Some (Readable content)
    ∧ parses json_load yaml_safe_load config_type content v.
Proof.
  intros Hload Hv.
  pose proof (load_config_outcomes json_load yaml_safe_load file_path config_type w) as Hout.
  rewrite Hload in Hout. inversion Hout; subst; [|done]. eauto.
Qed.

Lemma validate_config_valid config_data schema_path w w' :
  truthy schema_path = true ->
  validate_config json_load validate config_data schema_path w = (w', Ret true) ->
  files w' = files w ∧ satisfies json_load validate config_data schema_path w.
Proof.
  intros Htruthy Hvalid.
  pose proof (validate_config_outcomes json_load validate config_data schema_path w) as Hout.
  rewrite Hvalid in Hout. inversion Hout; subst; [congruence|done].
Qed.

Lemma main_returns args w :
  (main float_repr json_load yaml_safe_load validate args w).2 = Ret tt -> succeeds args w.
Proof.
  intros Hmain.
  destruct (files w !! file1 args) as [f1|] eqn:Hf1;
    [|by rewrite main_missing in Hmain by auto].
  destruct (files w !! file2 args) as [f2|] eqn:Hf2;
    [|by rewrite main_missing in Hmain by auto].
  rewrite main_found in Hmain by (by rewrite ?Hf1, ?Hf2).
  unfold mbind at 1, M_bind at 1, try_except at 1 in Hmain.
  unfold mbind at 1, M_bind at 1 in Hmain.
  destruct (load_config json_load yaml_safe_load (file1 args) (type args) w)
    as [w1 [config1|e1]] eqn:Hload1; cycle 1.
  { destruct e1; simpl in Hmain; discriminate. }
  unfold mbind at 1, M_bind at 1 in Hmain.
  destruct (load_config json_load yaml_safe_load (file2 args) (type args) w1)
    as [w2 [config2|e2]] eqn:Hload2; cycle 1.
  { destruct e2; simpl in Hmain; discriminate. }
  unfold mret at 1, M_ret at 1 in Hmain. cbv beta iota in Hmain. simpl fst in Hmain.
  simpl snd in Hmain.
  assert (config1 ≠ PyNone) as Hn1.
  { intros ->. by rewrite main_checks_none in Hmain by auto. }
  assert (config2 ≠ PyNone) as Hn2.
  { intros ->. by rewrite main_checks_none in Hmain by auto. }
  apply load_config_value in Hload1 as [-> (content1 & Hc1 & Hp1)]; [|done].
  apply load_config_value in Hload2 as [-> (content2 & Hc2 & Hp2)]; [|done].
  rewrite main_checks_not_none in Hmain by done.
  unfold mbind at 1, M_bind at 1 in Hmain.
  assert (exists w3,
            schema_passes json_load validate args config1 config2 w
            ∧ (main_report float_repr args config1 config2 w3).2 = Ret tt)
    as (w3 & Hschema & Hreport).
  { unfold schema_passes. destruct (truthy (schema args)) eqn:Htruthy;
      [|exists w; split; [by left|done]].
    unfold mbind at 1, M_bind at 1 in Hmain.
    destruct (validate_config json_load validate config1 (schema args) w)
      as [w3 [[]|e]] eqn:Hv1; try done.
    apply validate_config_valid in Hv1 as [Hfiles1 Hsat1]; [|done].
    change (negb true) with false in Hmain. cbv beta iota in Hmain.
    unfold mbind at 1, M_bind at 1 in Hmain.
    destruct (validate_config json_load validate config2 (schema args) w3)
      as [w4 [[]|e]] eqn:Hv2; try done.
    apply validate_config_valid in Hv2 as [Hfiles2 Hsat2]; [|done].
    exists w4. split; [|done]. right.
    destruct Hsat1 as (content & schema_doc & Hfile & Hload & Hvalid1).
    destruct Hsat2 as (content' & schema_doc' & Hfile' & Hload' & Hvalid2).
    rewrite Hfiles1, Hfile in Hfile'. injection Hfile' as <-.
    rewrite Hload in Hload'. injection Hload' as <-.
    by exists content, schema_doc. }
  unfold main_report, lift in Hreport. unfold mbind at 1, M_bind at 1 in Hreport.
  destruct (diff_configs float_repr config1 config2) as [diff|e] eqn:Hdiff; [|done].
  by exists content1, content2, config1, config2, diff.
Qed.

Lemma main_succeeds args w :
  succeeds args w -> (main float_repr json_load yaml_safe_load validate args w).2 = Ret tt.
Proof.
  intros (content1 & content2 & config1 & config2 & diff
          & Hf1 & Hf2 & Hp1 & Hp2 & Hn1 & Hn2 & Hschema & Hdiff).
  rewrite (main_loaded float_repr json_load yaml_safe_load validate
             args content1 content2 config1 config2 w) by done.
  by apply (main_report_returns float_repr args config1 config2 diff).
Qed.
End success.

(** ** What a run leaves alone *)

(** From [w] to [w']: the files at the paths outside [written] are the same,
    nothing is printed unless [prints], and the log has only grown. *)
Definition changes (written : string -> Prop) (prints : bool) (w w' : world) : Prop :=
  (forall path, ¬ written path -> files w' !! path = files w !! path)
  ∧ faults w' = faults w
  ∧ (prints = false -> stdout w' = stdout w)
  ∧ log w `prefix_of` log w'.

(** A computation that changes the world within these bounds. *)
Definition keeps (written : string -> Prop) (prints : bool) {A} (m : M A) : Prop :=
  forall w, changes written prints w (m w).1.

Lemma changes_refl written prints w : changes written prints w w.
Proof. by split_and!. Qed.

Lemma changes_trans written prints w1 w2 w3 :
  changes written prints w1 w2 -> changes written prints w2 w3 ->
  changes written prints w1 w3.
Proof.
  intros (Hf1 & Hx1 & Hs1 & Hl1) (Hf2 & Hx2 & Hs2 & Hl2). split_and!.
  - intros path Hpath. by rewrite Hf2, Hf1.
  - congruence.
  - intros Hp. by rewrite Hs2, Hs1.
  - by etrans.
Qed.

Section keeps_rules.
Variable written : string -> Prop.
Variable prints : bool.

Lemma keeps_mret {A} (x : A) : keeps written prints (mret x).
Proof. intros w. apply changes_refl. Qed.

Lemma keeps_raise {A} e : keeps written prints (@raise A e).
Proof. intros w. apply changes_refl. Qed.

Lemma keeps_sys_exit {A} code : keeps written prints (@sys_exit A code).
Proof. intros w. apply changes_refl. Qed.

Lemma keeps_lift {A} (r : result A) : keeps written prints (lift r).
Proof. intros w. apply changes_refl. Qed.

Lemma keeps_os_path_exists path : keeps written prints (os_path_exists path).
Proof. intros w. apply changes_refl. Qed.

Lemma keeps_open_r path : keeps written prints (open_r path).
Proof.
  intros w. unfold open_r. destruct (files w !! path) as [[]|]; apply changes_refl.
Qed.

Lemma keeps_logging l msg : keeps written prints (logging l msg).
Proof. intros w. split_and!; try done. simpl. by apply prefix_app_r. Qed.

Lemma keeps_open_w_write path chunks :
  written path -> keeps written prints (open_w_write path chunks).
Proof.
  intros Hpath w. unfold open_w_write.
  assert (forall content,
            changes written prints w (set_files (<[path := content]> (files w)) w)) as Hset.
  { intros content. split_and!; try done. intros path' Hpath'. simpl.
    apply lookup_insert_ne. by intros ->. }
  destruct (faults w !! path) as [[error|n error]|]; simpl;
    [apply changes_refl| |apply Hset].
  case_decide; apply Hset.
Qed.

Lemma keeps_mbind {A B} (m : M A) (k : A -> M B) :
  keeps written prints m -> (forall x, keeps written prints (k x)) ->
  keeps written prints (m ≫= k).
Proof.
  intros Hm Hk w. unfold mbind, M_bind. specialize (Hm w).
  destruct (m w) as [w' [x|e]]; simpl in *; [|done].
  apply changes_trans with w'; [done|apply Hk].
Qed.

Lemma keeps_try_except {A} (body : M A) handler :
  keeps written prints body ->
  (forall e h, handler e = Some h -> keeps written prints h) ->
  keeps written prints (try_except body handler).
Proof.
  intros Hbody Hhandler w. unfold try_except. specialize (Hbody w).
  destruct (body w) as [w' [x|e]]; simpl in *; [done|].
  destruct (handler e) as [h|] eqn:Hh; [|done].
  apply changes_trans with w'; [done|]. by apply (Hhandler e).
Qed.
End keeps_rules.

Lemma keeps_print written line : keeps written true (print line).
Proof. intros w. by split_and!. Qed.

Create HintDb keeps.
#[global] Hint Resolve keeps_mret keeps_raise keeps_sys_exit keeps_lift keeps_logging
  keeps_os_path_exists keeps_open_r keeps_print : keeps.

(** The rules above, applied through the binds, the handlers and the tests
    of a computation. *)
Ltac keeps :=
  repeat first
    [ progress eauto with keeps
    | apply keeps_mbind; [|intros ?]
    | apply keeps_try_except; [|intros ? ? ?]
    | match goal with
      | H : match ?e with _ => _ end = Some _ |- _ => destruct e; simplify_eq
      | H : (if ?b then _ else _) = Some _ |- _ => destruct b; simplify_eq
      | |- keeps _ _ (if ?b then _ else _) => destruct b
      | |- keeps _ _ (match ?x with _ => _ end) => destruct x
      end ].

Section keeps_main.
Variable float_repr : spec_float -> string.
Variable json_load : string -> result pyval.
Variable yaml_safe_load : string -> result pyval.
Variable validate : pyval -> pyval -> result unit.

Lemma keeps_load_config written prints file_path config_type :
  keeps written prints (load_config json_load yaml_safe_load file_path config_type).
Proof. unfold load_config. keeps. Qed.

Lemma keeps_validate_config written prints config_data schema_path :
  keeps written prints (validate_config json_load validate config_data schema_path).
Proof. unfold validate_config. keeps. Qed.

Lemma keeps_print_lines written diff : keeps written true (print_lines diff).
Proof. induction diff as [|line diff IH]; simpl; keeps. Qed.

Lemma keeps_write_diff written prints diff output_file :
  written output_file -> keeps written prints (write_diff diff output_file).
Proof.
  intros Hpath. unfold write_diff.
  apply keeps_try_except.
  - apply keeps_mbind; [by apply keeps_open_w_write|intros ?]. keeps.
  - intros e h He. keeps.
Qed.

(** The paths that a run may write: the one of [--output], if it is given
    and not empty. *)
Definition output_path (args : Args) (path : string) : Prop :=
  truthy (output args) = true ∧ output args = Some path.

Lemma keeps_main args :
  keeps (output_path args) (negb (truthy (output args)))
    (main float_repr json_load yaml_safe_load validate args).
Proof.
  unfold main.
  apply keeps_mbind; [keeps|intros found1].
  apply keeps_mbind; [keeps|intros _].
  apply keeps_mbind; [keeps|intros found2].
  apply keeps_mbind; [keeps|intros _].
  apply keeps_mbind.
  { apply keeps_try_except.
    - apply keeps_mbind; [apply keeps_load_config|intros ?].
      apply keeps_mbind; [apply keeps_load_config|intros ?]. keeps.
    - intros e h He. keeps. }
  intros [config1 config2].
  apply keeps_mbind; [keeps|intros _].
  apply keeps_mbind.
  { destruct (truthy (schema args)); [|keeps].
    apply keeps_mbind; [apply keeps_validate_config|intros valid1].
    destruct (negb valid1); [keeps|].
    apply keeps_mbind; [apply keeps_validate_config|intros valid2]. keeps. }
  intros _.
  apply keeps_mbind; [keeps|intros diff].
  apply keeps_mbind; [|intros ?; keeps].
  destruct diff as [|line diff]; [keeps|].
  destruct (truthy (output args)) eqn:Htruthy.
  - apply keeps_write_diff. split; [done|].
    destruct (output args) as [path|]; [done|discriminate].
  - apply keeps_print_lines.
Qed.
End keeps_main.

(** ** Lines and [str.splitlines] *)

(** A string with no line boundary in it. *)
Fixpoint no_linebreak (s : string) : bool :=
  match s with
  | "" => true
  | String c s' => negb (is_linebreak c) && no_linebreak s'
  end.

Lemma str_app_cons c (s1 s2 : string) : String c s1 +:+ s2 = String c (s1 +:+ s2).
Proof. done. Qed.

Lemma str_app_nil_l (s : string) : "" +:+ s = s.
Proof. done. Qed.

Lemma splitlines_from_line cur line rest :
  no_linebreak line ->
  splitlines_from cur (line +:+ NL +:+ rest) = (cur +:+ line) :: splitlines_from "" rest.
Proof.
  revert cur. induction line as [|c line IH]; intros cur Hline.
  { rewrite str_app_nil_l, str_app_empty_r. done. }
  simpl in Hline. apply andb_prop_elim in Hline as [Hc Hline].
  apply negb_prop_elim, Is_true_false in Hc.
  rewrite str_app_cons. simpl splitlines_from.
  rewrite decide_False by (intros ->; done). rewrite Hc.
  rewrite IH by done. by rewrite str_app_assoc.
Qed.

Lemma splitlines_printed lines :
  Forall (fun line => no_linebreak line) lines -> splitlines (printed lines) = lines.
Proof.
  induction 1 as [|line lines Hline _ IH]; [done|].
  unfold printed. simpl map. rewrite concat_cons_empty, str_app_assoc.
  unfold splitlines. rewrite splitlines_from_line by done.
  rewrite str_app_nil_l. f_equal. apply IH.
Qed.

Lemma no_linebreak_app s1 s2 :
  no_linebreak (s1 +:+ s2) = no_linebreak s1 && no_linebreak s2.
Proof.
  induction s1 as [|c s1 IH]; [done|].
  rewrite str_app_cons. simpl. by rewrite IH, andb_assoc.
Qed.

(** The lines that [str.splitlines] returns have no line boundary in them. *)
Lemma splitlines_from_no_linebreak n s cur :
  String.length s ≤ n -> no_linebreak cur ->
  Forall (fun line => no_linebreak line) (splitlines_from cur s).
Proof.
  revert s cur. induction n as [|n IH]; intros s cur Hlen Hcur.
  { destruct s; [|simpl in Hlen; lia]. simpl. case_decide; by repeat constructor. }
  destruct s as [|c s]; [simpl; case_decide; by repeat constructor|].
  simpl in Hlen. simpl splitlines_from.
  destruct (decide (c = "013"%char)) as [->|Hcr].
  { destruct s as [|c' s]; [by repeat constructor|].
    destruct (decide (c' = "010"%char)) as [->|Hlf].
    - constructor; [done|]. apply IH; [simpl in Hlen; lia|done].
    - assert (Forall (fun line => no_linebreak line) (cur :: splitlines_from "" (String c' s)))
        as Hall.
      { constructor; [done|]. apply IH; [lia|done]. }
      destruct c' as [[] [] [] [] [] [] [] []]; try exact Hall. done. }
  destruct (is_linebreak c) eqn:Hc.
  - constructor; [done|]. apply IH; [lia|done].
  - apply IH; [lia|]. rewrite no_linebreak_app.
    apply andb_prop_intro. split; [done|]. simpl. by rewrite Hc.
Qed.

Lemma splitlines_no_linebreak s : Forall (fun line => no_linebreak line) (splitlines s).
Proof. by apply (splitlines_from_no_linebreak (String.length s)). Qed.

(** ** The loader, the validator and the run *)

Section loader_outcomes.
Variable json_load : string -> result pyval.
Variable yaml_safe_load : string -> result pyval.

(** X1. Every call of [load_config] ends in one of four ways. It returns the
    value that the parser of the type gave for the text of the file, and
    leaves the world as it was. It adds one ERROR record to the log and
    returns [None]; the file is there. It raises [FileNotFoundError] with the
    message [File not found:] and the path. Or an exception that is not an
    [Exception], raised by a parser, passes through it. It never raises the
    [ValueError] of its docstring, and it writes no file and prints
    nothing. *)
Theorem load_config_outcome (file_path config_type : string) (w : world) :
  load_outcome json_load yaml_safe_load file_path config_type w
    (load_config json_load yaml_safe_load file_path config_type w)
  ∧ forall msg,
      (load_config json_load yaml_safe_load file_path config_type w).2
      ≠ Raise (ValueError msg).
Proof.
  pose proof (load_config_outcomes json_load yaml_safe_load file_path config_type w) as Hout.
  split; [done|]. intros msg.
  destruct (load_config _ _ _ _ w) as [w' r].
  inversion Hout; subst; simpl; try done.
  intros [= ->]. done.
Qed.

(** X2. A file that is there and whose text the parser of the type rejects
    (a [JSONDecodeError] for [json], a [YAMLError] for [yaml]) is not an
    exception for the caller of [load_config]: the call returns [None], and
    the log has one more ERROR record, [Error loading config file: Invalid
    JSON file:] or [... YAML file:] followed by the message of the parser. *)
Theorem load_config_malformed (file_path config_type content error : string) (w : world) :
  files w !! file_path = Some (Readable content) ->
  malformed json_load yaml_safe_load config_type content error ->
  load_config json_load yaml_safe_load file_path config_type w
  = (add_log (ERROR, "Error loading config file: Invalid "
                     +:+ (if decide (config_type = "json") then "JSON" else "YAML")
                     +:+ " file: " +:+ error) w, Ret PyNone).
Proof. apply load_config_malformed_record. Qed.
End loader_outcomes.

Lemma load_config_malformed_witness :
  load_config example_json example_yaml "bad" "json" example_world
  = (add_log (ERROR, "Error loading config file: Invalid JSON file: "
                     +:+ "Expecting value: line 1 column 1 (char 0)") example_world,
     Ret PyNone).
Proof.
  apply (load_config_malformed example_json example_yaml "bad" "json" "{"
           "Expecting value: line 1 column 1 (char 0)" example_world).
  - reflexivity.
  - left. split; reflexivity.
Defined.

Section validator_outcomes.
Variable json_load : string -> result pyval.
Variable validate : pyval -> pyval -> result unit.

(** X3. Every call of [validate_config] ends in one of four ways: with no
    schema path (none, or the empty string) it returns [True] and reads and
    logs nothing; with a schema file that is JSON and that the value
    satisfies it logs one INFO record and returns [True]; otherwise it logs
    one ERROR record and returns [False], unless an exception that is not an
    [Exception] passes through it. So it raises no [Exception], and it
    returns [True] exactly when there is no schema path or the value
    satisfies the schema. *)
Theorem validate_config_outcome (config_data : pyval) (schema_path : option string)
    (w : world) :
  validate_outcome json_load validate config_data schema_path w
    (validate_config json_load validate config_data schema_path w)
  ∧ ((validate_config json_load validate config_data schema_path w).2 = Ret true
     ↔ truthy schema_path = false
       ∨ satisfies json_load validate config_data schema_path w).
Proof.
  split; [apply validate_config_outcomes|apply validate_config_true].
Qed.
End validator_outcomes.

Section run_theorems.
Variable float_repr : spec_float -> string.
Variable json_load : string -> result pyval.
Variable yaml_safe_load : string -> result pyval.
Variable validate : pyval -> pyval -> result unit.

(** X4. When one of the two files is missing, the run ends with the exit
    code 1 and one ERROR record, [File not found:] with the path of the first
    file if that one is missing and of the second otherwise; no file is read
    or written and nothing is printed. *)
Theorem run_missing_file (args : Args) (w : world) :
  files w !! file1 args = None ∨ files w !! file2 args = None ->
  run float_repr json_load yaml_safe_load validate args w
  = (add_log (ERROR, "File not found: "
                     +:+ (if decide (files w !! file1 args = None) then file1 args
                          else file2 args)) w, 1%Z).
Proof. apply run_missing. Qed.

(** X5. When each of the two files parses or is malformed, and one of them
    is malformed or parses to null, the run ends with the exit code 1. The
    second file is loaded whatever the first one gave, so the log has the
    record of every malformed file, in the order of the arguments; nothing is
    printed and no file is written. *)
Theorem run_malformed_file (args : Args) (content1 content2 : string) (p1 p2 : parsed)
    (w : world) :
  files w !! file1 args = Some (Readable content1) ->
  files w !! file2 args = Some (Readable content2) ->
  parse_result json_load yaml_safe_load (type args) content1 p1 ->
  parse_result json_load yaml_safe_load (type args) content2 p2 ->
  load_value_of p1 = PyNone ∨ load_value_of p2 = PyNone ->
  run float_repr json_load yaml_safe_load validate args w
  = (add_logs (load_records (type args) p1 ++ load_records (type args) p2) w, 1%Z).
Proof. apply run_load_failure. Qed.

(** X6. With a schema path, a run whose first value fails the validation
    (the schema file is missing, it is not JSON, or the value violates it)
    ends with the exit code 1 after the one ERROR record of that failure: the
    second value is not validated, and a missing or malformed schema is
    reported once. When the first value satisfies the schema and the second
    fails, the log has the INFO record of the first and the ERROR record of
    the second. *)
Theorem run_schema_violation (args : Args) (content1 content2 : string)
    (config1 config2 : pyval) (schema_path msg : string) (first_valid : bool) (w : world) :
  files w !! file1 args = Some (Readable content1) ->
  files w !! file2 args = Some (Readable content2) ->
  parses json_load yaml_safe_load (type args) content1 config1 ->
  parses json_load yaml_safe_load (type args) content2 config2 ->
  config1 ≠ PyNone -> config2 ≠ PyNone ->
  schema args = Some schema_path -> schema_path ≠ "" ->
  (if first_valid then
     satisfies json_load validate config1 (Some schema_path) w
     ∧ violates json_load validate config2 schema_path w msg
   else violates json_load validate config1 schema_path w msg) ->
  run float_repr json_load yaml_safe_load validate args w
  = (add_log (ERROR, msg)
       (if first_valid
        then add_log (INFO, "Configuration file is valid against the schema.") w
        else w), 1%Z).
Proof. apply run_violation. Qed.



(** X9. [main] returns, and the process ends with the exit code 0, exactly
    when both files are there and parse to values other than [None], both
    values pass the schema if one is given, and both can be serialized. In
    every other case it ends with an exception: [SystemExit], or one that
    nothing catches. *)
Theorem main_returns_iff (args : Args) (w : world) :
  (main float_repr json_load yaml_safe_load validate args w).2 = Ret tt
  ↔ succeeds float_repr json_load yaml_safe_load validate args w.
Proof. split; [apply main_returns|apply main_succeeds]. Qed.

(** X10. Whatever the arguments and the files, a run changes no file other
    than the one at the path of [--output] (none at all when the option is
    missing or empty), prints nothing when [--output] is given, and only adds
    records to the log. In particular it never writes to its input files,
    unless one of them is named as the output. *)
Theorem run_frame (args : Args) (w : world) :
  let w' := (run float_repr json_load yaml_safe_load validate args w).1 in
  (forall path, output args ≠ Some path -> files w' !! path = files w !! path)
  ∧ (truthy (output args) = false -> files w' = files w)
  ∧ (truthy (output args) = true -> stdout w' = stdout w)
  ∧ log w `prefix_of` log w'.
Proof.
  pose proof (keeps_main float_repr json_load yaml_safe_load validate args w)
    as (Hfiles & _ & Hstdout & Hlog).
  unfold run. destruct (main _ _ _ _ args w) as [w' r]. simpl in *.
  split_and!; [| | |done].
  - intros path Hpath. apply Hfiles. by intros [_ ?].
  - intros Hout. apply map_eq. intros path. apply Hfiles. intros [? _]. congruence.
  - intros Hout. apply Hstdout. by rewrite Hout.
Qed.
End run_theorems.

Lemma run_missing_file_witness :
  run example_repr example_json example_yaml example_validate
      (example_args "f1" "missing" None) example_world
  = (add_log (ERROR, "File not found: "
                     +:+ (if decide (files example_world
                                     !! file1 (example_args "f1" "missing" None) = None)
                          then file1 (example_args "f1" "missing" None)
                          else file2 (example_args "f1" "missing" None))) example_world,
     1%Z).
Proof.
  apply (run_missing_file example_repr example_json example_yaml example_validate
           (example_args "f1" "missing" None) example_world).
  right. reflexivity.
Defined.

Lemma run_malformed_file_witness :
  run example_repr example_json example_yaml example_validate
      {| file1 := "bad"; file2 := "null"; type := "json"; output := None; schema := None |}
      example_world
  = (add_logs (load_records "json" (Malformed "Expecting value: line 1 column 1 (char 0)")
               ++ load_records "json" (Value PyNone)) example_world, 1%Z).
Proof.
  apply (run_malformed_file example_repr example_json example_yaml example_validate
           {| file1 := "bad"; file2 := "null"; type := "json"; output := None;
              schema := None |}
           "{" "null" (Malformed "Expecting value: line 1 column 1 (char 0)") (Value PyNone)
           example_world).
  - reflexivity.
  - reflexivity.
  - left. split; reflexivity.
  - left. split; reflexivity.
  - left. reflexivity.
Defined.

Lemma run_schema_violation_witness :
  run example_repr example_json example_yaml example_validate
      {| file1 := "one"; file2 := "f1"; type := "yaml"; output := None;
         schema := Some "null" |} example_world
  = (add_log (ERROR, "Configuration validation failed: "
                     +:+ "instance is not of type object") example_world, 1%Z).
Proof.
  apply (run_schema_violation example_repr example_json example_yaml example_validate
           {| file1 := "one"; file2 := "f1"; type := "yaml"; output := None;
              schema := Some "null" |}
           "1" "a: 1" (PyInt 1) (PyDict [(KStr "a", PyInt 1)]) "null"
           ("Configuration validation failed: " +:+ "instance is not of type object")
           false example_world).
  - reflexivity.
  - reflexivity.
  - right. split; reflexivity.
  - right. split; reflexivity.
  - discriminate.
  - discriminate.
  - reflexivity.
  - discriminate.
  - right. right. exists "null", PyNone, "instance is not of type object".
    repeat split; reflexivity.
Defined.



(** ** Reading back what [write_diff] wrote *)

(** X11. When nothing fails, the file that [write_diff] leaves holds the
    lines it was given, in order: for lines without a line boundary in them,
    reading the file and splitting its text into lines gives the list
    back, whatever the file held before. *)
Theorem write_diff_read_back (diff : list string) (output_file : string) (w : world) :
  faults w !! output_file = None ->
  Forall (fun line => no_linebreak line) diff ->
  let w' := (write_diff diff output_file w).1 in
  (write_diff diff output_file w).2 = Ret tt
  ∧ exists content, open_r output_file w' = (w', Ret content) ∧ splitlines content = diff.
Proof.
  intros Hfault Hlines w'. subst w'. rewrite write_diff_written by done. simpl.
  split; [done|]. exists (printed diff). split; [|by apply splitlines_printed].
  unfold open_r. simpl. by rewrite lookup_insert_eq.
Qed.

Lemma write_diff_read_back_witness :
  let w' := (write_diff [" {"; "-a"; "+b"; " }"] "f1" example_world).1 in
  (write_diff [" {"; "-a"; "+b"; " }"] "f1" example_world).2 = Ret tt
  ∧ exists content, open_r "f1" w' = (w', Ret content)
                    ∧ splitlines content = [" {"; "-a"; "+b"; " }"].
Proof.
  apply (write_diff_read_back [" {"; "-a"; "+b"; " }"] "f1" example_world).
  - reflexivity.
  - repeat constructor.
Defined.

(** ** The diff as a patch *)

(** *** Slices *)

Lemma lookup_slice {A} (l : list A) (i1 i2 d : nat) :
  slice l i1 i2 !! d = if decide (d < i2 - i1) then l !! (i1 + d) else None.
Proof.
  unfold slice. rewrite lookup_take. case_decide; [|done]. by rewrite lookup_drop.
Qed.

Lemma slice_app {A} (l : list A) (i k i' : nat) :
  i ≤ k -> k ≤ i' -> slice l i k ++ slice l k i' = slice l i i'.
Proof.
  intros Hik Hki. unfold slice.
  replace (drop k l) with (drop (k - i) (drop i l)) by (rewrite drop_drop; f_equal; lia).
  rewrite take_take_drop. f_equal. lia.
Qed.

Lemma slice_drop {A} (l : list A) (i k : nat) : i ≤ k -> slice l i k ++ drop k l = drop i l.
Proof.
  intros Hik. unfold slice.
  replace (drop k l) with (drop (k - i) (drop i l)) by (rewrite drop_drop; f_equal; lia).
  apply take_drop.
Qed.

Lemma slice_empty {A} (l : list A) (i : nat) : slice l i i = [].
Proof. unfold slice. by rewrite Nat.sub_diag. Qed.

Lemma length_slice {A} (l : list A) (i1 i2 : nat) :
  i1 ≤ i2 -> i2 ≤ length l -> length (slice l i1 i2) = i2 - i1.
Proof. intros H1 H2. unfold slice. rewrite length_take, length_drop. lia. Qed.

(** *** The lines of a hunk *)

(** The text of a line of a hunk when it is a line of context or has the
    marker [keep], and nothing otherwise. *)
Definition side (keep : ascii) (line : string) : option string :=
  match line with
  | String c rest => if decide (c = " "%char ∨ c = keep) then Some rest else None
  | "" => None
  end.

(** The lines that a hunk expects in the old file, and the lines that it
    leaves in the new one. *)
Definition old_lines (body : list string) : list string := omap (side "-"%char) body.
Definition new_lines (body : list string) : list string := omap (side "+"%char) body.

(** A hunk: the indices in the old and in the new list of lines where it
    starts, and its lines with their markers. *)
Record hunk := Hunk { old_start : nat; new_start : nat; body : list string }.

Definition old_stop (h : hunk) : nat := old_start h + length (old_lines (body h)).
Definition new_stop (h : hunk) : nat := new_start h + length (new_lines (body h)).

(** The lines of a hunk in the unified format: the line of the two ranges,
    then the body. *)
Definition hunk_lines (h : hunk) : list string :=
  ("@@ -" +:+ _format_range_unified (old_start h) (old_stop h)
   +:+ " +" +:+ _format_range_unified (new_start h) (new_stop h) +:+ " @@" +:+ NL)
  :: body h.

(** The text of a patch: nothing without a hunk, and otherwise the two lines
    of the header and the lines of the hunks. *)
Definition patch_lines (fromfile tofile : string) (hunks : list hunk) : list string :=
  match hunks with
  | [] => []
  | _ => ("--- " +:+ fromfile +:+ NL) :: ("+++ " +:+ tofile +:+ NL)
         :: concat (map hunk_lines hunks)
  end.

(** Applying the hunks, in order, to the lines [old] from the index [pos]
    on: a hunk applies when it starts at [pos] or after and the old lines at
    its place are the ones it expects; the lines between the hunks are
    kept. *)
Fixpoint patch (pos : nat) (old : list string) (hunks : list hunk) : option (list string) :=
  match hunks with
  | [] => Some (drop pos old)
  | h :: hunks' =>
      if decide (pos ≤ old_start h
                 ∧ slice old (old_start h) (old_stop h) = old_lines (body h))
      then rest ← patch (old_stop h) old hunks';
           Some (slice old pos (old_start h) ++ new_lines (body h) ++ rest)
      else None
  end.

Lemma patch_cons pos old h hunks :
  patch pos old (h :: hunks)
  = if decide (pos ≤ old_start h ∧ slice old (old_start h) (old_stop h) = old_lines (body h))
    then rest ← patch (old_stop h) old hunks;
         Some (slice old pos (old_start h) ++ new_lines (body h) ++ rest)
    else None.
Proof. done. Qed.

(** The hunk in the other direction: what it added is removed, and what it
    removed is added. *)
Definition reverse_hunk (h : hunk) : hunk :=
  Hunk (new_start h) (old_start h) (map swap_marker (body h)).

Lemma omap_cons_match {A B} (f : A -> option B) (x : A) (l : list A) :
  omap f (x :: l) = match f x with Some y => y :: omap f l | None => omap f l end.
Proof. done. Qed.

Lemma side_swap_marker line : side "-"%char (swap_marker line) = side "+"%char line.
Proof.
  destruct line as [|c rest]; [done|]. unfold swap_marker.
  destruct (decide (c = "+"%char)) as [->|Hplus]; [done|].
  destruct (decide (c = "-"%char)) as [->|Hminus]; [done|].
  simpl. destruct (decide (c = " "%char)) as [->|Hspace]; [done|].
  rewrite !decide_False by (intros [?|?]; done). done.
Qed.

Lemma swap_marker_involutive line : swap_marker (swap_marker line) = line.
Proof.
  destruct line as [|c rest]; [done|]. unfold swap_marker.
  destruct (decide (c = "+"%char)) as [->|Hplus]; [done|].
  destruct (decide (c = "-"%char)) as [->|Hminus]; [done|].
  by rewrite !decide_False by done.
Qed.

Lemma old_lines_swap body : old_lines (map swap_marker body) = new_lines body.
Proof.
  unfold old_lines, new_lines. induction body as [|line body IH]; [done|].
  simpl map. rewrite !omap_cons_match. by rewrite side_swap_marker, IH.
Qed.

Lemma new_lines_swap body : new_lines (map swap_marker body) = old_lines body.
Proof.
  rewrite <-(old_lines_swap (map swap_marker body)). f_equal.
  induction body as [|line body IH]; [done|].
  simpl. by rewrite swap_marker_involutive, IH.
Qed.

Lemma side_marked keep c (lines : list string) :
  omap (side keep) (map (fun line => String c "" +:+ line) lines)
  = if decide (c = " "%char ∨ c = keep) then lines else [].
Proof.
  induction lines as [|line lines IH]; [by case_decide|].
  simpl map. rewrite omap_cons_match, IH. unfold side at 1.
  rewrite str_app_cons, str_app_nil_l. by case_decide.
Qed.

(** *** The opcodes tile the two lists *)

Section tiling.
Variables a b : list string.

(** The two lists agree on [d] elements from the indices [i] and [j] on,
    and on all elements from there on. *)
Definition gap (i j d : nat) : Prop := forall x, x < d -> a !! (i + x) = b !! (j + x).
Definition same_rest (i j : nat) : Prop := forall x, a !! (i + x) = b !! (j + x).

(** An opcode is sound: its ranges are ranges of the two lists, an [equal]
    has the same elements on both sides, a [delete] has no element of [b]
    and an [insert] no element of [a]. *)
Definition op_ok (c : opcode) : Prop :=
  op_i1 c ≤ op_i2 c ∧ op_i2 c ≤ length a ∧ op_j1 c ≤ op_j2 c ∧ op_j2 c ≤ length b
  ∧ match op_tag c with
    | equal_ => op_i2 c - op_i1 c = op_j2 c - op_j1 c
                ∧ gap (op_i1 c) (op_j1 c) (op_i2 c - op_i1 c)
    | delete_ => op_j1 c = op_j2 c
    | insert_ => op_i1 c = op_i2 c
    | replace_ => True
    end.

(** Sound opcodes, each one starting where the one before ends, from
    [(i, j)] to [(i', j')]. *)
Fixpoint tiles (i j : nat) (codes : list opcode) (i' j' : nat) : Prop :=
  match codes with
  | [] => i = i' ∧ j = j'
  | c :: codes' =>
      op_i1 c = i ∧ op_j1 c = j ∧ op_ok c ∧ tiles (op_i2 c) (op_j2 c) codes' i' j'
  end.

Lemma tiles_app i j codes1 codes2 i' j' k l :
  tiles i j codes1 k l -> tiles k l codes2 i' j' -> tiles i j (codes1 ++ codes2) i' j'.
Proof.
  revert i j. induction codes1 as [|c codes1 IH]; intros i j H1 H2; simpl in *.
  - by destruct H1 as [-> ->].
  - destruct H1 as (? & ? & ? & ?). split_and!; [done..|]. by apply IH.
Qed.

Lemma tiles_le i j codes i' j' : tiles i j codes i' j' -> i ≤ i' ∧ j ≤ j'.
Proof.
  revert i j. induction codes as [|c codes IH]; intros i j H; simpl in H.
  - lia.
  - destruct H as (<- & <- & (? & ? & ? & ? & _) & Hrest). apply IH in Hrest. lia.
Qed.

Lemma tiles_head i j codes i' j' :
  tiles i j codes i' j' -> codes ≠ [] ->
  op_i1 (default (Opcode equal_ 0 0 0 0) (head codes)) = i
  ∧ op_j1 (default (Opcode equal_ 0 0 0 0) (head codes)) = j.
Proof. destruct codes as [|c codes]; [done|]. simpl. by intros (? & ? & _) _. Qed.

Lemma tiles_last i j codes i' j' :
  tiles i j codes i' j' -> codes ≠ [] ->
  op_i2 (default (Opcode equal_ 0 0 0 0) (last codes)) = i'
  ∧ op_j2 (default (Opcode equal_ 0 0 0 0) (last codes)) = j'.
Proof.
  revert i j. induction codes as [|c codes IH]; intros i j H Hne; [done|].
  simpl in H. destruct H as (_ & _ & _ & Hrest).
  destruct codes as [|c' codes]; [by destruct Hrest|].
  rewrite last_cons_cons. by apply (IH _ _ Hrest).
Qed.

Lemma tiles_bounds i j codes i' j' :
  tiles i j codes i' j' -> codes ≠ [] -> i' ≤ length a ∧ j' ≤ length b.
Proof.
  revert i j. induction codes as [|c codes IH]; intros i j H Hne; [done|].
  simpl in H. destruct H as (_ & _ & (? & ? & ? & ? & _) & Hrest).
  destruct codes as [|c' codes]; [destruct Hrest; lia|].
  by apply (IH _ _ Hrest).
Qed.

(** The opcodes of a chain of matching blocks that ends with the sentinel. *)
Lemma opcodes_from_tiles blocks :
  forall i j ei ej,
    chain_from a b i j blocks -> last blocks = Some (ei, ej, 0) ->
    tiles i j (opcodes_from i j blocks) ei ej.
Proof.
  induction blocks as [|[[ai bj] size] blocks IH]; intros i j ei ej Hchain Hlast; [done|].
  simpl in Hchain. destruct Hchain as (Hi & Hj & Hm & Ha & Hb & Hrest).
  assert (tiles (ai + size) (bj + size) (opcodes_from (ai + size) (bj + size) blocks) ei ej)
    as Htail.
  { destruct blocks as [|next blocks].
    - simpl in Hlast. simplify_eq. simpl. lia.
    - apply IH; [done|]. by rewrite last_cons_cons in Hlast. }
  assert (tiles ai bj
            ((if decide (size = 0) then [] else [Opcode equal_ ai (ai + size) bj (bj + size)])
             ++ opcodes_from (ai + size) (bj + size) blocks) ei ej) as Hequal.
  { case_decide as Hsize.
    - subst size. rewrite !Nat.add_0_r in *. done.
    - simpl. split_and!; [done..| |done].
      unfold op_ok. simpl. split_and!; [lia..|].
      intros x Hx. apply (matches_lookup a b ai bj size); [done|lia]. }
  simpl opcodes_from. simpl in Ha, Hb, Hi, Hj.
  destruct (decide (i < ai ∧ j < bj)) as [[? ?]|Hreplace].
  { simpl. split_and!; [done|done| |done]. unfold op_ok. simpl. split_and!; lia || done. }
  destruct (decide (i < ai)) as [?|Hdelete].
  { simpl. split_and!; [done|done| |done]. unfold op_ok. simpl. lia. }
  destruct (decide (j < bj)) as [?|Hinsert].
  { simpl. split_and!; [done|done| |done]. unfold op_ok. simpl. lia. }
  replace i with ai by lia. replace j with bj by lia. done.
Qed.

Lemma get_opcodes_tiles : tiles 0 0 (get_opcodes a b) (length a) (length b).
Proof.
  destruct (get_matching_blocks_chain a b) as [Hchain Hlast].
  by apply opcodes_from_tiles.
Qed.

(** *** The two sides of the lines of the opcodes *)

Lemma gap_slice i j d : gap i j d -> slice a i (i + d) = slice b j (j + d).
Proof.
  intros Hgap. apply list_eq. intros x. rewrite !lookup_slice.
  replace (i + d - i) with d by lia. replace (j + d - j) with d by lia.
  case_decide; [by apply Hgap|done].
Qed.

Lemma same_rest_drop i j : same_rest i j -> drop i a = drop j b.
Proof. intros Hrest. apply list_eq. intros x. rewrite !lookup_drop. apply Hrest. Qed.

Lemma opcode_old_lines c :
  op_ok c -> old_lines (opcode_lines a b c) = slice a (op_i1 c) (op_i2 c).
Proof.
  intros (Hi & _ & Hj & _ & Htag). unfold opcode_lines, old_lines.
  destruct (op_tag c).
  - rewrite omap_app.
    rewrite (side_marked "-"%char "-"%char), (side_marked "-"%char "+"%char).
    simpl. by rewrite app_nil_r.
  - by rewrite (side_marked "-"%char "-"%char).
  - rewrite (side_marked "-"%char "+"%char). simpl. rewrite <-Htag. by rewrite slice_empty.
  - by rewrite (side_marked "-"%char " "%char).
Qed.

Lemma opcode_new_lines c :
  op_ok c -> new_lines (opcode_lines a b c) = slice b (op_j1 c) (op_j2 c).
Proof.
  intros (Hi & _ & Hj & _ & Htag). unfold opcode_lines, new_lines.
  destruct (op_tag c).
  - rewrite omap_app.
    by rewrite (side_marked "+"%char "-"%char), (side_marked "+"%char "+"%char).
  - rewrite (side_marked "+"%char "-"%char). simpl. rewrite <-Htag. by rewrite slice_empty.
  - by rewrite (side_marked "+"%char "+"%char).
  - rewrite (side_marked "+"%char " "%char). simpl. destruct Htag as [Hlen Hgap].
    replace (op_i2 c) with (op_i1 c + (op_i2 c - op_i1 c)) by lia.
    replace (op_j2 c) with (op_j1 c + (op_i2 c - op_i1 c)) by lia.
    by apply gap_slice.
Qed.

Lemma tiles_old_lines i j codes i' j' :
  tiles i j codes i' j' ->
  old_lines (concat (map (opcode_lines a b) codes)) = slice a i i'.
Proof.
  revert i j. induction codes as [|c codes IH]; intros i j H; simpl in H.
  - destruct H as [-> _]. by rewrite slice_empty.
  - destruct H as (<- & <- & Hok & Hrest). simpl. unfold old_lines in *.
    rewrite omap_app. rewrite (IH _ _ Hrest).
    pose proof (opcode_old_lines c Hok) as Hc. unfold old_lines in Hc. rewrite Hc.
    apply slice_app; [by destruct Hok|]. by apply tiles_le in Hrest as [? _].
Qed.

Lemma tiles_new_lines i j codes i' j' :
  tiles i j codes i' j' ->
  new_lines (concat (map (opcode_lines a b) codes)) = slice b j j'.
Proof.
  revert i j. induction codes as [|c codes IH]; intros i j H; simpl in H.
  - destruct H as [_ ->]. by rewrite slice_empty.
  - destruct H as (<- & <- & Hok & Hrest). simpl. unfold new_lines in *.
    rewrite omap_app. rewrite (IH _ _ Hrest).
    pose proof (opcode_new_lines c Hok) as Hc. unfold new_lines in Hc. rewrite Hc.
    apply slice_app; [by destruct Hok as (_ & _ & ? & _)|].
    by apply tiles_le in Hrest as [_ ?].
Qed.
End tiling.

(** *** The groups of opcodes *)

Section grouping.
Variables a b : list string.

(** The groups account for the two lists from [(i, j)] on: up to the first
    group the lists agree, the group tiles the lists, and so on after it;
    after the last group the lists agree to their ends. *)
Fixpoint patched (i j : nat) (groups : list (list opcode)) : Prop :=
  match groups with
  | [] => same_rest a b i j
  | group :: groups' =>
      exists d i2 j2,
        gap a b i j d ∧ group ≠ [] ∧ tiles a b (i + d) (j + d) group i2 j2
        ∧ patched i2 j2 groups'
  end.

Lemma gap_add i j d1 d2 :
  gap a b i j d1 -> gap a b (i + d1) (j + d1) d2 -> gap a b i j (d1 + d2).
Proof.
  intros H1 H2 x Hx. destruct (decide (x < d1)) as [?|?]; [by apply H1|].
  replace (i + x) with (i + d1 + (x - d1)) by lia.
  replace (j + x) with (j + d1 + (x - d1)) by lia. apply H2. lia.
Qed.

Lemma gap_rest i j d :
  gap a b i j d -> same_rest a b (i + d) (j + d) -> same_rest a b i j.
Proof.
  intros H1 H2 x. destruct (decide (x < d)) as [?|?]; [by apply H1|].
  replace (i + x) with (i + d + (x - d)) by lia.
  replace (j + x) with (j + d + (x - d)) by lia. apply H2.
Qed.

Lemma gap_shift i j d s : gap a b i j d -> gap a b (i + s) (j + s) (d - s).
Proof.
  intros H x Hx. rewrite <-!Nat.add_assoc. apply H. lia.
Qed.

Lemma patched_gap i j d groups :
  gap a b i j d -> patched (i + d) (j + d) groups -> patched i j groups.
Proof.
  intros Hgap. destruct groups as [|group groups]; simpl.
  - by apply gap_rest.
  - intros (d' & i2 & j2 & Hgap' & Hne & Htiles & Hrest).
    exists (d + d'), i2, j2. split_and!; [by apply gap_add|done| |done].
    by rewrite !Nat.add_assoc.
Qed.

Lemma op_ok_trim_end n c : op_ok a b c -> op_tag c = equal_ -> op_ok a b (trim_end n c).
Proof.
  intros (Hi & Ha & Hj & Hb & Htag) Hequal. rewrite Hequal in Htag.
  destruct Htag as [Hlen Hgap]. unfold op_ok, trim_end. simpl. rewrite Hequal.
  split_and!; try lia. intros x Hx. apply Hgap. lia.
Qed.

Lemma op_ok_trim_start n c :
  op_ok a b c -> op_tag c = equal_ -> op_ok a b (trim_start n c).
Proof.
  intros (Hi & Ha & Hj & Hb & Htag) Hequal. rewrite Hequal in Htag.
  destruct Htag as [Hlen Hgap]. unfold op_ok, trim_start. simpl. rewrite Hequal.
  split_and!; try lia. intros x Hx.
  replace (op_i1 c `max` (op_i2 c - n) + x)
    with (op_i1 c + (op_i1 c `max` (op_i2 c - n) - op_i1 c + x)) by lia.
  replace (op_j1 c `max` (op_j2 c - n) + x)
    with (op_j1 c + (op_i1 c `max` (op_i2 c - n) - op_i1 c + x)) by lia.
  apply Hgap. lia.
Qed.

Lemma group_loop_patched n codes :
  forall group gi gj ci cj ei ej,
    tiles a b gi gj group ci cj -> tiles a b ci cj codes ei ej -> same_rest a b ei ej ->
    patched gi gj (group_loop n codes group).
Proof.
  induction codes as [|c codes IH]; intros group gi gj ci cj ei ej Hgroup Hcodes Hrest.
  - simpl in Hcodes. destruct Hcodes as [-> ->]. simpl group_loop.
    assert (group ≠ [] -> patched gi gj [group]) as Hone.
    { intros Hne. exists 0, ei, ej. rewrite !Nat.add_0_r.
      split_and!; [|done..]. intros x Hx. lia. }
    destruct group as [|c1 [|c2 group]]; [|case_decide as Htag|by apply Hone].
    + destruct Hgroup as [-> ->]. done.
    + simpl. destruct Hgroup as (<- & <- & (Hi & _ & Hj & _ & Hok) & <- & <-).
      rewrite Htag in Hok. destruct Hok as [Hlen Hgap].
      apply (gap_rest _ _ (op_i2 c1 - op_i1 c1)); [done|].
      replace (op_i1 c1 + (op_i2 c1 - op_i1 c1)) with (op_i2 c1) by lia.
      by replace (op_j1 c1 + (op_i2 c1 - op_i1 c1)) with (op_j2 c1) by lia.
    + by apply Hone.
  - simpl in Hcodes. destruct Hcodes as (<- & <- & Hok & Hcodes). simpl group_loop.
    case_decide as Hlong.
    + destruct Hlong as [Htag Hlong].
      pose proof Hok as (Hi & Ha & Hj & Hb & Hequal). rewrite Htag in Hequal.
      destruct Hequal as [Hlen Hgap].
      exists 0, (op_i1 c + n), (op_j1 c + n). rewrite !Nat.add_0_r. split_and!.
      * intros x Hx. lia.
      * by destruct group.
      * apply (tiles_app a b _ _ _ _ _ _ _ _ Hgroup). simpl.
        split_and!; [done|done|by apply op_ok_trim_end|lia|lia].
      * apply (patched_gap _ _ (op_i2 c - n - (op_i1 c + n))).
        { intros x Hx. rewrite <-!Nat.add_assoc. apply Hgap. lia. }
        apply (IH _ _ _ (op_i2 c) (op_j2 c) ei ej); [|done..].
        simpl. split_and!; [lia|lia|by apply op_ok_trim_start|done|done].
    + apply (IH _ _ _ (op_i2 c) (op_j2 c) ei ej); [|done..].
      apply (tiles_app a b _ _ _ _ _ _ _ _ Hgroup). by simpl.
Qed.

Lemma fixup_first_tiles n codes i j ei ej :
  tiles a b i j codes ei ej ->
  exists d, gap a b i j d ∧ tiles a b (i + d) (j + d) (fixup_first n codes) ei ej.
Proof.
  intros Htiles.
  assert (gap a b i j 0) as Hzero by (intros x Hx; lia).
  destruct codes as [|c codes]; simpl.
  { exists 0. by rewrite !Nat.add_0_r. }
  case_decide as Htag; [|exists 0; by rewrite !Nat.add_0_r].
  simpl in Htiles. destruct Htiles as (<- & <- & Hok & Hcodes).
  pose proof Hok as (Hi & Ha & Hj & Hb & Hequal). rewrite Htag in Hequal.
  destruct Hequal as [Hlen Hgap].
  exists (op_i1 c `max` (op_i2 c - n) - op_i1 c). split.
  - intros x Hx. apply Hgap. lia.
  - simpl. split_and!; [lia|lia|by apply op_ok_trim_start|done].
Qed.

Lemma fixup_last_tiles n codes :
  forall i j ei ej,
    tiles a b i j codes ei ej -> same_rest a b ei ej ->
    exists ei' ej', tiles a b i j (fixup_last n codes) ei' ej' ∧ same_rest a b ei' ej'.
Proof.
  induction codes as [|c [|c' codes] IH]; intros i j ei ej Htiles Hrest.
  - by exists ei, ej.
  - simpl. case_decide as Htag; [|by exists ei, ej].
    simpl in Htiles. destruct Htiles as (<- & <- & Hok & <- & <-).
    pose proof Hok as (Hi & Ha & Hj & Hb & Hequal). rewrite Htag in Hequal.
    destruct Hequal as [Hlen Hgap].
    exists (op_i2 c `min` (op_i1 c + n)), (op_j2 c `min` (op_j1 c + n)). split.
    + simpl. split_and!; [done|done|by apply op_ok_trim_end|done|done].
    + apply (gap_rest _ _ (op_i2 c - op_i2 c `min` (op_i1 c + n))).
      * intros x Hx.
        replace (op_i2 c `min` (op_i1 c + n) + x)
          with (op_i1 c + (op_i2 c `min` (op_i1 c + n) - op_i1 c + x)) by lia.
        replace (op_j2 c `min` (op_j1 c + n) + x)
          with (op_j1 c + (op_i2 c `min` (op_i1 c + n) - op_i1 c + x)) by lia.
        apply Hgap. lia.
      * replace (op_i2 c `min` (op_i1 c + n) + (op_i2 c - op_i2 c `min` (op_i1 c + n)))
          with (op_i2 c) by lia.
        by replace (op_j2 c `min` (op_j1 c + n) + (op_i2 c - op_i2 c `min` (op_i1 c + n)))
          with (op_j2 c) by lia.
  - change (fixup_last n (c :: c' :: codes)) with (c :: fixup_last n (c' :: codes)).
    simpl in Htiles. destruct Htiles as (Hi1 & Hj1 & Hok & Htiles).
    destruct (IH _ _ _ _ Htiles Hrest) as (ei' & ej' & Htiles' & Hrest').
    exists ei', ej'. split; [|done]. simpl. by split_and!.
Qed.
End grouping.

Lemma get_grouped_opcodes_patched a b : patched a b 0 0 (get_grouped_opcodes a b 3).
Proof.
  pose proof (get_opcodes_tiles a b) as Htiles. unfold get_grouped_opcodes.
  destruct (get_opcodes a b) as [|c codes] eqn:Hcodes.
  { simpl in Htiles. destruct Htiles as [Ha Hb].
    intros x. rewrite !lookup_ge_None_2 by lia. done. }
  assert (same_rest a b (length a) (length b)) as Hrest.
  { intros x. by rewrite !lookup_ge_None_2 by lia. }
  destruct (fixup_first_tiles a b 3 _ _ _ _ _ Htiles) as (d & Hgap & Hfirst).
  destruct (fixup_last_tiles a b 3 _ _ _ _ _ Hfirst Hrest) as (ei & ej & Hlast & Hrest').
  apply (patched_gap a b 0 0 d); [done|].
  by apply (group_loop_patched a b 3 _ [] _ _ (0 + d) (0 + d) ei ej).
Qed.

(** *** The hunks of the diff *)

Section hunks.
Variables a b : list string.

(** The hunk of a group of opcodes. *)
Definition hunk_of (group : list opcode) : hunk :=
  let first := default (Opcode equal_ 0 0 0 0) (head group) in
  Hunk (op_i1 first) (op_j1 first) (concat (map (opcode_lines a b) group)).

Lemma hunk_of_tiles group i1 j1 i2 j2 :
  tiles a b i1 j1 group i2 j2 -> group ≠ [] ->
  old_start (hunk_of group) = i1 ∧ new_start (hunk_of group) = j1
  ∧ old_lines (body (hunk_of group)) = slice a i1 i2
  ∧ new_lines (body (hunk_of group)) = slice b j1 j2
  ∧ old_stop (hunk_of group) = i2 ∧ new_stop (hunk_of group) = j2.
Proof.
  intros Htiles Hne.
  destruct (tiles_head a b _ _ _ _ _ Htiles Hne) as [Hi1 Hj1].
  destruct (tiles_bounds a b _ _ _ _ _ Htiles Hne) as [Ha Hb].
  destruct (tiles_le a b _ _ _ _ _ Htiles) as [Hi Hj].
  pose proof (tiles_old_lines a b _ _ _ _ _ Htiles) as Hold.
  pose proof (tiles_new_lines a b _ _ _ _ _ Htiles) as Hnew.
  unfold old_stop, new_stop, hunk_of. simpl.
  rewrite Hold, Hnew, !length_slice by done. split_and!; [done..|lia|lia].
Qed.

Lemma group_lines_hunk_lines group i1 j1 i2 j2 :
  tiles a b i1 j1 group i2 j2 -> group ≠ [] ->
  group_lines a b group = hunk_lines (hunk_of group).
Proof.
  intros Htiles Hne.
  destruct (hunk_of_tiles _ _ _ _ _ Htiles Hne) as (_ & _ & _ & _ & Hstop1 & Hstop2).
  destruct (tiles_last a b _ _ _ _ _ Htiles Hne) as [Hi2 Hj2].
  unfold group_lines, hunk_lines, lineterm. rewrite Hstop1, Hstop2, Hi2, Hj2. done.
Qed.

Lemma patched_lines groups :
  forall i j, patched a b i j groups ->
  map (group_lines a b) groups = map (fun group => hunk_lines (hunk_of group)) groups.
Proof.
  induction groups as [|group groups IH]; intros i j Hpatched; [done|].
  destruct Hpatched as (d & i2 & j2 & _ & Hne & Htiles & Hrest). simpl.
  rewrite (group_lines_hunk_lines _ _ _ _ _ Htiles Hne). f_equal. by apply (IH i2 j2).
Qed.

Lemma patched_patch groups :
  forall i j, patched a b i j groups ->
  patch i a (map hunk_of groups) = Some (drop j b).
Proof.
  induction groups as [|group groups IH]; intros i j Hpatched.
  { simpl. f_equal. by apply same_rest_drop. }
  destruct Hpatched as (d & i2 & j2 & Hgap & Hne & Htiles & Hrest).
  destruct (hunk_of_tiles _ _ _ _ _ Htiles Hne)
    as (Hstart1 & Hstart2 & Hold & Hnew & Hstop1 & Hstop2).
  destruct (tiles_le a b _ _ _ _ _ Htiles) as [Hi Hj].
  simpl map. rewrite patch_cons.
  rewrite Hstop1, Hstart1, Hold, Hnew. rewrite decide_True by (split; [lia|done]).
  rewrite (IH _ _ Hrest). simpl. f_equal.
  rewrite (gap_slice a b _ _ _ Hgap).
  rewrite (slice_drop b (j + d) j2) by done. apply slice_drop. lia.
Qed.

Lemma patched_reverse groups :
  forall i j, patched a b i j groups ->
  patch j b (map (fun group => reverse_hunk (hunk_of group)) groups) = Some (drop i a).
Proof.
  induction groups as [|group groups IH]; intros i j Hpatched.
  { simpl. f_equal. symmetry. by apply same_rest_drop. }
  destruct Hpatched as (d & i2 & j2 & Hgap & Hne & Htiles & Hrest).
  destruct (hunk_of_tiles _ _ _ _ _ Htiles Hne)
    as (Hstart1 & Hstart2 & Hold & Hnew & Hstop1 & Hstop2).
  destruct (tiles_le a b _ _ _ _ _ Htiles) as [Hi Hj].
  simpl map. rewrite patch_cons.
  assert (old_stop (reverse_hunk (hunk_of group)) = new_stop (hunk_of group)) as ->.
  { unfold old_stop, new_stop, reverse_hunk. simpl. by rewrite old_lines_swap. }
  change (old_start (reverse_hunk (hunk_of group))) with (new_start (hunk_of group)).
  change (body (reverse_hunk (hunk_of group))) with (map swap_marker (body (hunk_of group))).
  rewrite old_lines_swap, new_lines_swap.
  rewrite Hstop2, Hstart2, Hold, Hnew. rewrite decide_True by (split; [lia|done]).
  rewrite (IH _ _ Hrest). simpl. f_equal.
  rewrite <-(gap_slice a b _ _ _ Hgap).
  rewrite (slice_drop a (i + d) i2) by done. apply slice_drop. lia.
Qed.
End hunks.

Lemma unified_diff_hunks a b fromfile tofile :
  exists hunks,
    unified_diff a b fromfile tofile = patch_lines fromfile tofile hunks
    ∧ patch 0 a hunks = Some b
    ∧ patch 0 b (map reverse_hunk hunks) = Some a.
Proof.
  pose proof (get_grouped_opcodes_patched a b) as Hpatched.
  exists (map (hunk_of a b) (get_grouped_opcodes a b 3)). split_and!.
  - pose proof (patched_lines a b _ 0 0 Hpatched) as Hlines.
    unfold unified_diff, patch_lines, lineterm.
    destruct (get_grouped_opcodes a b 3) as [|group groups]; [done|].
    rewrite Hlines, map_map. done.
  - by rewrite (patched_patch a b _ 0 0 Hpatched).
  - rewrite map_map. by rewrite (patched_reverse a b _ 0 0 Hpatched).
Qed.

Section diff_as_patch.
Variable float_repr : spec_float -> string.

(** X12. The diff that [diff_configs] returns is a patch from the lines of
    the first text to the lines of the second. Its lines are the two lines
    of the header and the lines of a list of hunks, each with the line of its
    two ranges and its body; the hunks follow each other in the first text,
    the lines of context and the removed lines of each hunk are the lines of
    the first text at the place the hunk names, and replacing them by the
    lines of context and the added lines, hunk after hunk, gives the lines of
    the second text. With the markers [+] and [-] swapped, the same hunks are
    a patch from the second text back to the first. *)
Theorem diff_configs_patch (config1 config2 : pyval) (text1 text2 : string) :
  json_dumps float_repr config1 = Ret text1 ->
  json_dumps float_repr config2 = Ret text2 ->
  exists hunks,
    diff_configs float_repr config1 config2 = Ret (patch_lines "file1" "file2" hunks)
    ∧ patch 0 (splitlines text1) hunks = Some (splitlines text2)
    ∧ patch 0 (splitlines text2) (map reverse_hunk hunks) = Some (splitlines text1).
Proof.
  intros H1 H2.
  destruct (unified_diff_hunks (splitlines text1) (splitlines text2) "file1" "file2")
    as (hunks & Hlines & Hpatch & Hreverse).
  exists hunks. split_and!; [|done..].
  unfold diff_configs. by rewrite H1, H2, !rbind_Ret, Hlines.
Qed.
End diff_as_patch.

Lemma diff_configs_patch_witness :
  exists hunks,
    diff_configs example_repr example_120 example_210
    = Ret (patch_lines "file1" "file2" hunks)
    ∧ patch 0 (splitlines (canonical example_repr 0 example_120)) hunks
      = Some (splitlines (canonical example_repr 0 example_210))
    ∧ patch 0 (splitlines (canonical example_repr 0 example_210)) (map reverse_hunk hunks)
      = Some (splitlines (canonical example_repr 0 example_120)).
Proof.
  apply (diff_configs_patch example_repr example_120 example_210).
  - reflexivity.
  - reflexivity.
Defined.

(** ** The namespace of a successful parse *)

Section parser_invariant.
Variable self : ArgumentParser.
(** A property of the namespace and of the actions seen that every call of
    [take_action] keeps, for the actions of the parser and, for an option, at
    most one argument string. *)
Variable inv : Namespace -> list Action -> Prop.

Definition call_ok (action : Action) (args : list string) : Prop :=
  action ∈ _actions self ∧ (option_strings action ≠ [] -> length args ≤ 1).

Hypothesis take_action_inv : forall action args st st',
  call_ok action args -> inv (namespace st) (seen_actions st) ->
  take_action action args st = Done st' ->
  inv (namespace st') (seen_actions st').

Definition state_ok (st : parse_state) : Prop :=
  inv (namespace st) (seen_actions st)
  ∧ Forall (fun action => action ∈ _actions self ∧ option_strings action = [])
           (positionals st).

Definition tuples_ok (indices : gmap nat option_tuple) : Prop :=
  forall i action option_string explicit_arg,
    indices !! i = Some (Some action, option_string, explicit_arg) ->
    action ∈ _actions self ∧ option_strings action ≠ [].

Lemma option_string_action option_string action :
  (option_string, action) ∈ _option_string_actions self ->
  action ∈ _actions self ∧ option_strings action ≠ [].
Proof.
  unfold _option_string_actions. intros Hin.
  apply list_elem_of_In, in_concat in Hin as (l & Hl & Hin).
  apply in_map_iff in Hl as (action' & <- & Haction).
  apply in_map_iff in Hin as (option_string' & [= <- <-] & Hin).
  split; [by apply list_elem_of_In|]. by destruct (option_strings action').
Qed.

Lemma lookup_option_in_elem l option_string action :
  lookup_option_in l option_string = Some action -> (option_string, action) ∈ l.
Proof.
  induction l as [|[option_string' action'] l IH]; [done|]. simpl.
  case_decide as Heq.
  - intros [= <-]. subst. by left.
  - intros Hl. right. by apply IH.
Qed.

Lemma lookup_option_known option_string action :
  lookup_option self option_string = Some action ->
  action ∈ _actions self ∧ option_strings action ≠ [].
Proof. intros Hl. by apply (option_string_action option_string), lookup_option_in_elem. Qed.

Lemma _get_option_tuples_known arg_string option_tuples action option_string explicit_arg :
  _get_option_tuples self arg_string = Done option_tuples ->
  (Some action, option_string, explicit_arg) ∈ option_tuples ->
  action ∈ _actions self ∧ option_strings action ≠ [].
Proof.
  unfold _get_option_tuples. intros Hget Hin.
  assert (forall f : string * Action -> option option_tuple,
            (forall entry tuple, f entry = Some tuple -> tuple.1.1 = Some entry.2) ->
            (Some action, option_string, explicit_arg) ∈ omap f (_option_string_actions self) ->
            action ∈ _actions self ∧ option_strings action ≠ []) as Homap.
  { intros f Hf Helem. apply list_elem_of_omap in Helem as ([os a] & Hentry & Hsome).
    apply Hf in Hsome. simpl in Hsome. injection Hsome as <-.
    by apply (option_string_action os). }
  destruct arg_string as [|c0 [|c1 rest]]; try done.
  case_decide as Hlong.
  - destruct (contains "="%char _); [destruct (split_once _ _)|]; injection Hget as <-;
      (eapply Homap; [|exact Hin]); intros entry tuple Hf; cbv beta in Hf; repeat case_match; by simplify_eq.
  - case_decide; [|done]. injection Hget as <-. eapply Homap; [|exact Hin].
    intros entry tuple Hf. cbv beta in Hf. repeat case_match; by simplify_eq.
Qed.

Lemma _parse_optional_known arg_string action option_string explicit_arg :
  _parse_optional self arg_string = Done (Some (Some action, option_string, explicit_arg)) ->
  action ∈ _actions self ∧ option_strings action ≠ [].
Proof.
  unfold _parse_optional. case_decide; [done|].
  destruct (negb (startswith arg_string "-")); [done|].
  destruct (lookup_option self arg_string) as [action'|] eqn:Hlookup.
  { intros [= <- <- <-]. by apply (lookup_option_known arg_string). }
  case_decide; [done|].
  destruct (contains "="%char arg_string) eqn:Hequals.
  - destruct (split_once "="%char arg_string) as [before after].
    destruct (lookup_option self before) as [action'|] eqn:Hbefore.
    { intros [= <- <- <-]. by apply (lookup_option_known before). }
    destruct (_get_option_tuples self arg_string) as [tuples|e] eqn:Htuples; [|done].
    simpl. destruct tuples as [|tuple [|tuple' tuples]]; [|intros [= ->]|done].
    + by repeat case_match.
    + apply (_get_option_tuples_known arg_string _ _ option_string explicit_arg Htuples).
      by left.
  - destruct (_get_option_tuples self arg_string) as [tuples|e] eqn:Htuples; [|done].
    simpl. destruct tuples as [|tuple [|tuple' tuples]]; [|intros [= ->]|done].
    + by repeat case_match.
    + apply (_get_option_tuples_known arg_string _ _ option_string explicit_arg Htuples).
      by left.
Qed.

Lemma classify_tuples_ok arg_strings :
  forall i classified, classify self i arg_strings = Done classified -> tuples_ok classified.2.
Proof.
  induction arg_strings as [|arg_string rest IH]; intros i classified; simpl.
  { intros [= <-]. intros j ? ? ? Hj. simpl in Hj. by rewrite lookup_empty in Hj. }
  case_decide.
  { intros [= <-]. intros j ? ? ? Hj. simpl in Hj. by rewrite lookup_empty in Hj. }
  destruct (_parse_optional self arg_string) as [tuple|e] eqn:Hparse; [|done]. simpl.
  destruct (classify self (S i) rest) as [classified'|e] eqn:Hrest; [|done]. simpl.
  specialize (IH _ _ Hrest).
  destruct tuple as [tuple|]; intros [= <-]; [|done]. simpl.
  intros j action option_string explicit_arg Hj.
  destruct (decide (i = j)) as [->|Hne].
  - rewrite lookup_insert_eq in Hj. injection Hj as ->.
    by apply (_parse_optional_known arg_string _ option_string explicit_arg).
  - rewrite lookup_insert_ne in Hj by done. by apply (IH j _ option_string explicit_arg).
Qed.

Lemma take_actions_inv action_tuples :
  forall st st',
    Forall (fun tuple : Action * list string => call_ok tuple.1 tuple.2) action_tuples ->
    state_ok st -> take_actions action_tuples st = Done st' -> state_ok st'.
Proof.
  induction action_tuples as [|[action args] action_tuples IH]; intros st st' Hok Hst; simpl.
  { by intros [= <-]. }
  apply Forall_cons in Hok as [Hcall Hok].
  destruct (take_action action args st) as [st1|e] eqn:Htake; [|done]. simpl.
  apply (IH _ _ Hok). destruct Hst as [Hinv Hpos]. split.
  - by apply (take_action_inv action args st).
  - unfold take_action in Htake.
    destruct (_get_values action args); [|done]. simpl in Htake.
    by destruct (action_cls action); simplify_eq.
Qed.

Lemma _match_argument_option action pattern n :
  option_strings action ≠ [] -> _match_argument action pattern = Done n -> n ≤ 1.
Proof.
  intros Hopt. unfold _match_argument, match_nargs.
  destruct (option_strings action); [done|].
  destruct (nargs action); [|intros [= <-]; lia].
  destruct pattern as [|[] ?]; by intros [= <-].
Qed.

Section loop.
Variable arg_strings : list string.
Variable arg_strings_pattern : list pattern_char.
Variable option_string_indices : gmap nat option_tuple.
Hypothesis indices_ok : tuples_ok option_string_indices.

Lemma consume_following_ok start_index action action_tuples matched :
  action ∈ _actions self ->
  option_strings action ≠ [] ->
  Forall (fun tuple : Action * list string => call_ok tuple.1 tuple.2) action_tuples ->
  consume_following arg_strings arg_strings_pattern start_index action action_tuples
  = Done matched ->
  Forall (fun tuple : Action * list string => call_ok tuple.1 tuple.2) matched.1.
Proof.
  intros Hin Hopt Hok. unfold consume_following.
  destruct (_match_argument action _) as [n|e] eqn:Hmatch; [|done]. simpl.
  intros [= <-]. simpl. apply Forall_app. split; [done|].
  apply Forall_singleton. split; [done|]. intros _. simpl.
  apply _match_argument_option in Hmatch; [|done]. rewrite length_take. lia.
Qed.

Lemma consume_explicit_ok explicit_arg :
  forall start_index action option_string action_tuples matched,
    action ∈ _actions self ->
    option_strings action ≠ [] ->
    Forall (fun tuple : Action * list string => call_ok tuple.1 tuple.2) action_tuples ->
    consume_explicit self arg_strings arg_strings_pattern start_index explicit_arg action
      option_string action_tuples = Done matched ->
    Forall (fun tuple : Action * list string => call_ok tuple.1 tuple.2) matched.1.
Proof.
  induction explicit_arg as [|c explicit_arg IH];
    intros start_index action option_string action_tuples matched Hin Hopt Hok; simpl.
  - destruct (_match_argument action [pA]) as [n|e]; [|done]. simpl.
    case_decide; [|done]. intros [= <-]. simpl. apply Forall_app. split; [done|].
    apply Forall_singleton. by split.
  - destruct (_match_argument action [pA]) as [n|e]; [|done]. simpl.
    destruct (bool_decide (n = 0) && negb (startswith option_string "--")).
    + destruct (lookup_option self (String "-" (String c ""))) as [action'|] eqn:Hlookup;
        [|done].
      apply lookup_option_known in Hlookup as [Hin' Hopt'].
      assert (Forall (fun tuple : Action * list string => call_ok tuple.1 tuple.2)
                (action_tuples ++ [(action, [])])) as Hok'.
      { apply Forall_app. split; [done|]. apply Forall_singleton. split; [done|].
        intros _. simpl. lia. }
      destruct explicit_arg as [|c' explicit_arg].
      * by apply consume_following_ok.
      * by apply IH.
    + case_decide; [|done]. intros [= <-]. simpl. apply Forall_app. split; [done|].
      apply Forall_singleton. by split.
Qed.

Lemma consume_optional_ok start_index tuple st consumed :
  (forall action, tuple.1.1 = Some action ->
     action ∈ _actions self ∧ option_strings action ≠ []) ->
  state_ok st ->
  consume_optional self arg_strings arg_strings_pattern start_index tuple st = Done consumed ->
  state_ok consumed.1.
Proof.
  intros Htuple Hst. destruct tuple as [[[action|] option_string] explicit_arg]; simpl.
  - destruct (Htuple action eq_refl) as [Hin Hopt].
    destruct (match explicit_arg with
              | Some e => consume_explicit _ _ _ _ e _ _ _
              | None => consume_following _ _ _ _ _
              end) as [matched|e] eqn:Hmatched; [|done]. simpl.
    assert (Forall (fun tuple : Action * list string => call_ok tuple.1 tuple.2) matched.1)
      as Hok.
    { destruct explicit_arg as [e|].
      - by apply (consume_explicit_ok e start_index action option_string []).
      - by apply (consume_following_ok start_index action []). }
    destruct (take_actions matched.1 st) as [st'|e] eqn:Htake; [|done]. simpl.
    intros [= <-]. simpl. by apply (take_actions_inv matched.1 st).
  - intros [= <-]. simpl. by destruct Hst.
Qed.

Lemma take_positionals_ok matched :
  forall start_index st consumed,
    Forall (fun entry : Action * nat =>
              entry.1 ∈ _actions self ∧ option_strings entry.1 = []) matched ->
    state_ok st ->
    take_positionals arg_strings matched start_index st = Done consumed ->
    state_ok consumed.1.
Proof.
  induction matched as [|[action n] matched IH]; intros start_index st consumed Hok Hst; simpl.
  { by intros [= <-]. }
  apply Forall_cons in Hok as [[Hin Hpos] Hok]. simpl in *.
  destruct (take_action action _ st) as [st1|e] eqn:Htake; [|done]. simpl.
  apply IH; [done|].
  apply (take_actions_inv [(action, take n (drop start_index arg_strings))] st); [|done|].
  - apply Forall_singleton. split; [done|]. simpl. by rewrite Hpos.
  - simpl. by rewrite Htake.
Qed.

Lemma consume_positionals_ok start_index st consumed :
  state_ok st ->
  consume_positionals arg_strings arg_strings_pattern start_index st = Done consumed ->
  state_ok consumed.1.
Proof.
  intros Hst. unfold consume_positionals.
  destruct (take_positionals arg_strings _ start_index st) as [taken|e] eqn:Htake; [|done].
  simpl. intros [= <-]. simpl.
  apply take_positionals_ok in Htake; [| |done].
  - destruct Htake as [Hinv Hpos]. split; [done|]. simpl. by apply Forall_drop.
  - destruct Hst as [_ Hpos]. clear Htake.
    generalize (_match_arguments_partial (positionals st)
                  (drop start_index arg_strings_pattern)).
    induction Hpos as [|action actions Haction _ IH]; intros counts; [done|].
    destruct counts as [|n counts]; [done|]. simpl. constructor; [done|apply IH].
Qed.

Lemma next_option_string_index_lookup count :
  forall start_index next_index tuple,
    next_option_string_index option_string_indices count start_index
    = Some (next_index, tuple) ->
    option_string_indices !! next_index = Some tuple.
Proof.
  induction count as [|count IH]; intros start_index next_index tuple; simpl; [done|].
  destruct (option_string_indices !! start_index) as [tuple'|] eqn:Hlookup.
  - by intros [= <- <-].
  - apply IH.
Qed.

Lemma parse_loop_ok rounds :
  forall start_index st looped,
    state_ok st ->
    parse_loop self arg_strings arg_strings_pattern option_string_indices rounds start_index st
    = Done looped ->
    state_ok looped.1.
Proof.
  induction rounds as [|rounds IH]; intros start_index st looped Hst; simpl.
  { destruct (next_option_string_index _ _ _) as [[next_index tuple]|]; by intros [= <-]. }
  destruct (next_option_string_index _ _ _) as [[next_index tuple]|] eqn:Hnext;
    [|by intros [= <-]].
  apply next_option_string_index_lookup in Hnext.
  assert (forall action, tuple.1.1 = Some action ->
            action ∈ _actions self ∧ option_strings action ≠ []) as Htuple.
  { intros action Haction. destruct tuple as [[? option_string] explicit_arg].
    simpl in Haction. subst. by apply (indices_ok next_index action option_string explicit_arg). }
  case_decide.
  - destruct (consume_optional _ _ _ _ _ st) as [consumed|e] eqn:Hconsume; [|done]. simpl.
    apply IH. by apply (consume_optional_ok start_index tuple st).
  - destruct (consume_positionals _ _ _ st) as [consumed|e] eqn:Hconsume; [|done]. simpl.
    apply consume_positionals_ok in Hconsume; [|done].
    case_decide; [by apply IH|].
    destruct (consume_optional _ _ _ _ _ _) as [consumed'|e] eqn:Hconsume'; [|done]. simpl.
    apply IH. apply (consume_optional_ok next_index tuple _ _ Htuple) in Hconsume'; [done|].
    by destruct Hconsume.
Qed.
End loop.

Lemma outcome_bind_Done {A B} (x : A) (k : A -> outcome B) : (Done x ≫= k) = k x.
Proof. done. Qed.

(** The invariant holds at the end of a parse that succeeds, and every
    required action was seen. *)
Lemma parse_known_args_inv args parsed :
  inv (default_namespace self) [] ->
  parse_known_args self args = Done parsed ->
  exists seen,
    inv parsed.1 seen
    ∧ forall action, action ∈ _actions self -> required action = true -> action ∈ seen.
Proof.
  intros Hinit. unfold parse_known_args.
  destruct (classify self 0 args) as [classified|e] eqn:Hclassify; [|done].
  rewrite outcome_bind_Done.
  apply classify_tuples_ok in Hclassify.
  set (st0 := {| namespace := default_namespace self;
                 positionals := _get_positional_actions self;
                 extras := []; seen_actions := [] |}).
  assert (state_ok st0) as Hst0.
  { split; [done|]. simpl. unfold _get_positional_actions.
    apply Forall_forall. intros action Hin. by apply list_elem_of_filter in Hin as [? ?]. }
  destruct (parse_loop self args classified.1 classified.2 (S (length args)) 0 st0)
    as [looped|e] eqn:Hloop; [|done].
  rewrite outcome_bind_Done.
  apply parse_loop_ok in Hloop; [|done..].
  destruct (consume_positionals args classified.1 looped.2 looped.1)
    as [consumed|e] eqn:Hconsume; [|done].
  rewrite outcome_bind_Done.
  apply consume_positionals_ok in Hconsume as [Hinv _]; [|done].
  destruct (map _ (filter _ (_actions self))) as [|name names] eqn:Hrequired; [|done].
  intros [= <-]. simpl. exists (seen_actions consumed.1). split; [done|].
  intros action Hin Hreq. apply fmap_nil_inv in Hrequired.
  destruct (decide (action ∈ seen_actions consumed.1)) as [?|Hnot]; [done|].
  assert (action ∈ filter (fun action => (action ∉ seen_actions consumed.1)
                                        ∧ required action = true) (_actions self)) as Hfilter.
  { by apply list_elem_of_filter. }
  rewrite Hrequired in Hfilter. by apply elem_of_nil in Hfilter.
Qed.
End parser_invariant.

(** The namespace during a parse of the command line of [main.py]:
    [type] is one of the choices, or the empty list; [output] and [schema]
    are there; and the destination of every action that was seen has a value
    other than [None]. *)
Definition namespace_inv (ns : Namespace) (seen : list Action) : Prop :=
  ((exists config_type, ns !! "type" = Some (AStr config_type)
                        ∧ config_type ∈ ["json"; "yaml"; "ini"])
   ∨ ns !! "type" = Some (AList []))
  ∧ is_Some (ns !! "output") ∧ is_Some (ns !! "schema")
  ∧ forall action attribute,
      action ∈ seen -> dest action = Some attribute ->
      exists value, ns !! attribute = Some value ∧ value ≠ ANone.

Lemma namespace_inv_insert ns seen action attribute value :
  namespace_inv ns seen ->
  dest action = Some attribute ->
  value ≠ ANone ->
  (attribute = "type" ->
   (exists config_type, value = AStr config_type ∧ config_type ∈ ["json"; "yaml"; "ini"])
   ∨ value = AList []) ->
  namespace_inv (<[attribute := value]> ns) (seen ++ [action]).
Proof.
  intros (Htype & Houtput & Hschema & Hseen) Hdest Hvalue Hchoice. split_and!.
  - destruct (decide (attribute = "type")) as [->|Hne].
    + destruct (Hchoice eq_refl) as [(config_type & -> & Hin)| ->].
      * left. exists config_type. by rewrite lookup_insert_eq.
      * right. by rewrite lookup_insert_eq.
    + destruct Htype as [(config_type & Hlookup & Hin)|Hlookup].
      * left. exists config_type. by rewrite lookup_insert_ne.
      * right. by rewrite lookup_insert_ne.
  - rewrite lookup_insert_is_Some. destruct (decide (attribute = "output")); auto.
  - rewrite lookup_insert_is_Some. destruct (decide (attribute = "schema")); auto.
  - intros action' attribute' Hin Hdest'.
    destruct (decide (attribute = attribute')) as [<-|Hne].
    { exists value. by rewrite lookup_insert_eq. }
    rewrite lookup_insert_ne by done.
    apply elem_of_app in Hin as [Hin|Hin]; [by apply (Hseen action')|].
    apply list_elem_of_singleton in Hin as ->. congruence.
Qed.

Lemma check_values_no_choices action values :
  choices action = None -> check_values action values = Done tt.
Proof.
  intros Hchoices. induction values as [|value values IH]; [done|].
  simpl. unfold _check_value. by rewrite Hchoices.
Qed.

Lemma remove_first_length x l : length (remove_first x l) ≤ length l.
Proof.
  induction l as [|y l IH]; [done|]. simpl. case_decide; simpl; lia.
Qed.

Lemma take_action_namespace_inv action args st st' :
  call_ok setup_argparse action args ->
  namespace_inv (namespace st) (seen_actions st) ->
  take_action action args st = Done st' ->
  namespace_inv (namespace st') (seen_actions st').
Proof.
  intros [Hin Hlen] Hinv.
  assert (forall attribute,
            dest action = Some attribute -> action_cls action = _StoreAction ->
            nargs action = nargs_None -> choices action = None ->
            take_action action args st = Done st' ->
            namespace_inv (namespace st') (seen_actions st')) as Hplain.
  { intros attribute Hdest Hcls Hnargs Hchoices. unfold take_action, _get_values.
    rewrite Hcls, Hdest, Hnargs. unfold _check_value. rewrite Hchoices.
    destruct (remove_first "--" args) as [|arg_string [|arg_string' rest]].
    - simpl. intros [= <-]. simpl. apply namespace_inv_insert; try done.
      intros ->. vm_compute in Hin.
      repeat (apply elem_of_cons in Hin as [->|Hin]; [done|]). by apply elem_of_nil in Hin.
    - simpl. intros [= <-]. simpl. apply namespace_inv_insert; try done.
      intros ->. vm_compute in Hin.
      repeat (apply elem_of_cons in Hin as [->|Hin]; [done|]). by apply elem_of_nil in Hin.
    - rewrite check_values_no_choices by done. simpl.
      intros [= <-]. simpl. apply namespace_inv_insert; try done.
      intros ->. vm_compute in Hin.
      repeat (apply elem_of_cons in Hin as [->|Hin]; [done|]). by apply elem_of_nil in Hin. }
  pose proof Hin as Hin'. vm_compute in Hin'.
  apply elem_of_cons in Hin' as [->|Hin'].
  { unfold take_action. by destruct (_get_values _ args). }
  apply elem_of_cons in Hin' as [->|Hin']; [by apply (Hplain "file1")|].
  apply elem_of_cons in Hin' as [->|Hin']; [by apply (Hplain "file2")|].
  apply elem_of_cons in Hin' as [->|Hin']; cycle 1.
  { apply elem_of_cons in Hin' as [->|Hin']; [by apply (Hplain "output")|].
    apply elem_of_cons in Hin' as [->|Hin']; [by apply (Hplain "schema")|].
    by apply elem_of_nil in Hin'. }
  unfold take_action, _get_values. simpl action_cls. simpl dest. simpl nargs.
  specialize (Hlen ltac:(done)).
  pose proof (remove_first_length "--" args) as Hremoved.
  destruct (remove_first "--" args) as [|arg_string [|arg_string' rest]];
    [| |simpl in Hremoved; lia].
  - simpl. intros [= <-]. simpl. apply (namespace_inv_insert _ _ _ "type"); try done.
    by right.
  - unfold _check_value. simpl choices.
    destruct (decide (arg_string ∈ ["json"; "yaml"; "ini"])) as [Hchoice|Hchoice];
      [rewrite bool_decide_eq_true_2 by done|by rewrite bool_decide_eq_false_2 by done].
    simpl.
    intros [= <-]. simpl. apply (namespace_inv_insert _ _ _ "type"); try done.
    intros _. left. by exists arg_string.
Qed.

(** The actions of the two positional arguments. *)
Definition positional_action (name help : string) : Action :=
  {| action_cls := _StoreAction; option_strings := []; dest := Some name;
     nargs := nargs_None; action_default := default_None; choices := None;
     required := true; help := help |}.

Lemma parse_args_namespace_inv argv args :
  parse_args setup_argparse argv = Done args ->
  exists seen,
    namespace_inv args seen
    ∧ positional_action "file1" "Path to the first configuration file." ∈ seen
    ∧ positional_action "file2" "Path to the second configuration file." ∈ seen.
Proof.
  unfold parse_args.
  destruct (parse_known_args setup_argparse argv) as [parsed|e] eqn:Hparsed; [|done].
  rewrite outcome_bind_Done. destruct parsed as [ns [|extra extras]]; [|done].
  intros [= <-].
  apply (parse_known_args_inv setup_argparse namespace_inv take_action_namespace_inv)
    in Hparsed as (seen & Hinv & Hrequired).
  - exists seen. split_and!; [done|apply Hrequired; [|done]..].
    + vm_compute. by do 1 right; left.
    + vm_compute. by do 2 right; left.
  - split_and!.
    + left. exists "yaml". split; [by vm_compute|]. by right; left.
    + vm_compute. by eexists.
    + vm_compute. by eexists.
    + intros action attribute Hin. by apply elem_of_nil in Hin.
Qed.

(** ** The rounds of the loop of the parser *)

Section rounds.
Variable self : ArgumentParser.
Variable arg_strings : list string.
Variable arg_strings_pattern : list pattern_char.
Variable option_string_indices : gmap nat option_tuple.

Lemma next_option_string_index_bounds count :
  forall start_index next_index tuple,
    next_option_string_index option_string_indices count start_index
    = Some (next_index, tuple) ->
    start_index ≤ next_index ∧ next_index < start_index + count.
Proof.
  induction count as [|count IH]; intros start_index next_index tuple; simpl; [done|].
  destruct (option_string_indices !! start_index) as [tuple'|].
  - intros [= <- <-]. lia.
  - intros Hnext. apply IH in Hnext. lia.
Qed.

Lemma consume_following_stop start_index action action_tuples matched :
  consume_following arg_strings arg_strings_pattern start_index action action_tuples
  = Done matched ->
  start_index < matched.2.
Proof.
  unfold consume_following. destruct (_match_argument action _) as [n|e]; [|done].
  rewrite outcome_bind_Done. intros [= <-]. simpl. lia.
Qed.

Lemma consume_explicit_stop explicit_arg :
  forall start_index action option_string action_tuples matched,
    consume_explicit self arg_strings arg_strings_pattern start_index explicit_arg action
      option_string action_tuples = Done matched ->
    start_index < matched.2.
Proof.
  induction explicit_arg as [|c explicit_arg IH];
    intros start_index action option_string action_tuples matched; simpl.
  - destruct (_match_argument action [pA]) as [n|e]; [|done]. rewrite outcome_bind_Done.
    case_decide; [|done]. intros [= <-]. simpl. lia.
  - destruct (_match_argument action [pA]) as [n|e]; [|done]. rewrite outcome_bind_Done.
    destruct (bool_decide (n = 0) && negb (startswith option_string "--")).
    + destruct (lookup_option self (String "-" (String c ""))) as [action'|]; [|done].
      destruct explicit_arg as [|c' explicit_arg].
      * apply consume_following_stop.
      * apply IH.
    + case_decide; [|done]. intros [= <-]. simpl. lia.
Qed.

Lemma consume_optional_stop start_index tuple st consumed :
  consume_optional self arg_strings arg_strings_pattern start_index tuple st = Done consumed ->
  start_index < consumed.2.
Proof.
  destruct tuple as [[[action|] option_string] explicit_arg]; simpl.
  - destruct (match explicit_arg with
              | Some e => consume_explicit _ _ _ _ e _ _ _
              | None => consume_following _ _ _ _ _
              end) as [matched|e] eqn:Hmatched; [|done].
    rewrite outcome_bind_Done.
    destruct (take_actions matched.1 st) as [st'|e]; [|done]. rewrite outcome_bind_Done.
    intros [= <-]. simpl.
    destruct explicit_arg as [e|].
    + by apply consume_explicit_stop in Hmatched.
    + by apply consume_following_stop in Hmatched.
  - intros [= <-]. simpl. lia.
Qed.

(** The loop ends within the rounds that [parse_known_args] gives it: more
    rounds give the same result. *)
Lemma parse_loop_rounds rounds :
  forall rounds' start_index st,
    length arg_strings < rounds + start_index ->
    length arg_strings < rounds' + start_index ->
    parse_loop self arg_strings arg_strings_pattern option_string_indices rounds start_index st
    = parse_loop self arg_strings arg_strings_pattern option_string_indices rounds'
        start_index st.
Proof.
  induction rounds as [|rounds IH]; intros rounds' start_index st Hrounds Hrounds'.
  { destruct rounds'; simpl;
      by replace (length arg_strings - start_index) with 0 by lia. }
  destruct rounds' as [|rounds'].
  { simpl. by replace (length arg_strings - start_index) with 0 by lia. }
  simpl.
  destruct (next_option_string_index _ _ _) as [[next_index tuple]|] eqn:Hnext; [|done].
  apply next_option_string_index_bounds in Hnext.
  case_decide.
  - destruct (consume_optional _ _ _ _ _ st) as [consumed|e] eqn:Hconsume; [|done].
    rewrite !outcome_bind_Done. apply consume_optional_stop in Hconsume.
    apply IH; lia.
  - destruct (consume_positionals _ _ _ st) as [consumed|e] eqn:Hconsume; [|done].
    rewrite !outcome_bind_Done. cbv zeta.
    case_decide; [apply IH; lia|].
    destruct (consume_optional _ _ _ _ _ _) as [consumed'|e] eqn:Hconsume'; [|done].
    rewrite !outcome_bind_Done. apply consume_optional_stop in Hconsume'.
    apply IH; lia.
Qed.
End rounds.

(** ** Well-formed command lines *)

(** The actions of [setup_argparse], after the help action. *)
Definition file1_action : Action :=
  positional_action "file1" "Path to the first configuration file.".
Definition file2_action : Action :=
  positional_action "file2" "Path to the second configuration file.".
Definition type_action : Action :=
  {| action_cls := _StoreAction; option_strings := ["--type"]; dest := Some "type";
     nargs := nargs_None; action_default := default_str "yaml";
     choices := Some ["json"; "yaml"; "ini"]; required := false;
     help := "Type of configuration files (default: yaml)." |}.
Definition output_action : Action :=
  {| action_cls := _StoreAction; option_strings := ["--output"; "-o"]; dest := Some "output";
     nargs := nargs_None; action_default := default_None; choices := None;
     required := false; help := "Output file to write the diff to." |}.
Definition schema_action : Action :=
  {| action_cls := _StoreAction; option_strings := ["--schema"]; dest := Some "schema";
     nargs := nargs_None; action_default := default_None; choices := None;
     required := false;
     help := "Path to JSON schema file for validating config files." |}.

(** The words of a command line: a positional argument, an option followed
    by its value, and an option with its value after [=]. *)
Inductive word : Type :=
  | Positional (s : string)
  | Option_value (name value : string)
  | Option_equals (name value : string).

Definition word_strings (w : word) : list string :=
  match w with
  | Positional s => [s]
  | Option_value name value => [name; value]
  | Option_equals name value => [name +:+ "=" +:+ value]
  end.

Definition command_line (words : list word) : list string := concat (map word_strings words).

(** The action of an option, by its name. *)
Definition named_action (name : string) : option Action :=
  if decide (name = "--type") then Some type_action
  else if decide (name = "--output" ∨ name = "-o") then Some output_action
  else if decide (name = "--schema") then Some schema_action
  else None.

(** A value that the action accepts: [--type] has its choices. *)
Definition accepted (action : Action) (value : string) : Prop :=
  match choices action with
  | Some among => value ∈ among
  | None => True
  end.

(** The well-formed words: a positional argument and a value that follows
    its option do not start with a dash; a value after [=] is any string but
    [--]; an option is one of [--type], [--output], [-o] and [--schema], and
    its value is one that it accepts. *)
Definition word_ok (w : word) : Prop :=
  match w with
  | Positional s => startswith s "-" = false
  | Option_value name value =>
      exists action, named_action name = Some action
                     ∧ startswith value "-" = false ∧ accepted action value
  | Option_equals name value =>
      exists action, named_action name = Some action ∧ value ≠ "--" ∧ accepted action value
  end.

(** What a word does to the state of the parser: a positional argument
    is the value of the next positional action, an option sets its
    destination. *)
Definition store (action : Action) (value : string) (st : parse_state) : parse_state :=
  {| namespace := <[default "" (dest action) := AStr value]> (namespace st);
     positionals := positionals st; extras := extras st;
     seen_actions := seen_actions st ++ [action] |}.

Definition process (st : parse_state) (w : word) : parse_state :=
  match w with
  | Positional s =>
      match positionals st with
      | action :: rest =>
          let st := store action s st in
          {| namespace := namespace st; positionals := rest; extras := extras st;
             seen_actions := seen_actions st |}
      | [] => st
      end
  | Option_value name value | Option_equals name value =>
      match named_action name with
      | Some action => store action value st
      | None => st
      end
  end.

Definition initial_state : parse_state :=
  {| namespace := default_namespace setup_argparse;
     positionals := [file1_action; file2_action]; extras := []; seen_actions := [] |}.

(** The pattern and the option tuples of the words. *)
Definition word_pattern (w : word) : list pattern_char :=
  match w with
  | Positional _ => [pA]
  | Option_value _ _ => [pO; pA]
  | Option_equals _ _ => [pO]
  end.

Definition word_tuple (w : word) : option option_tuple :=
  match w with
  | Positional _ => None
  | Option_value name _ => Some (named_action name, name, None)
  | Option_equals name value => Some (named_action name, name, Some value)
  end.

(** The option tuple at the index [j] of the strings of the words. *)
Fixpoint tuple_at (words : list word) (j : nat) : option option_tuple :=
  match words with
  | [] => None
  | w :: words' =>
      match j with
      | O => word_tuple w
      | S j' =>
          match w with
          | Option_value _ _ =>
              match j' with
              | O => None
              | S j'' => tuple_at words' j''
              end
          | _ => tuple_at words' j'
          end
      end
  end.

Lemma setup_argparse_actions :
  _actions setup_argparse
  = [ {| action_cls := _HelpAction; option_strings := ["-h"; "--help"]; dest := None;
         nargs := nargs_0; action_default := default_SUPPRESS; choices := None;
         required := false; help := "show this help message and exit" |};
      file1_action; file2_action; type_action; output_action; schema_action ].
Proof. reflexivity. Qed.

Lemma lookup_named_action name action :
  named_action name = Some action ->
  lookup_option setup_argparse name = Some action
  ∧ action_cls action = _StoreAction ∧ nargs action = nargs_None
  ∧ option_strings action ≠ [] ∧ is_Some (dest action)
  ∧ startswith name "-" = true ∧ name ≠ "" ∧ name ≠ "--"
  ∧ contains "="%char name = false.
Proof.
  unfold named_action. repeat case_decide; intros [= <-];
    repeat match goal with H : _ ∨ _ |- _ => destruct H end; subst;
    split_and!; try done; try (by vm_compute); vm_compute; by eexists.
Qed.

Lemma plain_not_option s :
  startswith s "-" = false -> s ≠ "--" ∧ _parse_optional setup_argparse s = Done None.
Proof.
  intros Hplain. split; [by intros ->|].
  unfold _parse_optional. case_decide; [done|]. by rewrite Hplain.
Qed.

(** *** The classification of the words *)

Lemma contains_app_equals name value : contains "="%char (name +:+ "=" +:+ value) = true.
Proof.
  induction name as [|c name IH]; [done|].
  rewrite str_app_cons. simpl. by rewrite IH, orb_true_r.
Qed.

Lemma split_once_app_equals name value :
  contains "="%char name = false ->
  split_once "="%char (name +:+ "=" +:+ value) = (name, value).
Proof.
  induction name as [|c name IH]; intros Hname; [done|].
  simpl in Hname. apply orb_false_elim in Hname as [Hc Hname].
  apply bool_decide_eq_false in Hc.
  rewrite str_app_cons. simpl. rewrite decide_False by done. by rewrite IH.
Qed.

Lemma lookup_option_equals s :
  contains "="%char s = true -> lookup_option setup_argparse s = None.
Proof.
  intros Hs. destruct (lookup_option setup_argparse s) as [action|] eqn:Hlookup; [|done].
  apply lookup_option_in_elem in Hlookup. vm_compute in Hlookup.
  repeat (apply elem_of_cons in Hlookup as [[= -> _]|Hlookup]; [done|]).
  by apply elem_of_nil in Hlookup.
Qed.

Lemma startswith_app s prefix rest :
  startswith s prefix = true -> startswith (s +:+ rest) prefix = true.
Proof.
  unfold startswith. revert s. induction prefix as [|c prefix IH]; intros s.
  { intros _. by destruct (s +:+ rest). }
  destruct s as [|c' s]; [done|]. rewrite str_app_cons. simpl.
  destruct (Ascii.ascii_dec c c'); [apply IH|done].
Qed.

Lemma _parse_optional_named name action :
  named_action name = Some action ->
  _parse_optional setup_argparse name = Done (Some (Some action, name, None)).
Proof.
  intros Hname. apply lookup_named_action in Hname
    as (Hlookup & _ & _ & _ & _ & Hdash & Hne & _).
  unfold _parse_optional. rewrite decide_False by done. by rewrite Hdash, Hlookup.
Qed.

Lemma _parse_optional_equals name value action :
  named_action name = Some action ->
  _parse_optional setup_argparse (name +:+ "=" +:+ value)
  = Done (Some (Some action, name, Some value)).
Proof.
  intros Hname. apply lookup_named_action in Hname
    as (Hlookup & _ & _ & _ & _ & Hdash & Hne & _ & Hequals).
  unfold _parse_optional.
  rewrite decide_False; cycle 1.
  { intros Heq. pose proof (contains_app_equals name value) as Hc. by rewrite Heq in Hc. }
  rewrite (startswith_app name "-" _ Hdash). simpl negb. cbv iota.
  rewrite lookup_option_equals by apply contains_app_equals.
  rewrite decide_False; cycle 1.
  { destruct name as [|c name]; [done|]. rewrite str_app_cons. simpl.
    destruct name; simpl; lia. }
  rewrite contains_app_equals, split_once_app_equals by done.
  by rewrite Hlookup.
Qed.

(** The option tuples of the words, from the index [i] on. *)
Fixpoint word_indices (i : nat) (words : list word) : gmap nat option_tuple :=
  match words with
  | [] => ∅
  | w :: words' =>
      let rest := word_indices (i + length (word_strings w)) words' in
      match word_tuple w with
      | Some tuple => <[i := tuple]> rest
      | None => rest
      end
  end.

Lemma classify_words words :
  forall i,
    Forall word_ok words ->
    classify setup_argparse i (command_line words)
    = Done (concat (map word_pattern words), word_indices i words).
Proof.
  induction words as [|w words IH]; intros i Hok; [done|].
  apply Forall_cons in Hok as [Hw Hok].
  unfold command_line. simpl map. simpl concat. fold (command_line words).
  destruct w as [s|name value|name value]; simpl in Hw.
  - destruct (plain_not_option s Hw) as [Hdashes Hplain].
    simpl app. simpl classify. rewrite decide_False by done.
    rewrite Hplain, outcome_bind_Done, (IH (S i) Hok), outcome_bind_Done.
    simpl. by replace (i + 1) with (S i) by lia.
  - destruct Hw as (action & Hname & Hvalue & _).
    destruct (plain_not_option value Hvalue) as [Hdashes Hplain].
    pose proof (lookup_named_action name action Hname) as (_ & _ & _ & _ & _ & _ & _ & Hne & _).
    simpl app. simpl classify. rewrite !decide_False by done.
    rewrite (_parse_optional_named name action Hname), outcome_bind_Done.
    rewrite Hplain, outcome_bind_Done, (IH (S (S i)) Hok), !outcome_bind_Done.
    simpl. rewrite Hname. by replace (i + 2) with (S (S i)) by lia.
  - destruct Hw as (action & Hname & _).
    simpl app. simpl classify.
    rewrite decide_False; cycle 1.
    { intros Heq. pose proof (contains_app_equals name value) as Hc. by rewrite Heq in Hc. }
    rewrite (_parse_optional_equals name value action Hname), outcome_bind_Done.
    rewrite (IH (S i) Hok), outcome_bind_Done.
    simpl. rewrite Hname. by replace (i + 1) with (S i) by lia.
Qed.

Lemma word_indices_below words : forall i j, j < i -> word_indices i words !! j = None.
Proof.
  induction words as [|w words IH]; intros i j Hj; simpl; [done|].
  destruct (word_tuple w).
  - rewrite lookup_insert_ne by lia. apply IH. lia.
  - apply IH. lia.
Qed.

Lemma word_indices_lookup words :
  forall i j, word_indices i words !! (i + j) = tuple_at words j.
Proof.
  induction words as [|w words IH]; intros i j; simpl; [done|].
  destruct j as [|j].
  - rewrite Nat.add_0_r. destruct (word_tuple w).
    + by rewrite lookup_insert_eq.
    + apply word_indices_below. destruct w; simpl; lia.
  - assert (word_indices (i + length (word_strings w)) words !! (i + S j)
            = match w with
              | Option_value _ _ =>
                  match j with O => None | S j' => tuple_at words j' end
              | _ => tuple_at words j
              end) as Hrest.
    { destruct w as [s|name value|name value]; simpl.
      - replace (i + S j) with (i + 1 + j) by lia. apply IH.
      - destruct j as [|j].
        + apply word_indices_below. lia.
        + replace (i + S (S j)) with (i + 2 + j) by lia. apply IH.
      - replace (i + S j) with (i + 1 + j) by lia. apply IH. }
    destruct (word_tuple w); [rewrite lookup_insert_ne by lia|]; exact Hrest.
Qed.

(** *** The rounds of the parser on the words *)

Lemma command_line_app words1 words2 :
  command_line (words1 ++ words2) = command_line words1 ++ command_line words2.
Proof. unfold command_line. by rewrite map_app, concat_app. Qed.

Lemma word_pattern_length words :
  length (concat (map word_pattern words)) = length (command_line words).
Proof.
  induction words as [|w words IH]; [done|].
  unfold command_line in *. simpl. rewrite !length_app, IH. by destruct w.
Qed.

Lemma tuple_at_app processed remaining k :
  tuple_at (processed ++ remaining) (length (command_line processed) + k)
  = tuple_at remaining k.
Proof.
  induction processed as [|w processed IH]; [done|].
  unfold command_line in *. simpl map. simpl concat. rewrite length_app.
  destruct w as [s|name value|name value]; simpl; exact IH.
Qed.

(** An action that stores one string, which it accepts. *)
Definition stores_one (action : Action) : Prop :=
  action_cls action = _StoreAction ∧ nargs action = nargs_None ∧ is_Some (dest action).

Lemma take_action_store action value st :
  stores_one action -> value ≠ "--" -> accepted action value ->
  take_action action [value] st = Done (store action value st).
Proof.
  intros (Hcls & Hnargs & [attribute Hdest]) Hvalue Haccepted.
  unfold take_action, _get_values, _check_value, store, accepted in *.
  simpl remove_first. rewrite decide_False by done. rewrite Hnargs, Hcls, Hdest.
  destruct (choices action) as [among|]; [|done].
  by rewrite bool_decide_eq_true_2.
Qed.

Section words_loop.
Variable words : list word.

Lemma consume_option_value start_index action name value st :
  stores_one action -> option_strings action ≠ [] ->
  startswith value "-" = false -> accepted action value ->
  (exists rest, drop start_index (command_line words) = name :: value :: rest) ->
  (exists rest, drop start_index (concat (map word_pattern words)) = pO :: pA :: rest) ->
  consume_optional setup_argparse (command_line words) (concat (map word_pattern words))
    start_index (Some action, name, None) st
  = Done (store action value st, start_index + 2).
Proof.
  intros Hstore Hopt Hvalue Haccepted [rest Hstrings] [rest' Hpattern].
  unfold consume_optional, consume_following.
  assert (drop (start_index + 1) (concat (map word_pattern words)) = pA :: rest') as ->.
  { by rewrite <-drop_drop, Hpattern. }
  assert (_match_argument action (pA :: rest') = Done 1) as ->.
  { unfold _match_argument, match_nargs. destruct Hstore as (_ & -> & _).
    by destruct (option_strings action). }
  rewrite outcome_bind_Done.
  assert (take 1 (drop (start_index + 1) (command_line words)) = [value]) as ->.
  { by rewrite <-drop_drop, Hstrings. }
  rewrite outcome_bind_Done. simpl take_actions.
  rewrite take_action_store; [|done|by intros ->|done].
  rewrite !outcome_bind_Done. simpl. do 2 f_equal. lia.
Qed.

Lemma consume_option_equals start_index action name value st :
  stores_one action -> option_strings action ≠ [] ->
  value ≠ "--" -> accepted action value ->
  consume_optional setup_argparse (command_line words) (concat (map word_pattern words))
    start_index (Some action, name, Some value) st
  = Done (store action value st, start_index + 1).
Proof.
  intros Hstore Hopt Hvalue Haccepted. unfold consume_optional.
  assert (_match_argument action [pA] = Done 1) as Hmatch.
  { unfold _match_argument, match_nargs. destruct Hstore as (_ & -> & _).
    by destruct (option_strings action). }
  assert (consume_explicit setup_argparse (command_line words)
            (concat (map word_pattern words)) start_index value action name []
          = Done ([(action, [value])], start_index + 1)) as ->.
  { destruct value as [|c value]; simpl; by rewrite Hmatch. }
  rewrite outcome_bind_Done. simpl take_actions.
  rewrite take_action_store by done. by rewrite !outcome_bind_Done.
Qed.
End words_loop.

(** *** A run of positional arguments *)

(** A positional action that stores one string, whatever it is. *)
Definition stores_positional (action : Action) : Prop :=
  stores_one action ∧ option_strings action = [] ∧ choices action = None.

(** The pattern after a run of positional arguments: the end of the
    command line, or an option. *)
Definition run_end (pattern : list pattern_char) : Prop :=
  pattern = [] ∨ exists rest, pattern = pO :: rest.

Lemma leading_dashes_run_end j pattern :
  run_end pattern -> leading_dashes (replicate j pA ++ pattern) = 0.
Proof. destruct j; [|done]. by intros [->|[rest ->]]. Qed.

Lemma match_nargs_positional action j pattern :
  stores_positional action -> run_end pattern ->
  match_nargs action (replicate j pA ++ pattern) = if j is S _ then Some 1 else None.
Proof.
  intros ((_ & Hnargs & _) & Hopt & _) Hend. unfold match_nargs.
  rewrite Hopt, Hnargs. destruct j as [|j].
  - by destruct Hend as [->|[rest ->]].
  - simpl. by rewrite leading_dashes_run_end.
Qed.

Lemma match_groups_positional actions j pattern :
  Forall stores_positional actions -> run_end pattern ->
  match_groups actions (replicate j pA ++ pattern)
  = if decide (length actions ≤ j) then Some (replicate (length actions) 1) else None.
Proof.
  intros Hactions Hend. revert j.
  induction Hactions as [|action actions Haction _ IH]; intros j.
  { simpl. destruct (decide (0 ≤ j)); [done|lia]. }
  cbn [match_groups length]. rewrite match_nargs_positional by done.
  destruct j as [|j].
  { destruct (decide (S (length actions) ≤ 0)); [lia|done]. }
  cbn [mbind option_bind]. change (drop 1 (replicate (S j) pA ++ pattern))
    with (replicate j pA ++ pattern).
  rewrite IH.
  destruct (decide (length actions ≤ j)), (decide (S (length actions) ≤ S j));
    try done; lia.
Qed.

Lemma match_partial_positional i actions j pattern :
  Forall stores_positional actions -> run_end pattern -> i ≤ length actions ->
  match_partial i actions (replicate j pA ++ pattern) = replicate (i `min` j) 1.
Proof.
  intros Hactions Hend. induction i as [|i IH]; intros Hi; [done|].
  cbn [match_partial]. rewrite match_groups_positional; [|by apply Forall_take|done].
  rewrite length_take. destruct (decide (S i `min` length actions ≤ j)).
  - f_equal. lia.
  - rewrite IH by lia. f_equal. lia.
Qed.

Lemma _match_arguments_partial_positional actions j pattern :
  Forall stores_positional actions -> run_end pattern -> j ≤ length actions ->
  _match_arguments_partial actions (replicate j pA ++ pattern) = replicate j 1.
Proof.
  intros. unfold _match_arguments_partial.
  rewrite match_partial_positional by done. f_equal. lia.
Qed.

Definition with_positionals (actions : list Action) (st : parse_state) : parse_state :=
  {| namespace := namespace st; positionals := actions; extras := extras st;
     seen_actions := seen_actions st |}.

Definition stores (values : list (Action * string)) (st : parse_state) : parse_state :=
  foldl (fun st value => store value.1 value.2 st) st values.

Definition plain (s : string) : Prop := startswith s "-" = false.

Lemma take_positionals_run arg_strings ss : forall actions start_index st rest,
  Forall stores_positional actions -> Forall plain ss -> length ss ≤ length actions ->
  drop start_index arg_strings = ss ++ rest ->
  take_positionals arg_strings (zip actions (replicate (length ss) 1)) start_index st
  = Done (stores (zip actions ss) st, start_index + length ss).
Proof.
  induction ss as [|s ss IH]; intros actions start_index st rest Hactions Hss Hlen Hdrop.
  { destruct actions; simpl; do 2 f_equal; lia. }
  destruct actions as [|action actions]; [simpl in Hlen; lia|].
  apply Forall_cons in Hactions as [Haction Hactions].
  apply Forall_cons in Hss as [Hs Hss].
  cbn [length replicate zip zip_with take_positionals]. rewrite Hdrop.
  change (take 1 ((s :: ss) ++ rest)) with [s].
  destruct Haction as (Hstore & _ & Hchoices).
  rewrite take_action_store; [|done|by intros ->|by unfold accepted; rewrite Hchoices].
  rewrite outcome_bind_Done.
  rewrite (IH actions (start_index + 1) _ rest); try done.
  - simpl. do 2 f_equal. lia.
  - simpl in Hlen. lia.
  - by rewrite <-drop_drop, Hdrop.
Qed.

Lemma process_run ss : forall actions st,
  length ss ≤ length actions ->
  foldl process (with_positionals actions st) (map Positional ss)
  = with_positionals (drop (length ss) actions) (stores (zip actions ss) st).
Proof.
  induction ss as [|s ss IH]; intros actions st Hlen.
  { by destruct actions. }
  destruct actions as [|action actions]; [simpl in Hlen; lia|].
  simpl in Hlen. simpl. rewrite <-IH by lia. done.
Qed.

Lemma positionals_stores values : forall st,
  positionals (stores values st) = positionals st.
Proof. induction values as [|value values IH]; intros st; [done|]. simpl. by rewrite IH. Qed.

Lemma consume_positionals_run arg_strings pattern start_index st ss rest tail :
  Forall stores_positional (positionals st) -> Forall plain ss ->
  length ss ≤ length (positionals st) ->
  drop start_index arg_strings = ss ++ rest ->
  drop start_index pattern = replicate (length ss) pA ++ tail -> run_end tail ->
  consume_positionals arg_strings pattern start_index st
  = Done (foldl process st (map Positional ss), start_index + length ss).
Proof.
  intros Hactions Hss Hlen Hstrings Hpattern Hend. unfold consume_positionals.
  rewrite Hpattern, _match_arguments_partial_positional by done.
  rewrite (take_positionals_run _ _ _ _ _ rest) by done.
  rewrite outcome_bind_Done, length_replicate. cbn [fst snd].
  f_equal. f_equal.
  trans (with_positionals (drop (length ss) (positionals st))
           (stores (zip (positionals st) ss) st)).
  - unfold with_positionals. f_equal. by rewrite positionals_stores.
  - rewrite <-process_run by done. f_equal. by destruct st.
Qed.

Lemma next_option_string_index_first indices j : forall count start_index tuple,
  (forall k, k < j -> indices !! (start_index + k) = None) ->
  indices !! (start_index + j) = Some tuple -> j < count ->
  next_option_string_index indices count start_index = Some (start_index + j, tuple).
Proof.
  induction j as [|j IH]; intros count start_index tuple Hnone Hsome Hcount.
  - destruct count; [lia|]. simpl. rewrite Nat.add_0_r in Hsome. rewrite Hsome.
    by rewrite Nat.add_0_r.
  - destruct count; [lia|]. simpl.
    specialize (Hnone 0 ltac:(lia)) as Hfirst. rewrite Nat.add_0_r in Hfirst.
    rewrite Hfirst. rewrite (IH count (S start_index) tuple).
    + do 2 f_equal. lia.
    + intros k Hk. rewrite <-(Hnone (S k)) by lia. f_equal. lia.
    + rewrite <-Hsome. f_equal. lia.
    + lia.
Qed.

Lemma next_option_string_index_none indices count : forall start_index,
  (forall k, k < count -> indices !! (start_index + k) = None) ->
  next_option_string_index indices count start_index = None.
Proof.
  induction count as [|count IH]; intros start_index Hnone; [done|]. simpl.
  specialize (Hnone 0 ltac:(lia)) as Hfirst. rewrite Nat.add_0_r in Hfirst.
  rewrite Hfirst. apply IH. intros k Hk. rewrite <-(Hnone (S k)) by lia. f_equal. lia.
Qed.

(** The words as runs of positional arguments between options. *)
Lemma words_run (words : list word) :
  exists ss rest, words = map Positional ss ++ rest
    ∧ (rest = [] ∨ exists w rest', rest = w :: rest' ∧ is_Some (word_tuple w)).
Proof.
  induction words as [|w words (ss & rest & -> & Hrest)].
  { exists [], []. by split; [|left]. }
  destruct w as [s|name value|name value].
  - by exists (s :: ss), rest.
  - exists [], (Option_value name value :: map Positional ss ++ rest).
    split; [done|]. right. eexists _, _. split; [done|]. by eexists.
  - exists [], (Option_equals name value :: map Positional ss ++ rest).
    split; [done|]. right. eexists _, _. split; [done|]. by eexists.
Qed.

Lemma tuple_at_positionals ss rest k :
  k < length ss -> tuple_at (map Positional ss ++ rest) k = None.
Proof.
  revert k. induction ss as [|s ss IH]; intros k Hk; [simpl in Hk; lia|].
  destruct k as [|k]; [done|]. simpl. apply IH. simpl in Hk. lia.
Qed.

Lemma tuple_at_nil k : tuple_at [] k = None.
Proof. by destruct k. Qed.

Lemma command_line_positionals ss : command_line (map Positional ss) = ss.
Proof. induction ss as [|s ss IH]; [done|]. unfold command_line in *. simpl. by f_equal. Qed.

Lemma word_pattern_positionals ss :
  concat (map word_pattern (map Positional ss)) = replicate (length ss) pA.
Proof. induction ss as [|s ss IH]; [done|]. simpl. by f_equal. Qed.

(** The values of the positional arguments of the words. *)
Definition positional_values (words : list word) : list string :=
  omap (fun w => if w is Positional s then Some s else None) words.

Lemma positional_values_app words1 words2 :
  positional_values (words1 ++ words2) = positional_values words1 ++ positional_values words2.
Proof. apply omap_app. Qed.

Lemma positional_values_positionals ss : positional_values (map Positional ss) = ss.
Proof. induction ss as [|s ss IH]; [done|]. unfold positional_values in *. simpl. by f_equal. Qed.

Lemma positionals_store action value st : positionals (store action value st) = positionals st.
Proof. done. Qed.

Lemma positionals_process words : forall st,
  positionals (foldl process st words)
  = drop (length (positional_values words)) (positionals st).
Proof.
  induction words as [|w words IH]; intros st; [done|]. simpl. rewrite IH.
  destruct w as [s|name value|name value]; simpl.
  - destruct (positionals st) as [|action actions] eqn:Hst; [|done].
    by rewrite Hst, !drop_nil.
  - by destruct (named_action name).
  - by destruct (named_action name).
Qed.

Lemma consume_optional_word (words processed rest : list word) (w : word) tuple st :
  words = processed ++ w :: rest -> word_ok w -> word_tuple w = Some tuple ->
  consume_optional setup_argparse (command_line words) (concat (map word_pattern words))
    (length (command_line processed)) tuple st
  = Done (process st w, length (command_line (processed ++ [w]))).
Proof.
  intros -> Hw Htuple.
  rewrite (command_line_app processed [w]), length_app.
  destruct w as [s|name value|name value]; [done|..];
    destruct Hw as (action & Hnamed & Hvalue & Haccepted);
    injection Htuple as <-; cbn [process]; rewrite Hnamed;
    destruct (lookup_named_action _ _ Hnamed) as (_ & Hcls & Hnargs & Hopt & Hdest & _).
  - change (length (command_line [Option_value name value])) with 2.
    apply consume_option_value; try done.
    + exists (command_line rest). by rewrite command_line_app, drop_app_length.
    + exists (concat (map word_pattern rest)).
      rewrite map_app, concat_app, <-word_pattern_length. by rewrite drop_app_length.
  - change (length (command_line [Option_equals name value])) with 1.
    by apply consume_option_equals.
Qed.

(** The loop on well-formed words, and the positional arguments after the
    last option. *)
Lemma parse_loop_words (words : list word) rounds : forall processed remaining st,
  words = processed ++ remaining -> Forall word_ok remaining ->
  Forall stores_positional (positionals st) ->
  length (positional_values remaining) ≤ length (positionals st) ->
  length (command_line remaining) < rounds ->
  (looped ← parse_loop setup_argparse (command_line words)
              (concat (map word_pattern words)) (word_indices 0 words) rounds
              (length (command_line processed)) st;
   consume_positionals (command_line words) (concat (map word_pattern words))
     looped.2 looped.1)
  = Done (foldl process st remaining, length (command_line words)).
Proof.
  induction rounds as [|rounds IH];
    intros processed remaining st Hwords Hok Hactions Hcount Hrounds; [lia|].
  destruct (words_run remaining) as (ss & rest & -> & Hrest).
  apply Forall_app in Hok as [Hss Hok].
  rewrite positional_values_app, positional_values_positionals, length_app in Hcount.
  rewrite command_line_app, command_line_positionals, length_app in Hrounds.
  assert (Forall plain ss) as Hplain.
  { apply Forall_forall. intros s Hs. rewrite Forall_forall in Hss.
    apply (Hss (Positional s)). apply list_elem_of_fmap. by exists s. }
  assert (forall k, word_indices 0 words !! (length (command_line processed) + k)
                    = tuple_at (map Positional ss ++ rest) k) as Hindex.
  { intros k. rewrite <-(tuple_at_app processed), <-Hwords.
    apply (word_indices_lookup words 0). }
  assert (drop (length (command_line processed)) (command_line words)
          = ss ++ command_line rest) as Hstrings.
  { by rewrite Hwords, !command_line_app, drop_app_length, command_line_positionals. }
  assert (drop (length (command_line processed)) (concat (map word_pattern words))
          = replicate (length ss) pA ++ concat (map word_pattern rest)) as Hpattern.
  { rewrite Hwords, !map_app, !concat_app, <-word_pattern_length, drop_app_length.
    by rewrite word_pattern_positionals. }
  assert (length (command_line words)
          = length (command_line processed) + (length ss + length (command_line rest)))
    as Hlength.
  { by rewrite Hwords, !command_line_app, !length_app, command_line_positionals. }
  destruct Hrest as [->|(w & rest' & -> & [tuple Htuple])].
  - (* no option is left *)
    cbn [parse_loop]. rewrite next_option_string_index_none.
    2:{ intros k _. rewrite Hindex, app_nil_r.
        destruct (decide (k < length ss)) as [Hk|Hk].
        - rewrite <-(app_nil_r (map Positional ss)). by apply tuple_at_positionals.
        - clear. revert k. induction ss as [|s ss IHss]; intros k; [apply tuple_at_nil|].
          destruct k; [done|]. apply IHss. }
    rewrite outcome_bind_Done. cbn [fst snd].
    rewrite (consume_positionals_run _ _ _ _ ss [] []); try done.
    + rewrite app_nil_r. do 2 f_equal. rewrite Hlength. simpl. lia.
    + lia.
    + by left.
  - (* an option, after the positional arguments [ss] *)
    apply Forall_cons in Hok as [Hw Hok].
    assert (next_option_string_index (word_indices 0 words)
              (length (command_line words) - length (command_line processed))
              (length (command_line processed))
            = Some (length (command_line processed) + length ss, tuple)) as Hnext.
    { apply next_option_string_index_first.
      - intros k Hk. rewrite Hindex. by apply tuple_at_positionals.
      - rewrite Hindex.
        replace (length ss) with (length (command_line (map Positional ss)) + 0)
          by (rewrite command_line_positionals; lia).
        by rewrite tuple_at_app.
      - rewrite Hlength. destruct w; simpl; lia. }
    cbn [parse_loop]. rewrite Hnext.
    assert (run_end (concat (map word_pattern (w :: rest')))) as Hend.
    { right. destruct w; [done|..]; by eexists. }
    destruct ss as [|s ss'].
    + (* the option is the next word *)
      rewrite decide_True by (simpl; lia). simpl length. rewrite Nat.add_0_r in *.
      rewrite (consume_optional_word words processed rest' w tuple st) by done.
      rewrite outcome_bind_Done. cbn [fst snd].
      rewrite (IH (processed ++ [w]) rest' (process st w)).
      * done.
      * by rewrite <-app_assoc.
      * done.
      * change (process st w) with (foldl process st [w]).
        rewrite positionals_process. by apply Forall_drop.
      * destruct w; [done|..]; simpl in *.
        -- destruct (named_action name); simpl; lia.
        -- destruct (named_action name); simpl; lia.
      * destruct w; simpl in Hrounds; unfold command_line in *; simpl in *;
          try rewrite length_app in *; simpl in *; lia.
    + (* positional arguments first *)
      rewrite decide_False by (simpl; lia).
      rewrite (consume_positionals_run _ _ _ _ (s :: ss') (command_line (w :: rest'))
                 (concat (map word_pattern (w :: rest')))); try done; [|lia].
      rewrite outcome_bind_Done. cbn [fst snd].
      rewrite decide_True by (simpl; lia).
      replace (length (command_line processed) + length (s :: ss'))
        with (length (command_line (processed ++ map Positional (s :: ss'))))
        by (by rewrite command_line_app, length_app, command_line_positionals).
      rewrite (IH (processed ++ map Positional (s :: ss')) (w :: rest')).
      * by rewrite foldl_app.
      * by rewrite <-app_assoc.
      * by apply Forall_cons.
      * rewrite positionals_process. by apply Forall_drop.
      * rewrite positionals_process, positional_values_positionals, length_drop. lia.
      * simpl in Hrounds. lia.
Qed.

(** *** The namespace of a well-formed command line *)

(** The value that a word gives to one of the options [names]. *)
Definition named_value (names : list string) (w : word) : option string :=
  match w with
  | Positional _ => None
  | Option_value name value | Option_equals name value =>
      if bool_decide (name ∈ names) then Some value else None
  end.

(** The value of an option on the command line: that of its last
    occurrence, under any of its names. *)
Definition option_value (names : list string) (words : list word) : option string :=
  last (omap (named_value names) words).

Definition optional_attribute (value : option string) : argval :=
  match value with
  | Some s => AStr s
  | None => ANone
  end.

(** The namespace for the positional arguments [values] and the options of
    [words]. *)
Definition words_namespace (values : list string) (words : list word) : Namespace :=
  <["file1" := optional_attribute (values !! 0)]>
    (<["file2" := optional_attribute (values !! 1)]>
       (<["type" := AStr (default "yaml" (option_value ["--type"] words))]>
          (<["output" := optional_attribute (option_value ["--output"; "-o"] words)]>
             (<["schema" := optional_attribute (option_value ["--schema"] words)]> ∅)))).

Lemma option_value_snoc names words w :
  option_value names (words ++ [w])
  = match named_value names w with
    | Some value => Some value
    | None => option_value names words
    end.
Proof.
  unfold option_value. rewrite omap_app. simpl.
  destruct (named_value names w); [apply last_snoc|by rewrite app_nil_r].
Qed.

Ltac namespace_eq :=
  apply map_eq; intros key; rewrite !lookup_insert; repeat case_decide; by simplify_eq.

Lemma named_action_option name action :
  named_action name = Some action -> action ∈ [type_action; output_action; schema_action].
Proof.
  unfold named_action. repeat case_decide; intros [= <-].
  - by left.
  - by right; left.
  - by do 2 right; left.
Qed.

Lemma words_state (words : list word) :
  Forall word_ok words -> length (positional_values words) ≤ 2 ->
  let values := positional_values words in
  let st := foldl process initial_state words in
  namespace st = words_namespace values words
  ∧ positionals st = drop (length values) [file1_action; file2_action]
  ∧ extras st = []
  ∧ (forall action, action ∈ take (length values) [file1_action; file2_action] ->
                    action ∈ seen_actions st)
  ∧ (forall action, action ∈ seen_actions st ->
                    action ∈ take (length values) [file1_action; file2_action]
                    ∨ action ∈ [type_action; output_action; schema_action]).
Proof.
  induction words as [|w words IH] using rev_ind; intros Hok Hlen values st.
  { split_and!; try done. intros action Hin. by apply elem_of_nil in Hin. }
  apply Forall_app in Hok as [Hok Hw]. apply Forall_cons in Hw as [Hw _].
  subst values st. rewrite positional_values_app, foldl_app in *.
  rewrite length_app in Hlen. cbn [foldl].
  destruct (IH Hok ltac:(lia)) as (Hns & Hpos & Hextras & Hseen & Hbound). clear IH.
  set (st := foldl process initial_state words) in *.
  set (values := positional_values words) in *.
  unfold words_namespace in *. rewrite !option_value_snoc.
  destruct w as [s|name value|name value].
  - (* a positional argument *)
    change (positional_values [Positional s]) with [s] in *.
    rewrite length_app. cbn [named_value]. unfold process. rewrite Hpos.
    destruct values as [|value1 [|value2 values]]; simpl in Hlen; [..|lia].
    + simpl. rewrite Hns. split_and!; try done; try namespace_eq.
      * intros action Hin. apply list_elem_of_singleton in Hin as ->.
        apply elem_of_app. right. by apply list_elem_of_singleton.
      * intros action Hin. apply elem_of_app in Hin as [Hin|Hin].
        -- destruct (Hbound action Hin) as [Hnil|Hoption]; [|by right].
           by apply elem_of_nil in Hnil.
        -- by left.
    + simpl. rewrite Hns. split_and!; try done; try namespace_eq.
      * intros action Hin. apply elem_of_app.
        apply elem_of_cons in Hin as [->|Hin].
        -- left. apply Hseen. simpl. by left.
        -- by right.
      * intros action Hin. apply elem_of_app in Hin as [Hin|Hin].
        -- destruct (Hbound action Hin) as [Hfirst|Hoption]; [|by right].
           left. simpl in Hfirst. apply list_elem_of_singleton in Hfirst as ->. by left.
        -- left. apply list_elem_of_singleton in Hin as ->. by right; left.
  - (* an option and its value *)
    destruct Hw as (action & Hnamed & _). unfold process. rewrite Hnamed.
    change (positional_values [Option_value name value]) with (@nil string) in *.
    rewrite !app_nil_r. cbn [store namespace positionals extras seen_actions].
    rewrite Hns. split_and!; try done.
    + unfold named_action in Hnamed.
      repeat case_decide; simplify_eq;
        repeat match goal with H : _ ∨ _ |- _ => destruct H as [->| ->] end;
        cbn [named_value]; simpl; try done; namespace_eq.
    + intros action' Hin. apply elem_of_app. left. by apply Hseen.
    + intros action' Hin. apply elem_of_app in Hin as [Hin|Hin]; [by apply Hbound|].
      right. apply list_elem_of_singleton in Hin as ->. by eapply named_action_option.
  - (* an option with its value after the equals sign *)
    destruct Hw as (action & Hnamed & _). unfold process. rewrite Hnamed.
    change (positional_values [Option_equals name value]) with (@nil string) in *.
    rewrite !app_nil_r. cbn [store namespace positionals extras seen_actions].
    rewrite Hns. split_and!; try done.
    + unfold named_action in Hnamed.
      repeat case_decide; simplify_eq;
        repeat match goal with H : _ ∨ _ |- _ => destruct H as [->| ->] end;
        cbn [named_value]; simpl; try done; namespace_eq.
    + intros action' Hin. apply elem_of_app. left. by apply Hseen.
    + intros action' Hin. apply elem_of_app in Hin as [Hin|Hin]; [by apply Hbound|].
      right. apply list_elem_of_singleton in Hin as ->. by eapply named_action_option.
Qed.

Lemma required_actions_seen (seen : list Action) :
  filter (fun action => (action ∉ seen) ∧ required action = true) (_actions setup_argparse)
  = filter (fun action => action ∉ seen) [file1_action; file2_action].
Proof.
  by rewrite <-list_filter_filter.
Qed.

(** The positional arguments that are missing after the words. *)
Lemma missing_words (words : list word) :
  Forall word_ok words -> length (positional_values words) ≤ 2 ->
  filter (fun action => action ∉ seen_actions (foldl process initial_state words))
         [file1_action; file2_action]
  = drop (length (positional_values words)) [file1_action; file2_action].
Proof.
  intros Hok Hlen.
  destruct (words_state words Hok Hlen) as (_ & _ & _ & Hseen & Hbound).
  assert (forall action, action ∈ [file1_action; file2_action] ->
            action ∈ seen_actions (foldl process initial_state words)
            ↔ action ∈ take (length (positional_values words))
                           [file1_action; file2_action]) as Hiff.
  { intros action Hin. split; [|apply Hseen]. intros Hin'.
    destruct (Hbound action Hin') as [|Hoption]; [done|].
    exfalso. revert Hin Hoption. clear. rewrite !elem_of_cons, !elem_of_nil.
    intros [->|[->|[]]] [|[|[|[]]]]; done. }
  pose proof (Hiff file1_action ltac:(by left)) as Hfile1.
  pose proof (Hiff file2_action ltac:(by right; left)) as Hfile2.
  rewrite !filter_cons, filter_nil.
  destruct (positional_values words) as [|value1 [|value2 [|value3 values]]];
    simpl in Hlen, Hfile1, Hfile2 |- *; [..|lia].
  - rewrite elem_of_nil in Hfile1, Hfile2. by rewrite !decide_True by tauto.
  - rewrite list_elem_of_singleton in Hfile1, Hfile2.
    rewrite decide_False by tauto. rewrite decide_True; [done|].
    rewrite Hfile2. discriminate.
  - rewrite !elem_of_cons in Hfile1, Hfile2. by rewrite !decide_False by tauto.
Qed.

Lemma parse_known_args_words (words : list word) :
  Forall word_ok words -> length (positional_values words) ≤ 2 ->
  parse_known_args setup_argparse (command_line words)
  = match drop (length (positional_values words)) ["file1"; "file2"] with
    | [] => Done (words_namespace (positional_values words) words, [])
    | names => Exit (error_exit (required_arguments names))
    end.
Proof.
  intros Hok Hvalues. unfold parse_known_args.
  rewrite classify_words, outcome_bind_Done by done. cbn [fst snd].
  change (Build_parse_state (default_namespace setup_argparse)
            (_get_positional_actions setup_argparse) [] []) with initial_state.
  assert (Forall stores_positional (positionals initial_state)) as Hactions.
  { repeat constructor; try done; by eexists. }
  pose proof (parse_loop_words words (S (length (command_line words))) [] words
                initial_state eq_refl Hok Hactions ltac:(simpl; lia) ltac:(lia)) as Hloop.
  change (length (command_line [])) with 0 in Hloop.
  destruct (parse_loop _ _ _ _ _ _ _) as [[st stop_index]|e]; [|done].
  rewrite outcome_bind_Done in Hloop. rewrite outcome_bind_Done.
  cbn [fst snd] in *. rewrite Hloop.
  rewrite outcome_bind_Done. cbn [fst snd].
  destruct (words_state words Hok Hvalues) as (Hns & _ & Hextras & _).
  rewrite Hns, Hextras, drop_all, required_actions_seen, missing_words by done.
  by destruct (positional_values words) as [|value1 [|value2 [|value3 values]]].
Qed.

(** X13. When the parser accepts a command line, the namespace has values
    other than [None] for [file1] and [file2]; [type] is one of ["json"],
    ["yaml"] and ["ini"], or it is the empty list, which [--type=--] gives;
    [output] and [schema] are attributes of the namespace. *)
Theorem parse_args_namespace (argv : list string) (args : Namespace) :
  parse_args setup_argparse argv = Done args ->
  (exists value1 value2,
     args !! "file1" = Some value1 ∧ value1 ≠ ANone
     ∧ args !! "file2" = Some value2 ∧ value2 ≠ ANone)
  ∧ ((exists config_type, args !! "type" = Some (AStr config_type)
                          ∧ config_type ∈ ["json"; "yaml"; "ini"])
     ∨ args !! "type" = Some (AList []))
  ∧ is_Some (args !! "output") ∧ is_Some (args !! "schema").
Proof.
  intros Hparsed.
  destruct (parse_args_namespace_inv argv args Hparsed)
    as (seen & (Htype & Houtput & Hschema & Hseen) & Hfile1 & Hfile2).
  split_and!; try done.
  destruct (Hseen _ "file1" Hfile1 eq_refl) as (value1 & Hvalue1 & Hnone1).
  destruct (Hseen _ "file2" Hfile2 eq_refl) as (value2 & Hvalue2 & Hnone2).
  by exists value1, value2.
Qed.

Lemma parse_args_namespace_witness :
  (exists value1 value2,
     ({["file1" := AStr "a"; "file2" := AList []; "type" := AList [];
        "output" := ANone; "schema" := ANone]} : Namespace) !! "file1" = Some value1
     ∧ value1 ≠ ANone
     ∧ ({["file1" := AStr "a"; "file2" := AList []; "type" := AList [];
          "output" := ANone; "schema" := ANone]} : Namespace) !! "file2" = Some value2
     ∧ value2 ≠ ANone)
  ∧ ((exists config_type,
        ({["file1" := AStr "a"; "file2" := AList []; "type" := AList [];
           "output" := ANone; "schema" := ANone]} : Namespace) !! "type"
        = Some (AStr config_type)
        ∧ config_type ∈ ["json"; "yaml"; "ini"])
     ∨ ({["file1" := AStr "a"; "file2" := AList []; "type" := AList [];
          "output" := ANone; "schema" := ANone]} : Namespace) !! "type" = Some (AList []))
  ∧ is_Some (({["file1" := AStr "a"; "file2" := AList []; "type" := AList [];
               "output" := ANone; "schema" := ANone]} : Namespace) !! "output")
  ∧ is_Some (({["file1" := AStr "a"; "file2" := AList []; "type" := AList [];
               "output" := ANone; "schema" := ANone]} : Namespace) !! "schema").
Proof.
  apply (parse_args_namespace ["--type=--"; "a"; "--"; "--"]).
  vm_compute. reflexivity.
Defined.

(** X14. A command line of well-formed words with two positional arguments
    is accepted: [file1] and [file2] are the positional arguments in their
    order, wherever the options stand, and every option has the value of
    its last occurrence, [-o] and [--output] being one option; [type] is
    ["yaml"] and the other two are [None] when they are not given. *)
Theorem parse_args_words (words : list word) (path1 path2 : string) :
  Forall word_ok words -> positional_values words = [path1; path2] ->
  parse_args setup_argparse (command_line words)
  = Done (words_namespace [path1; path2] words).
Proof.
  intros Hok Hvalues. unfold parse_args.
  rewrite parse_known_args_words by (by rewrite ?Hvalues).
  by rewrite Hvalues.
Qed.

Lemma parse_args_words_witness :
  parse_args setup_argparse
    (command_line [Option_value "-o" "out.diff"; Positional "a.json";
                   Option_equals "--type" "json"; Option_equals "--output" "-";
                   Positional "b.json"])
  = Done (words_namespace ["a.json"; "b.json"]
            [Option_value "-o" "out.diff"; Positional "a.json";
             Option_equals "--type" "json"; Option_equals "--output" "-";
             Positional "b.json"]).
Proof.
  apply (parse_args_words
           [Option_value "-o" "out.diff"; Positional "a.json";
            Option_equals "--type" "json"; Option_equals "--output" "-";
            Positional "b.json"] "a.json" "b.json").
  - repeat apply Forall_cons_2; try apply Forall_nil_2.
    + exists output_action. split; [reflexivity|]. split; [reflexivity|]. exact I.
    + reflexivity.
    + exists type_action. split; [reflexivity|]. split; [discriminate|].
      apply list_elem_of_here.
    + exists output_action. split; [reflexivity|]. split; [discriminate|]. exact I.
    + reflexivity.
  - reflexivity.
Defined.

Section script_facts.
Variable float_repr : spec_float -> string.
Variable json_load : string -> result pyval.
Variable yaml_safe_load : string -> result pyval.
Variable validate : pyval -> pyval -> result unit.
Variable format_help : ArgumentParser -> string.

(** The arguments of [main] for the words of a command line. *)
Definition words_args (path1 path2 : string) (words : list word) : Args :=
  {| file1 := path1; file2 := path2;
     type := default "yaml" (option_value ["--type"] words);
     output := option_value ["--output"; "-o"] words;
     schema := option_value ["--schema"] words |}.

(** X15. On a command line of well-formed words with two positional
    arguments, the script is [main] on these two files, with the type, the
    output file and the schema that the options give. *)
Theorem script_words (words : list word) (path1 path2 : string) (w : world) :
  Forall word_ok words -> positional_values words = [path1; path2] ->
  script float_repr json_load yaml_safe_load validate format_help (command_line words) w
  = let '(w', r) :=
      main float_repr json_load yaml_safe_load validate (words_args path1 path2 words) w in
    (w', in_main r).
Proof.
  intros Hok Hvalues. unfold script, parse_args.
  rewrite parse_known_args_words by (by rewrite ?Hvalues).
  rewrite Hvalues. cbn [drop length]. rewrite outcome_bind_Done. cbn [fst snd].
  unfold words_namespace, words_args. rewrite !lookup_insert. simpl.
  by destruct (option_value ["--output"; "-o"] words),
              (option_value ["--schema"] words).
Qed.

(** X16. On a command line of well-formed words with fewer than two
    positional arguments, the parser reports the missing ones, [file1] first,
    and the script ends there: nothing is read, written or logged. *)
Theorem script_missing_files (words : list word) (w : world) :
  Forall word_ok words -> length (positional_values words) < 2 ->
  script float_repr json_load yaml_safe_load validate format_help (command_line words) w
  = (w, in_parser (error_exit (required_arguments
                                 (drop (length (positional_values words))
                                       ["file1"; "file2"])))).
Proof.
  intros Hok Hvalues. unfold script, parse_args.
  rewrite parse_known_args_words by (done || lia).
  by destruct (positional_values words) as [|value1 [|value2 values]];
    [..|simpl in Hvalues; lia].
Qed.
End script_facts.

Lemma script_words_witness :
  script example_repr example_json example_yaml example_validate (fun _ => "usage")
    (command_line [Positional "f1"; Option_value "--type" "json"; Positional "f2";
                   Option_equals "-o" "out"]) example_world
  = let '(w', r) :=
      main example_repr example_json example_yaml example_validate
        (words_args "f1" "f2"
           [Positional "f1"; Option_value "--type" "json"; Positional "f2";
            Option_equals "-o" "out"]) example_world in
    (w', in_main r).
Proof.
  apply (script_words example_repr example_json example_yaml example_validate
           (fun _ => "usage")
           [Positional "f1"; Option_value "--type" "json"; Positional "f2";
            Option_equals "-o" "out"] "f1" "f2" example_world).
  - repeat apply Forall_cons_2; try apply Forall_nil_2.
    + reflexivity.
    + exists type_action. split; [reflexivity|]. split; [reflexivity|].
      apply list_elem_of_here.
    + reflexivity.
    + exists output_action. split; [reflexivity|]. split; [discriminate|]. exact I.
  - reflexivity.
Defined.

Lemma script_missing_files_witness :
  script example_repr example_json example_yaml example_validate (fun _ => "usage")
    (command_line [Option_equals "--schema" ""; Positional "f1"]) example_world
  = (example_world, in_parser (error_exit (required_arguments ["file2"]))).
Proof.
  apply (script_missing_files example_repr example_json example_yaml example_validate
           (fun _ => "usage") [Option_equals "--schema" ""; Positional "f1"] example_world).
  - repeat apply Forall_cons_2; try apply Forall_nil_2.
    + exists schema_action. split; [reflexivity|]. split; [discriminate|]. exact I.
    + reflexivity.
  - simpl. lia.
Defined.

(** ** The lines of the output of a diff *)

Lemma no_linebreak_pretty_N_go (x : N) : forall s,
  no_linebreak s -> no_linebreak (pretty_N_go x s).
Proof.
  induction (N.lt_wf_0 x) as [x _ IH]; intros s Hs.
  assert (x = 0 ∨ 0 < x)%N as [->|Hx] by lia.
  - by rewrite pretty_N_go_0.
  - rewrite pretty_N_go_step by done. apply IH.
    { by apply N.div_lt. }
    simpl. apply andb_prop_intro. split; [|done].
    unfold pretty_N_char. by repeat case_match.
Qed.

Lemma no_linebreak_pretty (n : nat) : no_linebreak (pretty n).
Proof.
  unfold pretty, pretty_nat, pretty, pretty_N. case_decide; [done|].
  by apply no_linebreak_pretty_N_go.
Qed.

Lemma no_linebreak_format_range start stop :
  no_linebreak (_format_range_unified start stop).
Proof.
  unfold _format_range_unified. case_decide; [apply no_linebreak_pretty|].
  rewrite !no_linebreak_app.
  repeat (apply andb_prop_intro; split); try done; apply no_linebreak_pretty.
Qed.

(** The line of the ranges of a hunk, without its end. *)
Definition range_line (h : hunk) : string :=
  "@@ -" +:+ _format_range_unified (old_start h) (old_stop h)
  +:+ " +" +:+ _format_range_unified (new_start h) (new_stop h) +:+ " @@".

Lemma no_linebreak_range_line h : no_linebreak (range_line h).
Proof.
  unfold range_line. rewrite !no_linebreak_app.
  repeat (apply andb_prop_intro; split); try done; apply no_linebreak_format_range.
Qed.

(** The lines of the text that [print] and [write_diff] make of the lines of
    a patch: the lines of the header and of the ranges, which have their
    end already, are each followed by an empty line. *)
Definition hunk_output (h : hunk) : list string := range_line h :: "" :: body h.

Definition patch_output (fromfile tofile : string) (hunks : list hunk) : list string :=
  match hunks with
  | [] => []
  | _ => ("--- " +:+ fromfile) :: "" :: ("+++ " +:+ tofile) :: ""
         :: concat (map hunk_output hunks)
  end.

Lemma printed_app lines1 lines2 : printed (lines1 ++ lines2) = printed lines1 +:+ printed lines2.
Proof.
  induction lines1 as [|line lines1 IH]; [done|].
  unfold printed in *. simpl map. rewrite !concat_cons_empty, IH.
  by rewrite !str_app_assoc.
Qed.

Lemma printed_cons line lines : printed (line :: lines) = line +:+ NL +:+ printed lines.
Proof. unfold printed. simpl map. by rewrite concat_cons_empty, str_app_assoc. Qed.

Lemma splitlines_from_printed lines rest :
  Forall (fun line => no_linebreak line) lines ->
  splitlines_from "" (printed lines +:+ rest) = lines ++ splitlines_from "" rest.
Proof.
  induction 1 as [|line lines Hline _ IH]; [done|].
  rewrite printed_cons, !str_app_assoc, splitlines_from_line by done.
  rewrite str_app_nil_l. simpl. f_equal. by rewrite <-IH.
Qed.

(** A line that has its end already gives an empty line. *)
Lemma splitlines_from_ended line lines rest :
  no_linebreak line ->
  splitlines_from "" (printed ((line +:+ NL) :: lines) +:+ rest)
  = line :: "" :: splitlines_from "" (printed lines +:+ rest).
Proof.
  intros Hline. rewrite printed_cons, !str_app_assoc, splitlines_from_line by done.
  rewrite str_app_nil_l. by f_equal.
Qed.

Lemma hunk_lines_range_line h : hunk_lines h = (range_line h +:+ NL) :: body h.
Proof. unfold hunk_lines, range_line. by rewrite !str_app_assoc. Qed.

Lemma splitlines_hunks hunks :
  Forall (fun h => Forall (fun line => no_linebreak line) (body h)) hunks ->
  splitlines_from "" (printed (concat (map hunk_lines hunks)) +:+ "")
  = concat (map hunk_output hunks).
Proof.
  induction 1 as [|h hunks Hbody _ IH]; [done|].
  cbn [map concat]. rewrite hunk_lines_range_line. cbn [app].
  rewrite splitlines_from_ended by apply no_linebreak_range_line.
  rewrite printed_app, str_app_assoc, splitlines_from_printed by done.
  by rewrite IH.
Qed.

Lemma splitlines_patch_lines fromfile tofile hunks :
  no_linebreak fromfile -> no_linebreak tofile ->
  Forall (fun h => Forall (fun line => no_linebreak line) (body h)) hunks ->
  splitlines (printed (patch_lines fromfile tofile hunks)) = patch_output fromfile tofile hunks.
Proof.
  intros Hfrom Hto Hhunks. unfold patch_lines, patch_output.
  destruct hunks as [|h hunks]; [done|]. unfold splitlines.
  rewrite <-(str_app_empty_r (printed _)), <-!str_app_assoc.
  rewrite (splitlines_from_ended ("--- " +:+ fromfile))
    by (rewrite no_linebreak_app; by apply andb_prop_intro).
  rewrite (splitlines_from_ended ("+++ " +:+ tofile))
    by (rewrite no_linebreak_app; by apply andb_prop_intro).
  by rewrite splitlines_hunks.
Qed.

Lemma no_linebreak_marked marker lines :
  no_linebreak marker ->
  Forall (fun line => no_linebreak line) lines ->
  Forall (fun line => no_linebreak line) (map (fun line => marker +:+ line) lines).
Proof.
  intros Hmarker. induction 1 as [|line lines Hline _ IH]; constructor; [|done].
  rewrite no_linebreak_app. by apply andb_prop_intro.
Qed.

Lemma no_linebreak_slice (lines : list string) i1 i2 :
  Forall (fun line => no_linebreak line) lines ->
  Forall (fun line => no_linebreak line) (slice lines i1 i2).
Proof. intros Hlines. by apply Forall_take, Forall_drop. Qed.

Lemma no_linebreak_opcode_lines a b c :
  Forall (fun line => no_linebreak line) a ->
  Forall (fun line => no_linebreak line) b ->
  Forall (fun line => no_linebreak line) (opcode_lines a b c).
Proof.
  intros Ha Hb. unfold opcode_lines.
  destruct (op_tag c); try apply Forall_app_2;
    by apply no_linebreak_marked, no_linebreak_slice.
Qed.

Lemma no_linebreak_hunk_of a b group :
  Forall (fun line => no_linebreak line) a ->
  Forall (fun line => no_linebreak line) b ->
  Forall (fun line => no_linebreak line) (body (hunk_of a b group)).
Proof.
  intros Ha Hb. unfold hunk_of. cbn [body].
  induction group as [|c group IH]; [done|]. cbn [map concat].
  apply Forall_app_2; [by apply no_linebreak_opcode_lines|done].
Qed.

Lemma unified_diff_output a b fromfile tofile :
  no_linebreak fromfile -> no_linebreak tofile ->
  Forall (fun line => no_linebreak line) a ->
  Forall (fun line => no_linebreak line) b ->
  exists hunks,
    unified_diff a b fromfile tofile = patch_lines fromfile tofile hunks
    ∧ patch 0 a hunks = Some b
    ∧ splitlines (printed (patch_lines fromfile tofile hunks))
      = patch_output fromfile tofile hunks.
Proof.
  intros Hfrom Hto Ha Hb.
  pose proof (get_grouped_opcodes_patched a b) as Hpatched.
  exists (map (hunk_of a b) (get_grouped_opcodes a b 3)). split_and!.
  - pose proof (patched_lines a b _ 0 0 Hpatched) as Hlines.
    unfold unified_diff, patch_lines, lineterm.
    destruct (get_grouped_opcodes a b 3) as [|group groups]; [done|].
    rewrite Hlines, map_map. done.
  - by rewrite (patched_patch a b _ 0 0 Hpatched).
  - apply splitlines_patch_lines; [done..|]. clear Hpatched.
    induction (get_grouped_opcodes a b 3) as [|group groups IH]; cbn [map];
      constructor; [|done].
    by apply no_linebreak_hunk_of.
Qed.

Section diff_output.
Variable float_repr : spec_float -> string.

(** X17. The text that a run prints, or writes to the output file, for the
    diff of two values is not the lines of the diff: the two lines of the
    header and the line of the ranges of every hunk end with a newline
    already, and each of them is followed by an empty line in the output;
    the lines of the bodies of the hunks are printed as they are. *)
Theorem diff_configs_output (config1 config2 : pyval) (text1 text2 : string) :
  json_dumps float_repr config1 = Ret text1 ->
  json_dumps float_repr config2 = Ret text2 ->
  exists hunks,
    diff_configs float_repr config1 config2 = Ret (patch_lines "file1" "file2" hunks)
    ∧ patch 0 (splitlines text1) hunks = Some (splitlines text2)
    ∧ splitlines (printed (patch_lines "file1" "file2" hunks))
      = patch_output "file1" "file2" hunks.
Proof.
  intros H1 H2.
  destruct (unified_diff_output (splitlines text1) (splitlines text2) "file1" "file2")
    as (hunks & Hlines & Hpatch & Houtput);
    [done|done|apply splitlines_no_linebreak..|].
  exists hunks. split_and!; [|done..].
  unfold diff_configs. by rewrite H1, H2, !rbind_Ret, Hlines.
Qed.
End diff_output.

Lemma diff_configs_output_witness :
  exists hunks,
    diff_configs example_repr example_120 example_210
    = Ret (patch_lines "file1" "file2" hunks)
    ∧ patch 0 (splitlines (canonical example_repr 0 example_120)) hunks
      = Some (splitlines (canonical example_repr 0 example_210))
    ∧ splitlines (printed (patch_lines "file1" "file2" hunks))
      = patch_output "file1" "file2" hunks.
Proof.
  apply (diff_configs_output example_repr example_120 example_210).
  - reflexivity.
  - reflexivity.
Defined.

(** ** The help of the parser *)

Lemma consume_optional_help arg_strings pattern start_index action name st :
  action_cls action = _HelpAction -> nargs action = nargs_0 ->
  option_strings action ≠ [] ->
  consume_optional setup_argparse arg_strings pattern start_index (Some action, name, None) st
  = Exit help_exit.
Proof.
  intros Hcls Hnargs Hstrings.
  unfold consume_optional, consume_following, _match_argument, match_nargs.
  rewrite Hnargs. destruct (option_strings action) as [|first others]; [done|].
  rewrite !outcome_bind_Done. cbn [take_actions fst snd app take].
  unfold take_action, _get_values. cbn [remove_first]. by rewrite Hnargs, Hcls.
Qed.

(** The action that [ArgumentParser] adds for [-h] and [--help]. *)
Definition help_action : Action :=
  {| action_cls := _HelpAction; option_strings := ["-h"; "--help"]; dest := None;
     nargs := nargs_0; action_default := default_SUPPRESS; choices := None;
     required := false; help := "show this help message and exit" |}.

Lemma _parse_optional_help option_string :
  option_string = "-h" ∨ option_string = "--help" ->
  _parse_optional setup_argparse option_string
  = Done (Some (Some help_action, option_string, None)).
Proof. intros [->| ->]; vm_compute; reflexivity. Qed.

Section help.
Variable float_repr : spec_float -> string.
Variable json_load : string -> result pyval.
Variable yaml_safe_load : string -> result pyval.
Variable validate : pyval -> pyval -> result unit.
Variable format_help : ArgumentParser -> string.

(** X18. With [-h] or [--help] before well-formed words, the script prints
    the help of the parser and ends with the status 0: the words that follow
    are not looked at, the positional arguments need not be there, no file is
    read and nothing is logged. *)
Theorem script_help (option_string : string) (words : list word) (w : world) :
  option_string = "-h" ∨ option_string = "--help" ->
  Forall word_ok words ->
  let ending :=
    script float_repr json_load yaml_safe_load validate format_help
      (option_string :: command_line words) w in
  ending = (add_stdout (format_help setup_argparse) w, in_parser help_exit)
  ∧ exit_status ending.2 = 0%Z.
Proof.
  intros Hoption Hok ending.
  cut (ending = (add_stdout (format_help setup_argparse) w, in_parser help_exit)).
  { by intros ->. }
  unfold ending, script, parse_args, parse_known_args. cbn [classify].
  rewrite decide_False by (by destruct Hoption as [->| ->]).
  rewrite (_parse_optional_help option_string Hoption).
  rewrite outcome_bind_Done, classify_words, outcome_bind_Done by done. cbn [fst snd].
  rewrite outcome_bind_Done. cbn [fst snd length parse_loop].
  rewrite Nat.sub_0_r. cbn [next_option_string_index].
  rewrite lookup_insert_eq. rewrite decide_True by done.
  by rewrite (consume_optional_help _ _ 0 help_action).
Qed.
End help.

Lemma script_help_witness :
  script example_repr example_json example_yaml example_validate (fun _ => "usage")
    ("--help" :: command_line [Option_value "--type" "ini"]) example_world
  = (add_stdout "usage" example_world, in_parser help_exit)
  ∧ exit_status
      (script example_repr example_json example_yaml example_validate (fun _ => "usage")
         ("--help" :: command_line [Option_value "--type" "ini"]) example_world).2
    = 0%Z.
Proof.
  apply (script_help example_repr example_json example_yaml example_validate
           (fun _ => "usage") "--help" [Option_value "--type" "ini"] example_world).
  - right. reflexivity.
  - repeat apply Forall_cons_2; try apply Forall_nil_2.
    exists type_action. split; [reflexivity|]. split; [reflexivity|].
    apply list_elem_of_further, list_elem_of_further, list_elem_of_here.
Defined.
